(** * ShroonUtils: vector, string, hashmap, hashset and hash utilities

    A shallow embedding of the single-header C containers of ShroonUtils
    ([Vector.h], [String.h], [Hashmap.h], [Hashset.h], [HashUtils.h],
    [Common.h], [ErrorHandler.h]) and of the vector helper of the test
    suite ([Test.c]); the properties of them that the specification
    states; and further properties read off the code.

    Conventions of the embedding.
    - [size_t] is 64 bits wide: a [Z] in [0, 2^64), every arithmetic
      operation of the source followed by [wrap].
    - A byte is a [Z]; a block of memory is a [list Z].
    - A vector is the block the source allocates: the three header words
      [Size], [Capacity], [Elemsize] and the bytes that follow them.  The
      pointer the user holds is a [handle]; [None] is [NULL].
    - A pointer into a vector is the byte offset from the handle.
    - Every access is bounds-checked against the bytes really allocated;
      an access outside them, a dereference of [NULL] or of a wild address
      and a division by zero are undefined behaviour in C and a [Fault]
      here.
    - [SHRN_MALLOC]/[SHRN_REALLOC] are platform primitives: whether the
      n-th request succeeds and which bytes a fresh block holds is given by
      a [platform] oracle.
    - [SUTLErrorHandler] appends its message to the [errors] log. *)

From Stdlib Require Import ZArith List String Lia Bool.
From stdpp Require Import base list.

Open Scope Z_scope.

(** ** Machine words *)

Definition sizeof_size_t : Z := 8.
Definition SIZE_MAX : Z := 18446744073709551615.
Definition wrap (x : Z) : Z := x mod (SIZE_MAX + 1).

(** The three [size_t] fields in front of the elements. *)
Definition HEADER : Z := sizeof_size_t * 3.

(** ** Platform, world and the result of a call *)

Record platform := {
  (** does the n-th allocation request, of so many bytes, succeed? *)
  alloc_ok : nat -> Z -> bool;
  (** the byte at a data offset of the block the n-th request returns,
      where that block is not a copy of the old one *)
  fresh_byte : nat -> nat -> Z
}.

Record world := {
  allocs : nat;           (* allocation requests made so far *)
  errors : list string    (* messages passed to SUTLErrorHandler, oldest first *)
}.

Inductive fault :=
| OutOfBounds (off len avail : Z)  (* access of len bytes at off in a block of avail bytes *)
| NullHandle                       (* header access through NULL *)
| DivideByZero
| WildPointer (addr : Z)           (* dereference of an integer used as an address *)
| TruncatedHeader (bytes : Z).     (* block smaller than the three header words *)

Inductive result (A : Type) :=
| Ok (a : A) (w : world)
| Fault (f : fault).
Arguments Ok {A} a w.
Arguments Fault {A} f.

Definition M (A : Type) : Type := world -> result A.

Definition ret {A} (a : A) : M A := fun w => Ok a w.
Definition bind {A B} (m : M A) (k : A -> M B) : M B :=
  fun w => match m w with
           | Ok a w' => k a w'
           | Fault f => Fault f
           end.
Definition raise {A} (f : fault) : M A := fun _ => Fault f.

Declare Scope sutl_scope.
Delimit Scope sutl_scope with sutl.
Notation "x <- m ;; k" := (bind m (fun x => k))
  (at level 100, m at next level, right associativity) : sutl_scope.
Notation "m ;;; k" := (bind m (fun _ => k))
  (at level 100, right associativity) : sutl_scope.
Open Scope sutl_scope.

(** [ErrorHandler.h]: the process-wide callback; the log stands for
    whatever handler is installed. *)
Definition SUTLErrorHandler (msg : string) : M unit :=
  fun w => Ok tt {| allocs := allocs w; errors := errors w ++ [msg] |}.

Definition initial_world : world := {| allocs := 0%nat; errors := [] |}.

(** ** Raw memory *)

Definition blen (d : list Z) : Z := Z.of_nat (length d).

(** Read [len] bytes at offset [off]. *)
Definition load (d : list Z) (off len : Z) : M (list Z) :=
  if off + len <=? blen d
  then ret (take (Z.to_nat len) (drop (Z.to_nat off) d))
  else raise (OutOfBounds off len (blen d)).

(** Overwrite the bytes at offset [off] with [bs]. *)
Definition store (d : list Z) (off : Z) (bs : list Z) : M (list Z) :=
  if off + blen bs <=? blen d
  then ret (take (Z.to_nat off) d ++ bs ++ drop (Z.to_nat (off + blen bs)) d)
  else raise (OutOfBounds off (blen bs) (blen d)).

Section Platform.
Variable P : platform.

(** The data bytes of a block of [n] data bytes obtained by the [id]-th
    request from a block whose data were [old]: the common prefix is kept,
    the rest is whatever the allocator left there. *)
Definition resized (id : nat) (old : list Z) (n : nat) : list Z :=
  take n old ++ map (fresh_byte P id) (seq (length old) (n - length old)).

(** [SHRN_REALLOC(block, size)] on a vector block; [size] counts the header.
    [None] is the [NULL] of a failed request. *)
Definition SHRN_REALLOC (old : list Z) (size : Z) : M (option (list Z)) :=
  fun w =>
    let w' := {| allocs := S (allocs w); errors := errors w |} in
    if alloc_ok P (allocs w) size
    then Ok (Some (resized (allocs w) old (Z.to_nat (size - HEADER)))) w'
    else Ok None w'.

(** [SHRN_MALLOC(size)]. *)
Definition SHRN_MALLOC (size : Z) : M (option (list Z)) :=
  SHRN_REALLOC [] size.

End Platform.

(** ** Common.h *)

Module Common.

(** [((uint8_t * )p)[i]], [p[i]] for a [char * p]. *)
Definition load_byte (d : list Z) (i : Z) : M Z :=
  bs <- load d i 1 ;; ret (default 0 (head bs)).

(** The value of a [char] that holds the byte [c]; whether [char] is
    signed is the choice of the platform. *)
Definition char_value (signed_char : bool) (c : Z) : Z :=
  if signed_char && (128 <=? c) then c - 256 else c.

(** [while (str[size]) size++;] of [SUTL_InternalStrlen]; [rest] is the
    bytes of the block from [str + size] on, so that [str[size]] is its
    first byte and a read with none left is outside the block.  A block has
    fewer than [2^64] bytes: [size++] does not wrap. *)
Fixpoint strlen_loop (rest : list Z) (size : Z) : M Z :=
  match rest with
  | [] => raise (OutOfBounds size 1 size)
  | c :: rest' => if c =? 0 then ret size else strlen_loop rest' (size + 1)
  end.

(** The library's own [strlen], compiled under [SHRN_NO_USE_STRING_H]. *)
Definition SUTL_InternalStrlen (str : list Z) : M Z := strlen_loop str 0.

(** [SHRN_STRLEN(str)]: the C library's [strlen] has the behaviour of
    [SUTL_InternalStrlen]. *)
Definition SHRN_STRLEN := SUTL_InternalStrlen.

(** [for (size_t i = 0; i < len; i++) if (str0[i] != str1[i]) return str0[i] - str1[i];
    return 0;] *)
Fixpoint strcmp_loop (signed_char : bool) (str0 str1 : list Z) (n : nat) (i : Z) : M Z :=
  match n with
  | O => ret 0
  | S n' =>
      c0 <- load_byte str0 i ;;
      c1 <- load_byte str1 i ;;
      if char_value signed_char c0 =? char_value signed_char c1
      then strcmp_loop signed_char str0 str1 n' (i + 1)
      else ret (char_value signed_char c0 - char_value signed_char c1)
  end.

(** The library's own [strcmp], compiled under [SHRN_NO_USE_STRING_H]. *)
Definition SUTL_InternalStrcmp (signed_char : bool) (str0 str1 : list Z) : M Z :=
  len <- SHRN_STRLEN str0 ;;
  len1 <- SHRN_STRLEN str1 ;;
  let len := if len1 <? len then len1 else len in
  strcmp_loop signed_char str0 str1 (Z.to_nat len) 0.

End Common.

(** ** Vector.h *)

Module Vector.

Record SUTLVector := {
  Size : Z;
  Capacity : Z;
  Elemsize : Z;
  Data : list Z
}.

Abbreviation handle := (option SUTLVector).

Definition deref (v : handle) : M SUTLVector :=
  match v with
  | Some b => ret b
  | None => raise NullHandle
  end.

Definition SUTLVectorSize (v : handle) : M Z := b <- deref v ;; ret (Size b).
Definition SUTLVectorCapacity (v : handle) : M Z := b <- deref v ;; ret (Capacity b).
Definition SUTLVectorElemsize (v : handle) : M Z := b <- deref v ;; ret (Elemsize b).

(** [SUTLVectorSize(v) = s]. *)
Definition set_Size (v : handle) (s : Z) : M handle :=
  b <- deref v ;;
  ret (Some {| Size := s; Capacity := Capacity b; Elemsize := Elemsize b; Data := Data b |}).

Definition set_Data (b : SUTLVector) (d : list Z) : SUTLVector :=
  {| Size := Size b; Capacity := Capacity b; Elemsize := Elemsize b; Data := d |}.

(** [SUTLVectorOffset(v, i)], as a byte offset from [v]. *)
Definition SUTLVectorOffset (v : handle) (i : Z) : M Z :=
  es <- SUTLVectorElemsize v ;; ret (wrap (es * i)).

(** [SHRN_MEMMOVE(v + dst, v + src, len)] inside one vector. *)
Definition SHRN_MEMMOVE (v : handle) (dst src len : Z) : M handle :=
  b <- deref v ;;
  bs <- load (Data b) src len ;;
  d <- store (Data b) dst bs ;;
  ret (Some (set_Data b d)).

(** [SHRN_MEMCPY(v + dst, ptr, len)]; [ptr] is the bytes readable at the
    source pointer. *)
Definition SHRN_MEMCPY (v : handle) (dst : Z) (ptr : list Z) (len : Z) : M handle :=
  b <- deref v ;;
  bs <- load ptr 0 len ;;
  d <- store (Data b) dst bs ;;
  ret (Some (set_Data b d)).

Section Platform.
Variable P : platform.

Definition SUTL_InternalVectorNew (elemsize : Z) : M handle :=
  mem <- SHRN_MALLOC P (sizeof_size_t * 3) ;;
  match mem with
  | None => SUTLErrorHandler "Memory allocation failed." ;;; ret None
  | Some d => ret (Some {| Size := 0; Capacity := 0; Elemsize := elemsize; Data := d |})
  end.

Definition SUTL_InternalVectorReserve (v : handle) (size : Z) : M handle :=
  b <- deref v ;;
  if size <? Size b then
    SUTLErrorHandler "Can't reserve memory less than the amount of memory already in use." ;;;
    ret v
  else
    let requiredSize := wrap (sizeof_size_t * 3 + wrap (size * Elemsize b)) in
    r <- SHRN_REALLOC P (Data b) requiredSize ;;
    match r with
    | None => SUTLErrorHandler "Memory reallocation failed." ;;; ret None
    | Some d =>
        (* the Capacity word must lie inside the block it is written to *)
        if requiredSize <? HEADER then raise (TruncatedHeader requiredSize)
        else ret (Some {| Size := Size b; Capacity := size;
                          Elemsize := Elemsize b; Data := d |})
    end.

Definition SUTL_InternalVectorResize (v : handle) (size : Z) : M handle :=
  s <- SUTLVectorSize v ;;
  v1 <- (if s <? size then
           c <- SUTLVectorCapacity v ;;
           if c <? size then SUTL_InternalVectorReserve v (wrap (size + 2))
           else ret v
         else ret v) ;;
  set_Size v1 size.

(** The result is the returned pointer ([None] for [NULL], otherwise the
    byte offset of the first inserted element) and the updated handle. *)
Definition SUTL_InternalVectorInsertN (v : handle) (at_ : Z) (ptr : list Z) (count : Z)
  : M (option Z * handle) :=
  s <- SUTLVectorSize v ;;
  if s <? at_ then
    SUTLErrorHandler "Insert index must be less than or equal to size." ;;;
    ret (None, v)
  else
    let originalSize := s in
    v1 <- SUTL_InternalVectorResize v (wrap (originalSize + count)) ;;
    v2 <- (if at_ =? originalSize then ret v1
           else
             dst <- SUTLVectorOffset v1 (wrap (at_ + count)) ;;
             src <- SUTLVectorOffset v1 at_ ;;
             es <- SUTLVectorElemsize v1 ;;
             SHRN_MEMMOVE v1 dst src (wrap (wrap (originalSize - at_) * es))) ;;
    dst <- SUTLVectorOffset v2 at_ ;;
    es <- SUTLVectorElemsize v2 ;;
    v3 <- SHRN_MEMCPY v2 dst ptr (wrap (es * count)) ;;
    ret (Some dst, v3).

(** The part of [SUTL_InternalVectorEraseN] after [count] is settled. *)
Definition erase_shift (v : handle) (at_ count : Z) : M handle :=
  s <- SUTLVectorSize v ;;
  v1 <- (if wrap (at_ + count) =? s then ret v
         else
           dst <- SUTLVectorOffset v at_ ;;
           src <- SUTLVectorOffset v (wrap (at_ + count)) ;;
           es <- SUTLVectorElemsize v ;;
           SHRN_MEMMOVE v dst src (wrap (wrap (wrap (s - count) - at_) * es))) ;;
  s1 <- SUTLVectorSize v1 ;;
  set_Size v1 (wrap (s1 - count)).

Definition SUTL_InternalVectorEraseN (v : handle) (at_ count : Z) : M handle :=
  s <- SUTLVectorSize v ;;
  if s <? wrap (at_ + count) then
    if s <? at_ then
      SUTLErrorHandler "Elements requested to be erased don't exist." ;;;
      ret v
    else erase_shift v at_ (wrap (s - at_))
  else erase_shift v at_ count.

(** The macros of the public interface. *)
Definition SUTLVectorNew (sizeof_t : Z) : M handle := SUTL_InternalVectorNew sizeof_t.
Definition SUTLVectorReserve := SUTL_InternalVectorReserve.
Definition SUTLVectorResize := SUTL_InternalVectorResize.
Definition SUTLVectorInsert (v : handle) (at_ : Z) (elem : list Z) :=
  SUTL_InternalVectorInsertN v at_ elem 1.
Definition SUTLVectorInsertN := SUTL_InternalVectorInsertN.
Definition SUTLVectorErase (v : handle) (at_ : Z) := SUTL_InternalVectorEraseN v at_ 1.
Definition SUTLVectorEraseN := SUTL_InternalVectorEraseN.
Definition SUTLVectorPush (v : handle) (elem : list Z) :=
  s <- SUTLVectorSize v ;; SUTLVectorInsert v s elem.
Definition SUTLVectorPushN (v : handle) (ptr : list Z) (count : Z) :=
  s <- SUTLVectorSize v ;; SUTLVectorInsertN v s ptr count.
Definition SUTLVectorPop (v : handle) :=
  s <- SUTLVectorSize v ;; SUTLVectorErase v (wrap (s - 1)).
Definition SUTLVectorPopN (v : handle) (count : Z) :=
  s <- SUTLVectorSize v ;; SUTLVectorEraseN v (wrap (s - count)) count.

End Platform.

(** The element at index [i]: [Elemsize] bytes at [SUTLVectorOffset(v, i)]. *)
Definition element (b : SUTLVector) (i : Z) : list Z :=
  take (Z.to_nat (Elemsize b)) (drop (Z.to_nat (Elemsize b * i)) (Data b)).

(** The bytes of the elements in use. *)
Definition contents (b : SUTLVector) : list Z :=
  take (Z.to_nat (Size b * Elemsize b)) (Data b).

End Vector.

(** ** String.h *)

Module SUTLStr.

Abbreviation SUTLString := (option Vector.SUTLVector).

Definition SUTLStringSize := Vector.SUTLVectorSize.
Definition SUTLStringCapacity := Vector.SUTLVectorCapacity.

Section Platform.
Variable P : platform.

(** [SUTLVectorNew(char)]. *)
Definition SUTLStringNew : M SUTLString := Vector.SUTLVectorNew P 1.
Definition SUTLStringResize := Vector.SUTLVectorResize P.
Definition SUTLStringAppendN := Vector.SUTLVectorPushN P.

(** [SUTLVectorPushN(str, ptr, SHRN_STRLEN(ptr))]. *)
Definition SUTLStringAppendP (str : SUTLString) (ptr : list Z) : M (option Z * SUTLString) :=
  n <- Common.SHRN_STRLEN ptr ;; Vector.SUTLVectorPushN P str ptr n.

(** [NULL] is [None]. *)
Definition SUTL_InternalStringSlice (str : SUTLString) (at_ size : Z) : M SUTLString :=
  strSize <- SUTLStringSize str ;;
  if strSize <=? at_ then
    SUTLErrorHandler "Invalid index specified for slicing string." ;;;
    ret None
  else
    let size1 := if size =? 0 then wrap (strSize - at_) else size in
    slice <- SUTLStringNew ;;
    slice <- SUTLStringResize slice size1 ;;
    let size2 := if strSize <? wrap (at_ + size1) then wrap (strSize - at_) else size1 in
    sb <- Vector.deref str ;;
    Vector.SHRN_MEMCPY slice 0 (drop (Z.to_nat at_) (Vector.Data sb)) size2.

Definition SUTLStringSlice := SUTL_InternalStringSlice.

End Platform.

End SUTLStr.

(** ** HashUtils.h *)

Module HashUtils.

(** The integer a little-endian machine reads from a run of bytes. *)
Fixpoint le_word (bs : list Z) : Z :=
  match bs with
  | [] => 0
  | b :: bs' => b + 256 * le_word bs'
  end.

(** [SUTL_HASHFN_DEF_PRIMITIVE(suffix, t)]: [hash = *(const t * )v], the
    value converted to [size_t]. *)
Definition hash_primitive (sizeof_t : Z) (signed : bool) (v : list Z) : Z :=
  let x := le_word (take (Z.to_nat sizeof_t) v) in
  wrap (if signed && (2 ^ (8 * sizeof_t - 1) <=? x) then x - 2 ^ (8 * sizeof_t) else x).

(** [SUTL_CMPFN_DEF_PRIMITIVE(suffix, t)] for the integer types. *)
Definition cmp_primitive (sizeof_t : Z) (p0 p1 : list Z) : bool :=
  le_word (take (Z.to_nat sizeof_t) p0) =? le_word (take (Z.to_nat sizeof_t) p1).

Definition SUTLHash_uchar := hash_primitive 1 false.
Definition SUTLHash_u8 := hash_primitive 1 false.
Definition SUTLHash_u16 := hash_primitive 2 false.
Definition SUTLHash_u32 := hash_primitive 4 false.
Definition SUTLHash_u64 := hash_primitive 8 false.
Definition SUTLHash_int := hash_primitive 4 true.
Definition SUTLHash_size := hash_primitive sizeof_size_t false.
Definition SUTLCmp_uchar := cmp_primitive 1.
Definition SUTLCmp_u8 := cmp_primitive 1.
Definition SUTLCmp_u16 := cmp_primitive 2.
Definition SUTLCmp_u32 := cmp_primitive 4.
Definition SUTLCmp_u64 := cmp_primitive 8.
Definition SUTLCmp_int := cmp_primitive 4.
Definition SUTLCmp_size := cmp_primitive sizeof_size_t.

(** The other integer types; [short] is 2 bytes, [int] 4, a pointer as
    wide as [size_t]. *)
Definition SUTLHash_ushort := hash_primitive 2 false.
Definition SUTLHash_uint := hash_primitive 4 false.
Definition SUTLHash_char := hash_primitive 1 true.
Definition SUTLHash_short := hash_primitive 2 true.
Definition SUTLHash_i8 := hash_primitive 1 true.
Definition SUTLHash_i16 := hash_primitive 2 true.
Definition SUTLHash_i32 := hash_primitive 4 true.
Definition SUTLHash_i64 := hash_primitive 8 true.
Definition SUTLHash_ptr := hash_primitive sizeof_size_t false.
Definition SUTLCmp_ushort := cmp_primitive 2.
Definition SUTLCmp_uint := cmp_primitive 4.
Definition SUTLCmp_char := cmp_primitive 1.
Definition SUTLCmp_short := cmp_primitive 2.
Definition SUTLCmp_i8 := cmp_primitive 1.
Definition SUTLCmp_i16 := cmp_primitive 2.
Definition SUTLCmp_i32 := cmp_primitive 4.
Definition SUTLCmp_i64 := cmp_primitive 8.
Definition SUTLCmp_ptr := cmp_primitive sizeof_size_t.

(** [SUTL_CMPFN_DEF(string, res = SHRN_STRCMP(p0, p1) == 0;)] where
    [SHRN_STRCMP] is the library's own [strcmp]. *)
Definition SUTLCmp_string (signed_char : bool) (p0 p1 : list Z) : M bool :=
  r <- Common.SUTL_InternalStrcmp signed_char p0 p1 ;; ret (r =? 0).

(** [for (i = 0; i < bufSize; i++) hash ^= buf[i];] *)
Fixpoint xor_words (d : list Z) (n : nat) (i : Z) (hash : Z) : M Z :=
  match n with
  | O => ret hash
  | S n' =>
      w <- load d (wrap (sizeof_size_t * i)) sizeof_size_t ;;
      xor_words d n' (i + 1) (Z.lxor hash (le_word w))
  end.

(** [for (i = 0; i < remSize; i++) ((char * )hash)[i] ^= ((SUTLString)v)[bufSize * sizeof(size_t) + i];]
    The left operand is the byte at the address [hash + i]: the value of
    the accumulator cast to a pointer, not the address of the accumulator. *)
Fixpoint xor_tail (d : list Z) (base hash : Z) (n : nat) (i : Z) : M unit :=
  match n with
  | O => ret tt
  | S n' =>
      c <- load d (wrap (base + i)) 1 ;;
      (raise (WildPointer (wrap (hash + i))) : M unit) ;;;
      xor_tail d base hash n' (i + 1)
  end.

Definition SUTLHash_string (v : SUTLStr.SUTLString) : M Z :=
  n <- SUTLStr.SUTLStringSize v ;;
  b <- Vector.deref v ;;
  let bufSize := n / sizeof_size_t in
  let remSize := n mod sizeof_size_t in
  hash <- xor_words (Vector.Data b) (Z.to_nat bufSize) 0 SIZE_MAX ;;
  (if remSize =? 0 then ret tt
   else xor_tail (Vector.Data b) (wrap (bufSize * sizeof_size_t)) hash (Z.to_nat remSize) 0) ;;;
  ret hash.

End HashUtils.

(** ** Hashmap.h *)

Module Hashmap.

Definition SUTL_HASHMAP_BUCKET_COUNT : Z := 32.

Record SUTLHashmap := {
  Size : Z;
  KeySize : Z;
  ValueSize : Z;
  ParamK : Vector.handle;
  ParamV : Vector.handle;
  Keys : list Vector.handle;
  Values : list Vector.handle;
  (** The injected functions are those of a key type of [KeySize] bytes:
      each reads one key at the pointer it is given. *)
  Hash : list Z -> Z;
  KeyComp : list Z -> list Z -> bool
}.

Definition set_Size (hm : SUTLHashmap) (s : Z) : SUTLHashmap :=
  {| Size := s; KeySize := KeySize hm; ValueSize := ValueSize hm;
     ParamK := ParamK hm; ParamV := ParamV hm; Keys := Keys hm; Values := Values hm;
     Hash := Hash hm; KeyComp := KeyComp hm |}.

Definition set_ParamK (hm : SUTLHashmap) (p : Vector.handle) : SUTLHashmap :=
  {| Size := Size hm; KeySize := KeySize hm; ValueSize := ValueSize hm;
     ParamK := p; ParamV := ParamV hm; Keys := Keys hm; Values := Values hm;
     Hash := Hash hm; KeyComp := KeyComp hm |}.

Definition set_ParamV (hm : SUTLHashmap) (p : Vector.handle) : SUTLHashmap :=
  {| Size := Size hm; KeySize := KeySize hm; ValueSize := ValueSize hm;
     ParamK := ParamK hm; ParamV := p; Keys := Keys hm; Values := Values hm;
     Hash := Hash hm; KeyComp := KeyComp hm |}.

Definition set_Keys (hm : SUTLHashmap) (index : Z) (v : Vector.handle) : SUTLHashmap :=
  {| Size := Size hm; KeySize := KeySize hm; ValueSize := ValueSize hm;
     ParamK := ParamK hm; ParamV := ParamV hm;
     Keys := <[Z.to_nat index := v]> (Keys hm); Values := Values hm;
     Hash := Hash hm; KeyComp := KeyComp hm |}.

Definition set_Values (hm : SUTLHashmap) (index : Z) (v : Vector.handle) : SUTLHashmap :=
  {| Size := Size hm; KeySize := KeySize hm; ValueSize := ValueSize hm;
     ParamK := ParamK hm; ParamV := ParamV hm;
     Keys := Keys hm; Values := <[Z.to_nat index := v]> (Values hm);
     Hash := Hash hm; KeyComp := KeyComp hm |}.

(** [array[index]] of one of the two bucket arrays. *)
Definition bucket (a : list Vector.handle) (index : Z) : Vector.handle :=
  default None (a !! Z.to_nat index).

(** The key staged in [ParamK]. *)
Definition staged_key (hm : SUTLHashmap) : M (list Z) :=
  pk <- Vector.deref (ParamK hm) ;;
  load (Vector.Data pk) 0 (KeySize hm).

(** [hm->Hash(hm->ParamK) % SUTL_HASHMAP_BUCKET_COUNT]. *)
Definition bucket_index (hm : SUTLHashmap) (k : list Z) : Z :=
  wrap (Hash hm k) mod SUTL_HASHMAP_BUCKET_COUNT.

(** [hm->KeyComp(hm->ParamK, hm->Keys[index] + i * hm->KeySize)]. *)
Definition key_matches (hm : SUTLHashmap) (index : Z) (k : list Z) (i : Z) : M bool :=
  kb <- Vector.deref (bucket (Keys hm) index) ;;
  stored <- load (Vector.Data kb) (wrap (i * KeySize hm)) (KeySize hm) ;;
  ret (KeyComp hm k stored).

(** The pointer [v + off], as a byte offset from [v]; it is [NULL] only
    where [v] is [NULL] and [off] is 0. *)
Definition pointer_at (v : Vector.handle) (off : Z) : option Z :=
  match v with
  | Some _ => Some off
  | None => if off =? 0 then None else Some off
  end.

(** The loop of [SUTL_InternalHashmapInsert]: it runs to the bound and
    keeps the last match; the pointer is [Values[index] + i * KeySize]. *)
Fixpoint insert_scan (hm : SUTLHashmap) (index : Z) (k : list Z)
         (n : nat) (i : Z) (value : option Z) : M (option Z) :=
  match n with
  | O => ret value
  | S n' =>
      c <- key_matches hm index k i ;;
      insert_scan hm index k n' (i + 1)
                  (if c then pointer_at (bucket (Values hm) index) (wrap (i * KeySize hm))
                   else value)
  end.

(** The loops of [SUTL_InternalHashmapErase] and [SUTL_InternalHashmapGet]:
    the first index, below the bound, at which the keys compare equal. *)
Fixpoint find_scan (hm : SUTLHashmap) (index : Z) (k : list Z)
         (n : nat) (i : Z) : M (option Z) :=
  match n with
  | O => ret None
  | S n' =>
      c <- key_matches hm index k i ;;
      if c then ret (Some i) else find_scan hm index k n' (i + 1)
  end.

Section Platform.
Variable P : platform.

(** [for (i = 0; i < SUTL_HASHMAP_BUCKET_COUNT; i++)] of [SUTL_InternalHashmapNew]. *)
Fixpoint new_buckets (n : nat) : M (list Vector.handle * list Vector.handle) :=
  match n with
  | O => ret ([], [])
  | S n' =>
      kv <- Vector.SUTLVectorNew P 1 ;;
      vv <- Vector.SUTLVectorNew P 1 ;;
      rest <- new_buckets n' ;;
      ret (kv :: fst rest, vv :: snd rest)
  end.

Definition SUTL_InternalHashmapNew (keysize valuesize : Z)
           (hash : list Z -> Z) (keycomp : list Z -> list Z -> bool) : M SUTLHashmap :=
  pk <- Vector.SUTLVectorNew P 1 ;;
  pv <- Vector.SUTLVectorNew P 1 ;;
  pk <- Vector.SUTLVectorResize P pk keysize ;;
  pv <- Vector.SUTLVectorResize P pv valuesize ;;
  bs <- new_buckets (Z.to_nat SUTL_HASHMAP_BUCKET_COUNT) ;;
  ret {| Size := 0; KeySize := keysize; ValueSize := valuesize;
         ParamK := pk; ParamV := pv; Keys := fst bs; Values := snd bs;
         Hash := hash; KeyComp := keycomp |}.

(** The result is the returned pointer, as a byte offset into the value
    array of the key's bucket ([None] for [NULL]), and the updated table. *)
Definition SUTL_InternalHashmapInsert (hm : SUTLHashmap) : M (option Z * SUTLHashmap) :=
  k <- staged_key hm ;;
  let index := bucket_index hm k in
  let hm := set_Size hm (wrap (Size hm + 1)) in
  ksize <- Vector.SUTLVectorSize (bucket (Keys hm) index) ;;
  if KeySize hm =? 0 then raise DivideByZero
  else
    value <- insert_scan hm index k (Z.to_nat (ksize / KeySize hm)) 0 None ;;
    match value with
    | Some p => ret (Some p, hm)
    | None =>
        pk <- Vector.deref (ParamK hm) ;;
        r <- Vector.SUTLVectorPushN P (bucket (Keys hm) index) (Vector.Data pk) (KeySize hm) ;;
        let hm := set_Keys hm index (snd r) in
        pv <- Vector.deref (ParamV hm) ;;
        r <- Vector.SUTLVectorPushN P (bucket (Values hm) index) (Vector.Data pv) (ValueSize hm) ;;
        ret (fst r, set_Values hm index (snd r))
    end.

End Platform.

Definition SUTL_InternalHashmapErase (hm : SUTLHashmap) : M SUTLHashmap :=
  k <- staged_key hm ;;
  let index := bucket_index hm k in
  ksize <- Vector.SUTLVectorSize (bucket (Keys hm) index) ;;
  found <- find_scan hm index k (Z.to_nat ksize) 0 ;;
  match found with
  | Some i =>
      kv <- Vector.SUTLVectorEraseN (bucket (Keys hm) index)
                                    (wrap (i * KeySize hm)) (KeySize hm) ;;
      let hm := set_Keys hm index kv in
      vv <- Vector.SUTLVectorEraseN (bucket (Values hm) index)
                                    (wrap (i * ValueSize hm)) (ValueSize hm) ;;
      let hm := set_Values hm index vv in
      ret (set_Size hm (wrap (Size hm - 1)))
  | None => ret hm
  end.

Definition SUTL_InternalHashmapGet (hm : SUTLHashmap) : M (option Z) :=
  k <- staged_key hm ;;
  let index := bucket_index hm k in
  ksize <- Vector.SUTLVectorSize (bucket (Keys hm) index) ;;
  if KeySize hm =? 0 then raise DivideByZero
  else
    found <- find_scan hm index k (Z.to_nat (ksize / KeySize hm)) 0 ;;
    match found with
    | Some i => ret (pointer_at (bucket (Values hm) index) (wrap (i * ValueSize hm)))
    | None => ret None
    end.

(** [*(tk * )hm.ParamK = k]: the bytes of the key are written over the
    scratch vector. *)
Definition stage_key (hm : SUTLHashmap) (k : list Z) : M SUTLHashmap :=
  pk <- Vector.deref (ParamK hm) ;;
  d <- store (Vector.Data pk) 0 k ;;
  ret (set_ParamK hm (Some (Vector.set_Data pk d))).

Definition stage_value (hm : SUTLHashmap) (v : list Z) : M SUTLHashmap :=
  pv <- Vector.deref (ParamV hm) ;;
  d <- store (Vector.Data pv) 0 v ;;
  ret (set_ParamV hm (Some (Vector.set_Data pv d))).

(** The macros of the public interface. *)
Definition SUTLHashmapNew := SUTL_InternalHashmapNew.
Definition SUTLHashmapGet (hm : SUTLHashmap) (k : list Z) : M (option Z * SUTLHashmap) :=
  hm <- stage_key hm k ;;
  p <- SUTL_InternalHashmapGet hm ;;
  ret (p, hm).
Definition SUTLHashmapInsert (P : platform) (hm : SUTLHashmap) (k v : list Z)
  : M (option Z * SUTLHashmap) :=
  hm <- stage_key hm k ;;
  hm <- stage_value hm v ;;
  SUTL_InternalHashmapInsert P hm.
Definition SUTLHashmapErase (hm : SUTLHashmap) (k : list Z) : M SUTLHashmap :=
  hm <- stage_key hm k ;;
  SUTL_InternalHashmapErase hm.

(** The value a returned pointer points to: [ValueSize] bytes at the
    offset, in the value array of the bucket of [k]. *)
Definition value_at (hm : SUTLHashmap) (k : list Z) (p : Z) : M (list Z) :=
  vb <- Vector.deref (bucket (Values hm) (bucket_index hm k)) ;;
  load (Vector.Data vb) p (ValueSize hm).

(** Number of entries of a bucket array, as [SUTLHashmapEach] counts them. *)
Definition entries (v : Vector.handle) (elemsize : Z) : Z :=
  match v with
  | Some b => Vector.Size b / elemsize
  | None => 0
  end.

End Hashmap.

(** ** Hashset.h *)

Module Hashset.

Definition SUTL_HASHSET_BUCKET_COUNT : Z := 32.

Record SUTLHashset := {
  Size : Z;
  KeySize : Z;
  ParamK : Vector.handle;
  Keys : list Vector.handle;
  Hash : list Z -> Z;
  KeyComp : list Z -> list Z -> bool
}.

Definition set_Size (hs : SUTLHashset) (s : Z) : SUTLHashset :=
  {| Size := s; KeySize := KeySize hs; ParamK := ParamK hs; Keys := Keys hs;
     Hash := Hash hs; KeyComp := KeyComp hs |}.

Definition set_ParamK (hs : SUTLHashset) (p : Vector.handle) : SUTLHashset :=
  {| Size := Size hs; KeySize := KeySize hs; ParamK := p; Keys := Keys hs;
     Hash := Hash hs; KeyComp := KeyComp hs |}.

Definition set_Keys (hs : SUTLHashset) (index : Z) (v : Vector.handle) : SUTLHashset :=
  {| Size := Size hs; KeySize := KeySize hs; ParamK := ParamK hs;
     Keys := <[Z.to_nat index := v]> (Keys hs);
     Hash := Hash hs; KeyComp := KeyComp hs |}.

Definition bucket (a : list Vector.handle) (index : Z) : Vector.handle :=
  default None (a !! Z.to_nat index).

Definition staged_key (hs : SUTLHashset) : M (list Z) :=
  pk <- Vector.deref (ParamK hs) ;;
  load (Vector.Data pk) 0 (KeySize hs).

(** [hs->Hash(hs->ParamK) % SUTL_HASHSET_BUCKET_COUNT]. *)
Definition bucket_index (hs : SUTLHashset) (k : list Z) : Z :=
  wrap (Hash hs k) mod SUTL_HASHSET_BUCKET_COUNT.

(** [hs->KeyComp(hs->ParamK, hs->Keys[index] + i * hs->KeySize)]. *)
Definition key_matches (hs : SUTLHashset) (index : Z) (k : list Z) (i : Z) : M bool :=
  kb <- Vector.deref (bucket (Keys hs) index) ;;
  stored <- load (Vector.Data kb) (wrap (i * KeySize hs)) (KeySize hs) ;;
  ret (KeyComp hs k stored).

(** The loop of [SUTL_InternalHashsetInsert]: no [break], the last match
    is kept; the pointer is [Keys[index] + i * KeySize]. *)
Fixpoint insert_scan (hs : SUTLHashset) (index : Z) (k : list Z)
         (n : nat) (i : Z) (entry : option Z) : M (option Z) :=
  match n with
  | O => ret entry
  | S n' =>
      c <- key_matches hs index k i ;;
      insert_scan hs index k n' (i + 1)
                  (if c then Some (wrap (i * KeySize hs)) else entry)
  end.

(** The loops of [SUTL_InternalHashsetErase] and [SUTL_InternalHashsetGet]. *)
Fixpoint find_scan (hs : SUTLHashset) (index : Z) (k : list Z)
         (n : nat) (i : Z) : M (option Z) :=
  match n with
  | O => ret None
  | S n' =>
      c <- key_matches hs index k i ;;
      if c then ret (Some i) else find_scan hs index k n' (i + 1)
  end.

Section Platform.
Variable P : platform.

Fixpoint new_buckets (n : nat) : M (list Vector.handle) :=
  match n with
  | O => ret []
  | S n' =>
      kv <- Vector.SUTLVectorNew P 1 ;;
      rest <- new_buckets n' ;;
      ret (kv :: rest)
  end.

Definition SUTL_InternalHashsetNew (keysize : Z)
           (hash : list Z -> Z) (keycomp : list Z -> list Z -> bool) : M SUTLHashset :=
  pk <- Vector.SUTLVectorNew P 1 ;;
  pk <- Vector.SUTLVectorResize P pk keysize ;;
  bs <- new_buckets (Z.to_nat SUTL_HASHSET_BUCKET_COUNT) ;;
  ret {| Size := 0; KeySize := keysize; ParamK := pk; Keys := bs;
         Hash := hash; KeyComp := keycomp |}.

Definition SUTL_InternalHashsetInsert (hs : SUTLHashset) : M (option Z * SUTLHashset) :=
  k <- staged_key hs ;;
  let index := bucket_index hs k in
  let hs := set_Size hs (wrap (Size hs + 1)) in
  ksize <- Vector.SUTLVectorSize (bucket (Keys hs) index) ;;
  if KeySize hs =? 0 then raise DivideByZero
  else
    entry <- insert_scan hs index k (Z.to_nat (ksize / KeySize hs)) 0 None ;;
    match entry with
    | Some p => ret (Some p, hs)
    | None =>
        pk <- Vector.deref (ParamK hs) ;;
        r <- Vector.SUTLVectorPushN P (bucket (Keys hs) index) (Vector.Data pk) (KeySize hs) ;;
        ret (fst r, set_Keys hs index (snd r))
    end.

End Platform.

Definition SUTL_InternalHashsetErase (hs : SUTLHashset) : M SUTLHashset :=
  k <- staged_key hs ;;
  let index := bucket_index hs k in
  ksize <- Vector.SUTLVectorSize (bucket (Keys hs) index) ;;
  found <- find_scan hs index k (Z.to_nat ksize) 0 ;;
  match found with
  | Some i =>
      kv <- Vector.SUTLVectorEraseN (bucket (Keys hs) index)
                                    (wrap (i * KeySize hs)) (KeySize hs) ;;
      let hs := set_Keys hs index kv in
      ret (set_Size hs (wrap (Size hs - 1)))
  | None => ret hs
  end.

Definition SUTL_InternalHashsetGet (hs : SUTLHashset) : M (option Z) :=
  k <- staged_key hs ;;
  let index := bucket_index hs k in
  ksize <- Vector.SUTLVectorSize (bucket (Keys hs) index) ;;
  if KeySize hs =? 0 then raise DivideByZero
  else
    found <- find_scan hs index k (Z.to_nat (ksize / KeySize hs)) 0 ;;
    match found with
    | Some i => ret (Some (wrap (i * KeySize hs)))
    | None => ret None
    end.

Definition stage_key (hs : SUTLHashset) (k : list Z) : M SUTLHashset :=
  pk <- Vector.deref (ParamK hs) ;;
  d <- store (Vector.Data pk) 0 k ;;
  ret (set_ParamK hs (Some (Vector.set_Data pk d))).

Definition SUTLHashsetNew := SUTL_InternalHashsetNew.
Definition SUTLHashsetGet (hs : SUTLHashset) (k : list Z) : M (option Z * SUTLHashset) :=
  hs <- stage_key hs k ;;
  p <- SUTL_InternalHashsetGet hs ;;
  ret (p, hs).
Definition SUTLHashsetInsert (P : platform) (hs : SUTLHashset) (k : list Z)
  : M (option Z * SUTLHashset) :=
  hs <- stage_key hs k ;;
  SUTL_InternalHashsetInsert P hs.
Definition SUTLHashsetErase (hs : SUTLHashset) (k : list Z) : M SUTLHashset :=
  hs <- stage_key hs k ;;
  SUTL_InternalHashsetErase hs.

Definition entries (v : Vector.handle) (elemsize : Z) : Z :=
  match v with
  | Some b => Vector.Size b / elemsize
  | None => 0
  end.

End Hashset.

(** ** Test.c *)

Module Test.

(** [RestoreVectorDefault]: [SUTLVectorResize( *v, 0); SUTLVectorReserve( *v, 0);] *)
Definition RestoreVectorDefault (P : platform) (v : Vector.handle) : M Vector.handle :=
  v <- Vector.SUTLVectorResize P v 0 ;;
  Vector.SUTLVectorReserve P v 0.

End Test.

(** ** Concrete platforms and inputs *)

(** A platform whose requests all succeed and whose fresh memory holds the byte [c]. *)
Definition plain (c : Z) : platform :=
  {| alloc_ok := fun _ _ => true; fresh_byte := fun _ _ => c |}.

(** The four bytes of a 32-bit integer, little-endian. *)
Definition le4 (x : Z) : list Z :=
  [x mod 256; (x / 256) mod 256; (x / 65536) mod 256; (x / 16777216) mod 256].

(** * Vocabulary of the properties *)

(** The bytes [len] long at [off]. *)
Definition peek (d : list Z) (off len : nat) : list Z := take len (drop off d).

(** [d] with [bs] written at [off]. *)
Definition poke (d : list Z) (off : nat) (bs : list Z) : list Z :=
  take off d ++ bs ++ drop (off + length bs) d.

Definition bump (w : world) : world :=
  {| allocs := S (allocs w); errors := errors w |}.

(** A vector block as [SUTL_InternalVectorNew] and the operations leave it:
    the used part within the capacity, the capacity the bytes allocated. *)
Record vector_wf (b : Vector.SUTLVector) : Prop := {
  wf_size : 0 ≤ Vector.Size b ≤ Vector.Capacity b;
  wf_elemsize : 0 < Vector.Elemsize b;
  wf_data : blen (Vector.Data b) = Vector.Capacity b * Vector.Elemsize b;
  wf_fits : HEADER + Vector.Capacity b * Vector.Elemsize b ≤ SIZE_MAX
}.

(** The block [SUTL_InternalVectorResize] leaves, and the world after it. *)
Definition resize_result (P : platform) (b : Vector.SUTLVector) (size : Z) (w : world)
  : Vector.SUTLVector * world :=
  if (Vector.Size b <? size) && (Vector.Capacity b <? size)
  then ({| Vector.Size := size; Vector.Capacity := size + 2;
           Vector.Elemsize := Vector.Elemsize b;
           Vector.Data := resized P (allocs w) (Vector.Data b)
                                  (Z.to_nat ((size + 2) * Vector.Elemsize b)) |},
        bump w)
  else ({| Vector.Size := size; Vector.Capacity := Vector.Capacity b;
           Vector.Elemsize := Vector.Elemsize b; Vector.Data := Vector.Data b |}, w).

(** The bytes of the block after [SUTL_InternalVectorInsertN] succeeded. *)
Definition insert_data (d1 : list Z) (es size at_ : Z) (ptr : list Z) (count : Z) : list Z :=
  let d2 := if at_ =? size then d1
            else poke d1 (Z.to_nat (es * (at_ + count)))
                      (peek d1 (Z.to_nat (es * at_)) (Z.to_nat ((size - at_) * es))) in
  poke d2 (Z.to_nat (es * at_)) (peek ptr 0 (Z.to_nat (es * count))).

(** The bytes of the block after [SUTL_InternalVectorEraseN] shifted the tail. *)
Definition erase_data (d : list Z) (es size at_ count : Z) : list Z :=
  if at_ + count =? size then d
  else poke d (Z.to_nat (es * at_))
            (peek d (Z.to_nat (es * (at_ + count))) (Z.to_nat ((size - count - at_) * es))).

(** The length a slice request asks for: [size ? size : strSize - at]. *)
Definition slice_length (n at_ size : Z) : Z := if size =? 0 then n - at_ else size.

(** What [SUTL_InternalStringSlice] returns for an index inside the string. *)
Definition slice_result (P : platform) (sb : Vector.SUTLVector) (at_ size : Z) (w : world)
  : Vector.SUTLVector :=
  let size1 := slice_length (Vector.Size sb) at_ size in
  {| Vector.Size := size1; Vector.Capacity := size1 + 2; Vector.Elemsize := 1;
     Vector.Data :=
       poke (resized P (S (allocs w)) [] (Z.to_nat (size1 + 2))) 0
            (peek (drop (Z.to_nat at_) (Vector.Data sb)) 0
                  (Z.to_nat (Z.min size1 (Vector.Size sb - at_)))) |}.

(** The string ["0123456789"] of the test suite, as
    [SUTLStringAppendP(str, "0123456789")] leaves a new string on a
    platform whose fresh bytes are [c]. *)
Definition digits (c : Z) : Vector.SUTLVector :=
  {| Vector.Size := 10; Vector.Capacity := 12; Vector.Elemsize := 1;
     Vector.Data := [48; 49; 50; 51; 52; 53; 54; 55; 56; 57; c; c] |}.

(** The slicing rule of the specification at one request: the call reports
    the error and returns [NULL] exactly when [at ≥ n]; otherwise it returns
    a new string of the requested length whose first [min(size', n - at)]
    bytes are those of [str] from [at] on. *)
Definition slice_rule (P : platform) (sb : Vector.SUTLVector) (at_ size : Z) (w : world) : Prop :=
  let n := Vector.Size sb in
  let r := SUTLStr.SUTLStringSlice P (Some sb) at_ size w in
  ((∃ w', r = Ok None w' ∧
          errors w' = errors w ++ ["Invalid index specified for slicing string."%string])
   ↔ n ≤ at_) ∧
  (at_ < n →
   ∃ sl w', r = Ok (Some sl) w' ∧ errors w' = errors w ∧
     Vector.Size sl = slice_length n at_ size ∧
     let m := Z.to_nat (Z.min (slice_length n at_ size) (n - at_)) in
     take m (Vector.Data sl) = take m (drop (Z.to_nat at_) (Vector.Data sb))).

(** The zero-padding the specification's data model speaks of, at one
    request: every byte of the returned slice from [n - at] on is zero. *)
Definition slice_zero_padded (P : platform) (sb : Vector.SUTLVector) (at_ size : Z)
           (w : world) : Prop :=
  ∀ sl w', SUTLStr.SUTLStringSlice P (Some sb) at_ size w = Ok (Some sl) w' →
  ∀ j, Vector.Size sb - at_ ≤ j < size → Vector.Data sl !! Z.to_nat j = Some 0.

(** The bytes of the array [tmparr] of the test suite: the [int]s 13, 33
    and 47. *)
Definition tmparr : list Z := le4 13 ++ le4 33 ++ le4 47.

(** The vector of [int] that the test suite builds with
    [SUTLVectorPushN(v, tmparr, 3)], fresh bytes being [c]. *)
Definition tmpvec (c : Z) : Vector.SUTLVector :=
  {| Vector.Size := 3; Vector.Capacity := 5; Vector.Elemsize := 4;
     Vector.Data := tmparr ++ [c; c; c; c; c; c; c; c] |}.

(** A new, empty vector of elements of [es] bytes. *)
Definition empty_vector (es : Z) : Vector.SUTLVector :=
  {| Vector.Size := 0; Vector.Capacity := 0; Vector.Elemsize := es; Vector.Data := [] |}.

(** The hash as the specification words it: the XOR-fold of the
    word-sized chunks into an accumulator that starts at [SIZE_MAX],
    then every tail byte folded into the byte of the accumulator of the
    same index. *)
Fixpoint fold_words (s : list Z) (n : nat) (hash : Z) : Z :=
  match n with
  | O => hash
  | S n' => fold_words (drop 8 s) n' (Z.lxor hash (HashUtils.le_word (take 8 s)))
  end.

Definition spec_hash_string (s : list Z) : Z :=
  let nw := (length s / 8)%nat in
  Z.lxor (fold_words s nw SIZE_MAX) (HashUtils.le_word (drop (8 * nw) s)).

(** A table from [uint8_t] to [uint32_t] holding the keys 1 and 33, which
    share bucket 1, then [Insert(hm, 33, 300)] and [Get(hm, 33)]:
    the pointer [Insert] returns, the pointer [Get] returns, and the
    number of entries of the bucket's two arrays afterwards. *)
Definition insert_existing_run : M (option Z * option Z * Z * Z) :=
  hm <- Hashmap.SUTLHashmapNew (plain 0) 1 4 HashUtils.SUTLHash_u8 HashUtils.SUTLCmp_u8 ;;
  r <- Hashmap.SUTLHashmapInsert (plain 0) hm [1] (le4 100) ;;
  r <- Hashmap.SUTLHashmapInsert (plain 0) (snd r) [33] (le4 200) ;;
  r <- Hashmap.SUTLHashmapInsert (plain 0) (snd r) [33] (le4 300) ;;
  g <- Hashmap.SUTLHashmapGet (snd r) [33] ;;
  ret (fst r, fst g,
       Hashmap.entries (Hashmap.bucket (Hashmap.Keys (snd g)) 1) 1,
       Hashmap.entries (Hashmap.bucket (Hashmap.Values (snd g)) 1) 4).

(** A table of [int] keys holding 25; [Erase(57)], a key of the same
    bucket that is not stored. *)
Definition erase_absent_map : M Hashmap.SUTLHashmap :=
  hm <- Hashmap.SUTLHashmapNew (plain 170) 4 4 HashUtils.SUTLHash_int HashUtils.SUTLCmp_int ;;
  r <- Hashmap.SUTLHashmapInsert (plain 170) hm (le4 25) (le4 625) ;;
  Hashmap.SUTLHashmapErase (snd r) (le4 57).

Definition erase_absent_set : M Hashset.SUTLHashset :=
  hs <- Hashset.SUTLHashsetNew (plain 170) 4 HashUtils.SUTLHash_int HashUtils.SUTLCmp_int ;;
  r <- Hashset.SUTLHashsetInsert (plain 170) hs (le4 25) ;;
  Hashset.SUTLHashsetErase (snd r) (le4 57).

(** Keys 25 and 57 inserted, 57 erased, 57 erased again: the reported
    size, the number of key entries of bucket 25, and what [Get(25)] returns. *)
Definition erase_twice_map : M (Z * Z * option Z) :=
  hm <- Hashmap.SUTLHashmapNew (plain 170) 4 4 HashUtils.SUTLHash_int HashUtils.SUTLCmp_int ;;
  r <- Hashmap.SUTLHashmapInsert (plain 170) hm (le4 25) (le4 625) ;;
  r <- Hashmap.SUTLHashmapInsert (plain 170) (snd r) (le4 57) (le4 3249) ;;
  hm <- Hashmap.SUTLHashmapErase (snd r) (le4 57) ;;
  hm <- Hashmap.SUTLHashmapErase hm (le4 57) ;;
  g <- Hashmap.SUTLHashmapGet hm (le4 25) ;;
  ret (Hashmap.Size hm, Hashmap.entries (Hashmap.bucket (Hashmap.Keys hm) 25) 4, fst g).

Definition erase_twice_set : M (Z * Z * option Z) :=
  hs <- Hashset.SUTLHashsetNew (plain 170) 4 HashUtils.SUTLHash_int HashUtils.SUTLCmp_int ;;
  r <- Hashset.SUTLHashsetInsert (plain 170) hs (le4 25) ;;
  r <- Hashset.SUTLHashsetInsert (plain 170) (snd r) (le4 57) ;;
  hs <- Hashset.SUTLHashsetErase (snd r) (le4 57) ;;
  hs <- Hashset.SUTLHashsetErase hs (le4 57) ;;
  g <- Hashset.SUTLHashsetGet hs (le4 25) ;;
  ret (Hashset.Size hs, Hashset.entries (Hashset.bucket (Hashset.Keys hs) 25) 4, fst g).

(** Every allocation request succeeds. *)
Definition always_ok (P : platform) : Prop := ∀ n sz, alloc_ok P n sz = true.

Definition more_allocs (n : nat) (w : world) : world :=
  {| allocs := (n + allocs w)%nat; errors := errors w |}.

(** The scratch vector [SUTL_InternalHashmapNew] makes for one key or value
    of [size] bytes; its block comes from the request numbered [id]. *)
Definition scratch (P : platform) (id : nat) (size : Z) : Vector.SUTLVector :=
  {| Vector.Size := size; Vector.Capacity := size + 2; Vector.Elemsize := 1;
     Vector.Data := resized P id [] (Z.to_nat (size + 2)) |}.

(** The table [SUTL_InternalHashmapNew] returns when [n] requests were made before. *)
Definition new_hashmap (P : platform) (n : nat) (K V : Z) hash cmp : Hashmap.SUTLHashmap :=
  {| Hashmap.Size := 0; Hashmap.KeySize := K; Hashmap.ValueSize := V;
     Hashmap.ParamK := Some (scratch P (2 + n) K);
     Hashmap.ParamV := Some (scratch P (3 + n) V);
     Hashmap.Keys := replicate 32 (Some (empty_vector 1));
     Hashmap.Values := replicate 32 (Some (empty_vector 1));
     Hashmap.Hash := hash; Hashmap.KeyComp := cmp |}.

Definition new_hashset (P : platform) (n : nat) (K : Z) hash cmp : Hashset.SUTLHashset :=
  {| Hashset.Size := 0; Hashset.KeySize := K;
     Hashset.ParamK := Some (scratch P (1 + n) K);
     Hashset.Keys := replicate 32 (Some (empty_vector 1));
     Hashset.Hash := hash; Hashset.KeyComp := cmp |}.

(** The bucket of the key [k] under the hash function [hash]. *)
Definition ix (hash : list Z → Z) (k : list Z) : nat :=
  Z.to_nat (wrap (hash k) mod Hashmap.SUTL_HASHMAP_BUCKET_COUNT).

(** A table of keys of [K] bytes and values of [V] bytes, with hash [hash]
    and comparison [cmp], whose bucket of [k] holds the key bytes [kd] and
    the value bytes [vd], and whose size field is [size]. *)
Record in_state (K V : Z) (hash : list Z → Z) (cmp : list Z → list Z → bool) (k : list Z)
       (hm : Hashmap.SUTLHashmap) (kd vd : list Z) (size : Z) : Prop := {
  st_Size : Hashmap.Size hm = size;
  st_KeySize : Hashmap.KeySize hm = K;
  st_ValueSize : Hashmap.ValueSize hm = V;
  st_Hash : Hashmap.Hash hm = hash;
  st_KeyComp : Hashmap.KeyComp hm = cmp;
  st_scratch : ∃ pk pv, Hashmap.ParamK hm = Some pk ∧ Hashmap.ParamV hm = Some pv ∧
                        K ≤ blen (Vector.Data pk) ∧ V ≤ blen (Vector.Data pv);
  st_Keys : length (Hashmap.Keys hm) = 32%nat;
  st_Values : length (Hashmap.Values hm) = 32%nat;
  st_bucket : ∃ kb vb,
      Hashmap.Keys hm !! ix hash k = Some (Some kb) ∧
      Hashmap.Values hm !! ix hash k = Some (Some vb) ∧
      vector_wf kb ∧ vector_wf vb ∧ Vector.Elemsize kb = 1 ∧ Vector.Elemsize vb = 1 ∧
      Vector.Size kb = blen kd ∧ Vector.Size vb = blen vd ∧
      Vector.contents kb = kd ∧ Vector.contents vb = vd
}.

(** The round trip of the specification on a new table: insert, get,
    erase, get, erase.  The result is the value [Get] points to after the
    insertion, the size then, what [Get] returns after the erasure, the
    size then, and the size after the second erasure. *)
Definition round_trip_run (P : platform) (K V : Z) hash cmp (k v : list Z)
  : M (option (list Z) * Z * option Z * Z * Z) :=
  hm <- Hashmap.SUTLHashmapNew P K V hash cmp ;;
  r <- Hashmap.SUTLHashmapInsert P hm k v ;;
  g <- Hashmap.SUTLHashmapGet (snd r) k ;;
  val <- match fst g with
         | Some p => x <- Hashmap.value_at (snd g) k p ;; ret (Some x)
         | None => ret None
         end ;;
  hm <- Hashmap.SUTLHashmapErase (snd g) k ;;
  g2 <- Hashmap.SUTLHashmapGet hm k ;;
  hm2 <- Hashmap.SUTLHashmapErase (snd g2) k ;;
  ret (val, Hashmap.Size (snd g), fst g2, Hashmap.Size (snd g2), Hashmap.Size hm2).

Definition set_ix (hash : list Z → Z) (k : list Z) : nat :=
  Z.to_nat (wrap (hash k) mod Hashset.SUTL_HASHSET_BUCKET_COUNT).

(** A set of keys of [K] bytes, with hash [hash] and comparison [cmp], whose
    bucket of [k] holds the key bytes [kd] and whose size field is [size]. *)
Record set_in_state (K : Z) (hash : list Z → Z) (cmp : list Z → list Z → bool) (k : list Z)
       (hs : Hashset.SUTLHashset) (kd : list Z) (size : Z) : Prop := {
  sst_Size : Hashset.Size hs = size;
  sst_KeySize : Hashset.KeySize hs = K;
  sst_Hash : Hashset.Hash hs = hash;
  sst_KeyComp : Hashset.KeyComp hs = cmp;
  sst_scratch : ∃ pk, Hashset.ParamK hs = Some pk ∧ K ≤ blen (Vector.Data pk);
  sst_Keys : length (Hashset.Keys hs) = 32%nat;
  sst_bucket : ∃ kb,
      Hashset.Keys hs !! set_ix hash k = Some (Some kb) ∧
      vector_wf kb ∧ Vector.Elemsize kb = 1 ∧
      Vector.Size kb = blen kd ∧ Vector.contents kb = kd
}.

(** The same key inserted twice into a new table: the size field, and the
    number of entries of the key's bucket (keys, and values for the map). *)
Definition insert_twice_map (P : platform) (K V : Z) hash cmp (k v v' : list Z)
  : M (Z * Z * Z) :=
  hm <- Hashmap.SUTLHashmapNew P K V hash cmp ;;
  r <- Hashmap.SUTLHashmapInsert P hm k v ;;
  r <- Hashmap.SUTLHashmapInsert P (snd r) k v' ;;
  let hm := snd r in
  let index := Hashmap.bucket_index hm k in
  ret (Hashmap.Size hm,
       Hashmap.entries (Hashmap.bucket (Hashmap.Keys hm) index) K,
       Hashmap.entries (Hashmap.bucket (Hashmap.Values hm) index) V).

Definition insert_twice_set (P : platform) (K : Z) hash cmp (k : list Z) : M (Z * Z) :=
  hs <- Hashset.SUTLHashsetNew P K hash cmp ;;
  r <- Hashset.SUTLHashsetInsert P hs k ;;
  r <- Hashset.SUTLHashsetInsert P (snd r) k ;;
  let hs := snd r in
  ret (Hashset.Size hs,
       Hashset.entries (Hashset.bucket (Hashset.Keys hs) (Hashset.bucket_index hs k)) K).

(** A well-formed vector of bytes of at most [L] bytes. *)
Definition cvec (L : Z) (b : Vector.SUTLVector) : Prop :=
  Vector.Elemsize b = 1 ∧ 0 ≤ Vector.Size b ≤ Vector.Capacity b ∧
  blen (Vector.Data b) = Vector.Capacity b ∧ Vector.Capacity b ≤ L.

(** The two arrays of a bucket agree: [n] keys and [n] values.  A handle
    is [NULL] where the allocation in [SUTL_InternalHashmapNew] failed;
    such a bucket never receives an entry. *)
Definition bucket_inv (K V L : Z) (kh vh : Vector.handle) : Prop :=
  match kh, vh with
  | Some kb, Some vb =>
      cvec L kb ∧ cvec L vb ∧
      ∃ n, 0 ≤ n ∧ Vector.Size kb = n * K ∧ Vector.Size vb = n * V
  | Some kb, None => cvec L kb ∧ Vector.Size kb = 0
  | None, Some vb => Vector.Size vb = 0
  | None, None => True
  end.

Definition table_inv (K V L : Z) (hm : Hashmap.SUTLHashmap) : Prop :=
  Hashmap.KeySize hm = K ∧ Hashmap.ValueSize hm = V ∧
  length (Hashmap.Keys hm) = 32%nat ∧ length (Hashmap.Values hm) = 32%nat ∧
  ∀ i, (i < 32)%nat →
       bucket_inv K V L (default None (Hashmap.Keys hm !! i))
                 (default None (Hashmap.Values hm !! i)).

(** A handle as [SUTLVectorNew(char)] returns it. *)
Definition new_handle (h : Vector.handle) : Prop := h = None ∨ h = Some (empty_vector 1).

(** A call of the public interface of the map. *)
Inductive map_op :=
| OpInsert (k v : list Z)
| OpErase (k : list Z)
| OpGet (k : list Z).

Definition run_op (P : platform) (hm : Hashmap.SUTLHashmap) (o : map_op)
  : M Hashmap.SUTLHashmap :=
  match o with
  | OpInsert k v => r <- Hashmap.SUTLHashmapInsert P hm k v ;; ret (snd r)
  | OpErase k => Hashmap.SUTLHashmapErase hm k
  | OpGet k => r <- Hashmap.SUTLHashmapGet hm k ;; ret (snd r)
  end.

Fixpoint run_ops (P : platform) (hm : Hashmap.SUTLHashmap) (ops : list map_op)
  : M Hashmap.SUTLHashmap :=
  match ops with
  | [] => ret hm
  | o :: ops' => hm' <- run_op P hm o ;; run_ops P hm' ops'
  end.

(** In every bucket the key array and the value array hold the same
    number of entries. *)
Definition bucket_consistent (hm : Hashmap.SUTLHashmap) : Prop :=
  ∀ b, 0 ≤ b < Hashmap.SUTL_HASHMAP_BUCKET_COUNT →
       Hashmap.entries (Hashmap.bucket (Hashmap.Keys hm) b) (Hashmap.KeySize hm)
       = Hashmap.entries (Hashmap.bucket (Hashmap.Values hm) b) (Hashmap.ValueSize hm).

(** A platform that refuses requests of more than [limit] data bytes. *)
Definition limited (limit c : Z) : platform :=
  {| alloc_ok := fun _ sz => sz <=? HEADER + limit; fresh_byte := fun _ _ => c |}.

(** Insert 25 and 57 (one bucket), erase 57 twice (the second scan matches
    the stale copy of 57), look 25 up, erase it. *)
Definition sample_ops : list map_op :=
  [OpInsert (le4 25) (le4 625); OpInsert (le4 57) (le4 3249);
   OpErase (le4 57); OpErase (le4 57); OpGet (le4 25); OpErase (le4 25)].

(** Hash and comparison of a key read as one unsigned integer. *)
Definition sample_hash (k : list Z) : Z := HashUtils.le_word k.
Definition sample_cmp (a b : list Z) : bool := HashUtils.le_word a =? HashUtils.le_word b.

(** A run of bytes with no zero byte in it. *)
Definition no_nul (s : list Z) : Prop := Forall (λ c, c ≠ 0) s.

(** The block at [str] holds the C string [s]: the bytes of [s], the
    terminating zero, then whatever else the block holds. *)
Definition c_string (s str : list Z) : Prop :=
  no_nul s ∧ ∃ rest, str = s ++ 0 :: rest.

(** The value of a byte. *)
Definition byte (c : Z) : Prop := 0 ≤ c < 256.

(** The [i]-th entry of a bucket array [d] whose entries are [size] bytes wide. *)
Definition nth_entry (size : Z) (d : list Z) (i : nat) : list Z :=
  take (Z.to_nat size) (drop (i * Z.to_nat size) d).

(** The bucket array [d] without its [i]-th entry. *)
Definition without_entry (size : Z) (d : list Z) (i : nat) : list Z :=
  take (i * Z.to_nat size) d ++ drop (S i * Z.to_nat size) d.

(** The first of the [n] entries of the key array [kd] from index [i] on
    that the comparison function reports equal to [k]. *)
Fixpoint first_match (cmp : list Z → list Z → bool) (k : list Z) (K : Z) (kd : list Z)
         (n i : nat) : option nat :=
  match n with
  | O => None
  | S n' => if cmp k (nth_entry K kd i) then Some i
            else first_match cmp k K kd n' (S i)
  end.

(** The table the calls [Insert(25, 625)] and [Insert(57, 3249)] leave of
    a new table of 4-byte keys and values, hashed and compared as unsigned
    integers, where fresh memory holds 0xAA: both entries are in bucket 25. *)
Definition two_entry_table : Hashmap.SUTLHashmap :=
  {| Hashmap.Size := 2; Hashmap.KeySize := 4; Hashmap.ValueSize := 4;
     Hashmap.ParamK :=
       Some {| Vector.Size := 4; Vector.Capacity := 6; Vector.Elemsize := 1;
               Vector.Data := le4 57 ++ [170; 170] |};
     Hashmap.ParamV :=
       Some {| Vector.Size := 4; Vector.Capacity := 6; Vector.Elemsize := 1;
               Vector.Data := le4 3249 ++ [170; 170] |};
     Hashmap.Keys :=
       <[25%nat := Some {| Vector.Size := 8; Vector.Capacity := 10; Vector.Elemsize := 1;
                           Vector.Data := le4 25 ++ le4 57 ++ [170; 170] |}]>
         (replicate 32 (Some (empty_vector 1)));
     Hashmap.Values :=
       <[25%nat := Some {| Vector.Size := 8; Vector.Capacity := 10; Vector.Elemsize := 1;
                           Vector.Data := le4 625 ++ le4 3249 ++ [170; 170] |}]>
         (replicate 32 (Some (empty_vector 1)));
     Hashmap.Hash := sample_hash; Hashmap.KeyComp := sample_cmp |}.

(** The key a call of the public interface is made with. *)
Definition op_key (o : map_op) : list Z :=
  match o with
  | OpInsert k _ => k
  | OpErase k => k
  | OpGet k => k
  end.

(** [hm'] is [hm] outside the bucket [index]: the same key and value
    sizes, the same injected functions, and the same two arrays in every
    other bucket. *)
Definition other_buckets_kept (hm hm' : Hashmap.SUTLHashmap) (index : Z) : Prop :=
  Hashmap.KeySize hm' = Hashmap.KeySize hm ∧
  Hashmap.ValueSize hm' = Hashmap.ValueSize hm ∧
  Hashmap.Hash hm' = Hashmap.Hash hm ∧
  Hashmap.KeyComp hm' = Hashmap.KeyComp hm ∧
  ∀ b : nat, b ≠ Z.to_nat index →
    Hashmap.Keys hm' !! b = Hashmap.Keys hm !! b ∧
    Hashmap.Values hm' !! b = Hashmap.Values hm !! b.

(** The key a pointer returned by the set points to: [KeySize] bytes at
    the offset, in the key array of the bucket of [k]. *)
Definition set_key_at (hs : Hashset.SUTLHashset) (k : list Z) (p : Z) : M (list Z) :=
  kb <- Vector.deref (Hashset.bucket (Hashset.Keys hs) (Hashset.bucket_index hs k)) ;;
  load (Vector.Data kb) p (Hashset.KeySize hs).

(** The round trip of the test suite on a new set: insert, get, erase,
    get, erase.  The result is the key [Get] points to after the insertion,
    the size then, what [Get] returns after the erasure, the size then, and
    the size after the second erasure. *)
Definition set_round_trip_run (P : platform) (K : Z) hash cmp (k : list Z)
  : M (option (list Z) * Z * option Z * Z * Z) :=
  hs <- Hashset.SUTLHashsetNew P K hash cmp ;;
  r <- Hashset.SUTLHashsetInsert P hs k ;;
  g <- Hashset.SUTLHashsetGet (snd r) k ;;
  key <- match fst g with
         | Some p => x <- set_key_at (snd g) k p ;; ret (Some x)
         | None => ret None
         end ;;
  hs <- Hashset.SUTLHashsetErase (snd g) k ;;
  g2 <- Hashset.SUTLHashsetGet hs k ;;
  hs2 <- Hashset.SUTLHashsetErase (snd g2) k ;;
  ret (key, Hashset.Size (snd g), fst g2, Hashset.Size (snd g2), Hashset.Size hs2).

(** The last of the [n] entries of the key array [kd] from index [i] on
    that the comparison function reports equal to [k], [found] where there
    is none: what a scan without [break] is left with. *)
Fixpoint last_match (cmp : list Z → list Z → bool) (k : list Z) (K : Z) (kd : list Z)
         (n i : nat) (found : option nat) : option nat :=
  match n with
  | O => found
  | S n' => last_match cmp k K kd n' (S i)
                       (if cmp k (nth_entry K kd i) then Some i else found)
  end.

(** The set the calls [Insert(25)] and [Insert(57)] leave of a new set of
    4-byte keys, hashed and compared as unsigned integers, where fresh
    memory holds 0xAA: both keys are in bucket 25. *)
Definition two_entry_set : Hashset.SUTLHashset :=
  {| Hashset.Size := 2; Hashset.KeySize := 4;
     Hashset.ParamK :=
       Some {| Vector.Size := 4; Vector.Capacity := 6; Vector.Elemsize := 1;
               Vector.Data := le4 57 ++ [170; 170] |};
     Hashset.Keys :=
       <[25%nat := Some {| Vector.Size := 8; Vector.Capacity := 10; Vector.Elemsize := 1;
                           Vector.Data := le4 25 ++ le4 57 ++ [170; 170] |}]>
         (replicate 32 (Some (empty_vector 1)));
     Hashset.Hash := sample_hash; Hashset.KeyComp := sample_cmp |}.

(** * Properties *)

(** ** Words and raw memory *)

Lemma wrap_small x : 0 ≤ x ≤ SIZE_MAX → wrap x = x.
Proof. unfold wrap, SIZE_MAX. intros. apply Z.mod_small. lia. Qed.

Lemma wrap_range x : 0 ≤ wrap x ≤ SIZE_MAX.
Proof. unfold wrap, SIZE_MAX. pose proof (Z.mod_pos_bound x (18446744073709551615 + 1)). lia. Qed.

Lemma blen_nonneg d : 0 ≤ blen d.
Proof. unfold blen. lia. Qed.

Lemma load_ok d off len w :
  off + len ≤ blen d →
  load d off len w = Ok (take (Z.to_nat len) (drop (Z.to_nat off) d)) w.
Proof. intros H. unfold load. destruct (Z.leb_spec (off + len) (blen d)); [reflexivity | lia]. Qed.

Lemma load_oob {d off len} w :
  blen d < off + len → load d off len w = Fault (OutOfBounds off len (blen d)).
Proof. intros H. unfold load. destruct (Z.leb_spec (off + len) (blen d)); [lia | reflexivity]. Qed.

Lemma store_ok d off bs w :
  off + blen bs ≤ blen d →
  store d off bs w = Ok (take (Z.to_nat off) d ++ bs ++ drop (Z.to_nat (off + blen bs)) d) w.
Proof. intros H. unfold store. destruct (Z.leb_spec (off + blen bs) (blen d)); [reflexivity | lia]. Qed.

Lemma store_oob {d off bs} w :
  blen d < off + blen bs → store d off bs w = Fault (OutOfBounds off (blen bs) (blen d)).
Proof. intros H. unfold store. destruct (Z.leb_spec (off + blen bs) (blen d)); [lia | reflexivity]. Qed.

Lemma length_peek d off len :
  (off + len ≤ length d)%nat → length (peek d off len) = len.
Proof. intros. unfold peek. rewrite length_take, length_drop. lia. Qed.

Lemma length_poke d off bs :
  (off + length bs ≤ length d)%nat → length (poke d off bs) = length d.
Proof. intros. unfold poke. rewrite !length_app, length_take, length_drop. lia. Qed.

Lemma lookup_peek d off len (j : nat) :
  (j < len)%nat → peek d off len !! j = d !! (off + j)%nat.
Proof. intros. unfold peek. rewrite lookup_take_lt by lia. apply lookup_drop. Qed.

Lemma lookup_poke_before d off bs (j : nat) :
  (off ≤ length d)%nat → (j < off)%nat → poke d off bs !! j = d !! j.
Proof.
  intros. unfold poke. rewrite lookup_app_l by (rewrite length_take; lia).
  apply lookup_take_lt. lia.
Qed.

Lemma lookup_poke_inside d off bs (j : nat) :
  (off ≤ length d)%nat → (off ≤ j < off + length bs)%nat →
  poke d off bs !! j = bs !! (j - off)%nat.
Proof.
  intros. unfold poke. rewrite lookup_app_r by (rewrite length_take; lia).
  rewrite length_take. replace (off `min` length d)%nat with off by lia.
  apply lookup_app_l. lia.
Qed.

Lemma lookup_poke_after d off bs (j : nat) :
  (off ≤ length d)%nat → (off + length bs ≤ j)%nat → poke d off bs !! j = d !! j.
Proof.
  intros. unfold poke. rewrite lookup_app_r by (rewrite length_take; lia).
  rewrite length_take. replace (off `min` length d)%nat with off by lia.
  rewrite lookup_app_r by lia. rewrite lookup_drop. f_equal. lia.
Qed.

Section PlatformFacts.
Variable P : platform.

Lemma length_resized id old n : length (resized P id old n) = n.
Proof. unfold resized. rewrite length_app, length_take, length_map, length_seq. lia. Qed.

Lemma lookup_resized_old id old n (j : nat) :
  (j < n)%nat → (j < length old)%nat → resized P id old n !! j = old !! j.
Proof.
  intros. unfold resized. rewrite lookup_app_l by (rewrite length_take; lia).
  apply lookup_take_lt. lia.
Qed.

Lemma lookup_resized_fresh id old n (j : nat) :
  (j < n)%nat → (length old ≤ j)%nat → resized P id old n !! j = Some (fresh_byte P id j).
Proof.
  intros. unfold resized. rewrite lookup_app_r by (rewrite length_take; lia).
  rewrite length_take. rewrite list_lookup_fmap.
  replace (n `min` length old)%nat with (length old) by lia.
  rewrite lookup_seq_lt by lia. simpl. do 2 f_equal. lia.
Qed.

Lemma realloc_ok old size w :
  alloc_ok P (allocs w) size = true →
  SHRN_REALLOC P old size w =
  Ok (Some (resized P (allocs w) old (Z.to_nat (size - HEADER))))
     {| allocs := S (allocs w); errors := errors w |}.
Proof. intros H. unfold SHRN_REALLOC. rewrite H. reflexivity. Qed.

End PlatformFacts.

(** ** Vectors *)

Arguments wrap : simpl never.

Lemma load_peek d off len w :
  0 ≤ off → 0 ≤ len → off + len ≤ blen d →
  load d off len w = Ok (peek d (Z.to_nat off) (Z.to_nat len)) w.
Proof. intros. rewrite load_ok by lia. reflexivity. Qed.

Lemma store_poke d off bs w :
  0 ≤ off → off + blen bs ≤ blen d →
  store d off bs w = Ok (poke d (Z.to_nat off) bs) w.
Proof.
  intros. rewrite store_ok by lia. unfold poke, blen.
  replace (Z.to_nat (off + Z.of_nat (length bs))) with (Z.to_nat off + length bs)%nat by lia.
  reflexivity.
Qed.

Ltac words := unfold SIZE_MAX, HEADER, sizeof_size_t in *; lia.

Ltac vred :=
  unfold Vector.SUTLVectorOffset, Vector.SUTLVectorElemsize, Vector.SUTLVectorSize,
    Vector.SUTLVectorCapacity, Vector.set_Size, Vector.SHRN_MEMMOVE, Vector.SHRN_MEMCPY,
    Vector.deref, bind, raise, ret;
  simpl.

Tactic Notation "vred_in" hyp(H) :=
  unfold Vector.SUTLVectorOffset, Vector.SUTLVectorElemsize, Vector.SUTLVectorSize,
    Vector.SUTLVectorCapacity, Vector.set_Size, Vector.deref, bind, raise in H;
  simpl in H.

Section VectorFacts.
Variable P : platform.
Import Vector.
Local Abbreviation resize_result := (resize_result P).

Lemma Reserve_ok b size w :
  0 ≤ Size b ≤ size → 0 < Elemsize b →
  HEADER + size * Elemsize b ≤ SIZE_MAX →
  alloc_ok P (allocs w) (HEADER + size * Elemsize b) = true →
  SUTL_InternalVectorReserve P (Some b) size w =
  Ok (Some {| Size := Size b; Capacity := size; Elemsize := Elemsize b;
              Data := resized P (allocs w) (Data b) (Z.to_nat (size * Elemsize b)) |})
     (bump w).
Proof.
  intros Hs He Hfit Hok.
  assert (0 ≤ size * Elemsize b) by (unfold HEADER, sizeof_size_t, SIZE_MAX in *; nia).
  unfold SUTL_InternalVectorReserve, bind. simpl.
  destruct (Z.ltb_spec size (Size b)); [lia |].
  rewrite (wrap_small (size * Elemsize b)) by words.
  change (sizeof_size_t * 3) with HEADER.
  rewrite (wrap_small (HEADER + _)) by words.
  rewrite realloc_ok by assumption.
  destruct (Z.ltb_spec (HEADER + size * Elemsize b) HEADER); [lia |].
  unfold ret, bump. do 4 f_equal. lia.
Qed.

Lemma Resize_keep b size w :
  Size b < size → size ≤ Capacity b →
  SUTL_InternalVectorResize P (Some b) size w =
  Ok (Some {| Size := size; Capacity := Capacity b; Elemsize := Elemsize b; Data := Data b |}) w.
Proof.
  intros. unfold SUTL_InternalVectorResize, bind. simpl.
  destruct (Z.ltb_spec (Size b) size); [| lia]. simpl.
  destruct (Z.ltb_spec (Capacity b) size); [lia |]. reflexivity.
Qed.

Lemma Resize_shrink b size w :
  size ≤ Size b →
  SUTL_InternalVectorResize P (Some b) size w =
  Ok (Some {| Size := size; Capacity := Capacity b; Elemsize := Elemsize b; Data := Data b |}) w.
Proof.
  intros. unfold SUTL_InternalVectorResize, bind. simpl.
  destruct (Z.ltb_spec (Size b) size); [lia |]. reflexivity.
Qed.

Lemma Resize_grow b size w :
  0 ≤ Size b < size → Capacity b < size → 0 < Elemsize b →
  HEADER + (size + 2) * Elemsize b ≤ SIZE_MAX →
  alloc_ok P (allocs w) (HEADER + (size + 2) * Elemsize b) = true →
  SUTL_InternalVectorResize P (Some b) size w =
  Ok (Some {| Size := size; Capacity := size + 2; Elemsize := Elemsize b;
              Data := resized P (allocs w) (Data b) (Z.to_nat ((size + 2) * Elemsize b)) |})
     (bump w).
Proof.
  intros Hs Hc He Hfit Hok.
  assert (size + 2 ≤ SIZE_MAX) by (unfold HEADER, sizeof_size_t, SIZE_MAX in *; nia).
  unfold SUTL_InternalVectorResize, bind. simpl.
  destruct (Z.ltb_spec (Size b) size); [| lia]. simpl.
  destruct (Z.ltb_spec (Capacity b) size); [| lia].
  rewrite (wrap_small (size + 2)) by lia.
  rewrite Reserve_ok by (simpl; first [assumption | lia]).
  reflexivity.
Qed.

Lemma Resize_spec b size w :
  vector_wf b → 0 ≤ size →
  HEADER + (size + 2) * Elemsize b ≤ SIZE_MAX →
  (Capacity b < size → alloc_ok P (allocs w) (HEADER + (size + 2) * Elemsize b) = true) →
  SUTL_InternalVectorResize P (Some b) size w =
  Ok (Some (fst (resize_result b size w))) (snd (resize_result b size w)).
Proof.
  intros [Hs He Hd Hf] Hsz Hfit Hok. unfold resize_result.
  destruct (Z.ltb_spec (Size b) size); simpl.
  - destruct (Z.ltb_spec (Capacity b) size); simpl.
    + apply Resize_grow; first [assumption | lia | auto].
    + apply Resize_keep; lia.
  - apply Resize_shrink; lia.
Qed.

Lemma resize_result_wf b size w :
  vector_wf b → 0 ≤ size →
  HEADER + (size + 2) * Elemsize b ≤ SIZE_MAX →
  let b1 := fst (resize_result b size w) in
  Size b1 = size ∧ Elemsize b1 = Elemsize b ∧
  blen (Data b1) = Capacity b1 * Elemsize b ∧
  Capacity b ≤ Capacity b1 ∧ size ≤ Capacity b1 ∧
  HEADER + Capacity b1 * Elemsize b ≤ SIZE_MAX.
Proof.
  intros [Hs He Hd Hf] Hsz Hfit. unfold resize_result.
  destruct (Z.ltb_spec (Size b) size); simpl.
  - destruct (Z.ltb_spec (Capacity b) size); simpl.
    + unfold blen. rewrite length_resized.
      assert (0 ≤ (size + 2) * Elemsize b) by nia. repeat split; lia.
    + repeat split; first [assumption | lia].
  - repeat split; first [assumption | lia].
Qed.

Lemma resize_result_prefix b size w (j : nat) :
  vector_wf b → (j < length (Data b))%nat →
  Data (fst (resize_result b size w)) !! j = Data b !! j.
Proof.
  intros [Hs He Hd Hf] Hj. unfold resize_result.
  destruct ((Size b <? size) && (Capacity b <? size)) eqn:E; simpl; [| reflexivity].
  apply andb_prop in E as [_ E%Z.ltb_lt].
  apply lookup_resized_old; [| assumption].
  unfold blen in Hd. nia.
Qed.

Lemma InsertN_spec b at_ ptr count w :
  vector_wf b → 0 ≤ at_ ≤ Size b → 0 ≤ count →
  HEADER + (Size b + count + 2) * Elemsize b ≤ SIZE_MAX →
  Elemsize b * count ≤ blen ptr →
  (Capacity b < Size b + count →
   alloc_ok P (allocs w) (HEADER + (Size b + count + 2) * Elemsize b) = true) →
  let r := resize_result b (Size b + count) w in
  SUTL_InternalVectorInsertN P (Some b) at_ ptr count w =
  Ok (Some (Elemsize b * at_),
      Some (set_Data (fst r)
              (insert_data (Data (fst r)) (Elemsize b) (Size b) at_ ptr count)))
     (snd r).
Proof.
  intros Hwf Hat Hc Hfit Hptr Hok r.
  pose proof Hwf as [Hs He Hd Hf].
  assert (Hbig : Size b + count + 2 ≤ SIZE_MAX)
    by (unfold HEADER, sizeof_size_t, SIZE_MAX in *; nia).
  destruct (resize_result_wf b (Size b + count) w Hwf) as (R1 & R2 & R3 & R4 & R5 & R6);
    [lia | assumption |]. fold r in R1, R2, R3, R4, R5, R6.
  set (es := Elemsize b) in *. set (s := Size b) in *.
  assert (0 ≤ es * at_) by nia.
  assert (es * at_ ≤ es * s) by nia.
  assert (es * (s + count) ≤ Capacity (fst r) * es) by nia.
  assert (0 ≤ es * count) by nia.
  assert (es * (at_ + count) = es * at_ + es * count) by lia.
  assert ((s - at_) * es = es * s - es * at_) by lia.
  assert (es * (s + count) = es * s + es * count) by lia.
  unfold SUTL_InternalVectorInsertN, bind. simpl. fold s.
  destruct (Z.ltb_spec s at_); [lia |].
  rewrite (wrap_small (s + count)) by lia.
  rewrite Resize_spec by (first [assumption | lia]). fold r.
  unfold insert_data.
  destruct (Z.eqb_spec at_ s) as [-> | Hne].
  - vred. rewrite R2. rewrite !wrap_small by (fold es; words).
    rewrite load_peek by lia.
    rewrite store_poke by (unfold blen in *; rewrite ?length_peek by lia; lia).
    reflexivity.
  - vred. rewrite R2. rewrite (wrap_small (at_ + count)) by lia.
    rewrite (wrap_small (s - at_)) by lia.
    rewrite !wrap_small by (fold es; words).
    rewrite load_peek by lia.
    rewrite store_poke by (unfold blen in *; rewrite ?length_peek by lia; lia).
    vred. rewrite R2. rewrite !wrap_small by (fold es; words).
    rewrite load_peek by lia.
    rewrite store_poke.
    + reflexivity.
    + lia.
    + unfold blen in *. rewrite length_peek by lia.
      rewrite length_poke by (rewrite length_peek by lia; lia). lia.
Qed.

Lemma erase_shift_spec b at_ count w :
  vector_wf b → 0 ≤ at_ → 0 ≤ count → at_ + count ≤ Size b →
  erase_shift (Some b) at_ count w =
  Ok (Some {| Size := Size b - count; Capacity := Capacity b; Elemsize := Elemsize b;
              Data := erase_data (Data b) (Elemsize b) (Size b) at_ count |}) w.
Proof.
  intros [Hs He Hd Hf] Hat Hc Hin.
  assert (0 ≤ Elemsize b * at_) by nia.
  assert (Elemsize b * (at_ + count) = Elemsize b * at_ + Elemsize b * count) by lia.
  assert ((Size b - count - at_) * Elemsize b
          = Elemsize b * Size b - Elemsize b * count - Elemsize b * at_) by lia.
  assert (0 ≤ Elemsize b * count) by nia.
  assert (Elemsize b * (at_ + count) ≤ Elemsize b * Size b) by nia.
  assert (Elemsize b * Size b ≤ Capacity b * Elemsize b) by nia.
  assert (Size b ≤ SIZE_MAX) by (unfold HEADER, sizeof_size_t, SIZE_MAX in *; nia).
  unfold erase_shift, erase_data. vred.
  rewrite (wrap_small (at_ + count)) by lia.
  destruct (Z.eqb_spec (at_ + count) (Size b)) as [Heq | Hne].
  - rewrite (wrap_small (Size b - count)) by lia. reflexivity.
  - rewrite (wrap_small (Size b - count)) by lia.
    rewrite (wrap_small (Size b - count - at_)) by lia.
    rewrite !wrap_small by words.
    rewrite load_peek by lia.
    rewrite store_poke by (unfold blen in *; rewrite ?length_peek by lia; lia).
    simpl. rewrite (wrap_small (Size b - count)) by lia. reflexivity.
Qed.

Lemma EraseN_spec b at_ count w :
  vector_wf b → 0 ≤ at_ → 0 ≤ count → at_ + count ≤ Size b →
  SUTL_InternalVectorEraseN (Some b) at_ count w =
  Ok (Some {| Size := Size b - count; Capacity := Capacity b; Elemsize := Elemsize b;
              Data := erase_data (Data b) (Elemsize b) (Size b) at_ count |}) w.
Proof.
  intros Hwf Hat Hc Hin. pose proof Hwf as [Hs He Hd Hf].
  assert (Size b ≤ SIZE_MAX) by (unfold HEADER, sizeof_size_t, SIZE_MAX in *; nia).
  unfold SUTL_InternalVectorEraseN. vred.
  rewrite (wrap_small (at_ + count)) by lia.
  destruct (Z.ltb_spec (Size b) (at_ + count)); [lia |].
  apply erase_shift_spec; assumption.
Qed.

End VectorFacts.

(** Writing nothing changes nothing. *)
Lemma poke_nil d off : (off ≤ length d)%nat → poke d off [] = d.
Proof. intros. unfold poke. simpl. rewrite Nat.add_0_r. apply take_drop. Qed.

Lemma peek_zero d off : peek d off 0 = [].
Proof. reflexivity. Qed.

(** Opening a gap of [E] bytes at [A], filling it, and closing it again
    gives back the first [S] bytes. *)
Lemma shift_roundtrip (d x : list Z) (A E S : nat) :
  (A ≤ S)%nat → (S + E ≤ length d)%nat → length x = E →
  let d2 := poke d (A + E) (peek d A (S - A)) in
  let d3 := poke d2 A x in
  let d4 := poke d3 A (peek d3 (A + E) (S - A)) in
  take S d4 = take S d.
Proof.
  intros HA HS Hx d2 d3 d4.
  assert (L2 : length d2 = length d).
  { unfold d2. apply length_poke. rewrite length_peek by lia. lia. }
  assert (L3 : length d3 = length d).
  { unfold d3. rewrite length_poke by lia. assumption. }
  apply list_eq. intros j.
  destruct (decide (j < S)%nat) as [Hj | Hj].
  2: { rewrite !lookup_take_ge by lia. reflexivity. }
  rewrite !lookup_take_lt by lia.
  destruct (decide (j < A)%nat) as [Hb | Hb].
  - unfold d4. rewrite lookup_poke_before by lia.
    unfold d3. rewrite lookup_poke_before by lia.
    unfold d2. rewrite lookup_poke_before by lia. reflexivity.
  - unfold d4. rewrite lookup_poke_inside by (rewrite ?length_peek by lia; lia).
    rewrite lookup_peek by lia.
    unfold d3. rewrite lookup_poke_after by lia.
    unfold d2. rewrite lookup_poke_inside by (rewrite ?length_peek by lia; lia).
    rewrite lookup_peek by lia. f_equal. lia.
Qed.

Lemma length_insert_data d1 es size at_ ptr count :
  0 < es → 0 ≤ at_ ≤ size → 0 ≤ count →
  (size + count) * es ≤ blen d1 → es * count ≤ blen ptr →
  length (insert_data d1 es size at_ ptr count) = length d1.
Proof.
  intros He Hat Hc Hd Hp. unfold insert_data, blen in *.
  assert (0 ≤ es * at_) by nia.
  assert (es * at_ ≤ es * size) by nia.
  assert (0 ≤ es * count) by nia.
  assert (es * (at_ + count) = es * at_ + es * count) by lia.
  assert ((size - at_) * es = es * size - es * at_) by lia.
  assert ((size + count) * es = es * size + es * count) by lia.
  destruct (at_ =? size).
  - rewrite length_poke; rewrite ?length_peek by lia; lia.
  - rewrite length_poke; rewrite ?length_peek by lia;
      rewrite ?length_poke by (rewrite ?length_peek by lia; lia); lia.
Qed.

Lemma insert_erase_data d1 es size at_ ptr :
  0 < es → 0 ≤ at_ ≤ size →
  (size + 1) * es ≤ blen d1 → es ≤ blen ptr →
  take (Z.to_nat (size * es))
       (erase_data (insert_data d1 es size at_ ptr 1) es (size + 1) at_ 1)
  = take (Z.to_nat (size * es)) d1.
Proof.
  intros He Hat Hd Hp. unfold blen in *.
  assert (0 ≤ es * at_) by nia.
  assert (es * at_ ≤ es * size) by nia.
  assert (Hlen : length (insert_data d1 es size at_ ptr 1) = length d1)
    by (apply length_insert_data; unfold blen; lia).
  set (A := Z.to_nat (es * at_)). set (E := Z.to_nat es). set (S := Z.to_nat (es * size)).
  assert (EA : Z.to_nat (es * (at_ + 1)) = (A + E)%nat) by (unfold A, E; lia).
  assert (ES : Z.to_nat ((size - at_) * es) = (S - A)%nat) by (unfold A, S; lia).
  assert (ES' : Z.to_nat ((size + 1 - 1 - at_) * es) = (S - A)%nat) by (unfold A, S; lia).
  assert (EE : Z.to_nat (es * 1) = E) by (unfold E; lia).
  assert (ESS : Z.to_nat (size * es) = S) by (unfold S; lia).
  assert (HAS : (A ≤ S)%nat) by (unfold A, S; lia).
  assert (HSE : (S + E ≤ length d1)%nat) by (unfold S, E; lia).
  assert (Hins : insert_data d1 es size at_ ptr 1 =
                 poke (poke d1 (A + E) (peek d1 A (S - A))) A (peek ptr 0 E)).
  { unfold insert_data. rewrite EA, ES, EE. fold A.
    destruct (Z.eqb_spec at_ size) as [-> | Hne]; [| reflexivity].
    replace (S - A)%nat with 0%nat by (unfold A, S; lia).
    rewrite peek_zero, poke_nil by lia. reflexivity. }
  assert (Hera : erase_data (insert_data d1 es size at_ ptr 1) es (size + 1) at_ 1 =
                 poke (insert_data d1 es size at_ ptr 1) A
                      (peek (insert_data d1 es size at_ ptr 1) (A + E) (S - A))).
  { unfold erase_data. rewrite EA, ES'. fold A.
    destruct (Z.eqb_spec (at_ + 1) (size + 1)) as [Heq | Hne]; [| reflexivity].
    replace (S - A)%nat with 0%nat by (unfold A, S; assert (at_ = size) as -> by lia; lia).
    rewrite peek_zero, poke_nil by lia. reflexivity. }
  rewrite Hera, Hins, ESS.
  apply shift_roundtrip; [assumption | assumption |].
  apply length_peek. simpl. lia.
Qed.

(** A window inside a common prefix reads the same bytes. *)
Lemma take_drop_prefix (l1 l2 : list Z) (n off len : nat) :
  take n l1 = take n l2 → (off + len ≤ n)%nat →
  take len (drop off l1) = take len (drop off l2).
Proof.
  intros Heq Hin. apply list_eq. intros k.
  destruct (decide (k < len)%nat).
  - rewrite !lookup_take_lt, !lookup_drop by lia.
    rewrite <- (lookup_take_lt l1 n), <- (lookup_take_lt l2 n) by lia.
    rewrite Heq. reflexivity.
  - rewrite !lookup_take_ge by lia. reflexivity.
Qed.

(** C9. For every vector [a], every index [i ≤ size(a)] and every element
    [x], erasing at [i] after inserting [x] at [i] gives a vector of the
    size of [a] whose element at every index of [a] is the one [a] had. *)
Theorem insert_erase_inverse (P : platform) (a : Vector.SUTLVector) (i : Z)
        (x : list Z) (w : world) :
  vector_wf a →
  0 ≤ i ≤ Vector.Size a →
  Vector.Elemsize a ≤ blen x →
  HEADER + (Vector.Size a + 3) * Vector.Elemsize a ≤ SIZE_MAX →
  (Vector.Capacity a < Vector.Size a + 1 →
   alloc_ok P (allocs w) (HEADER + (Vector.Size a + 3) * Vector.Elemsize a) = true) →
  ∃ p a1 w1 a2,
    Vector.SUTLVectorInsert P (Some a) i x w = Ok (Some p, Some a1) w1 ∧
    Vector.SUTLVectorErase (Some a1) i w1 = Ok (Some a2) w1 ∧
    errors w1 = errors w ∧
    Vector.Size a2 = Vector.Size a ∧
    Vector.contents a2 = Vector.contents a ∧
    ∀ j, 0 ≤ j < Vector.Size a → Vector.element a2 j = Vector.element a j.
Proof.
  intros Hwf Hi Hx Hfit Hok. pose proof Hwf as [Hs He Hd Hf].
  replace (Vector.Size a + 3) with (Vector.Size a + 1 + 2) in Hfit, Hok by lia.
  set (r := resize_result P a (Vector.Size a + 1) w).
  destruct (resize_result_wf P a (Vector.Size a + 1) w Hwf) as (R1 & R2 & R3 & R4 & R5 & R6);
    [lia | lia |]. fold r in R1, R2, R3, R4, R5, R6.
  set (d3 := insert_data (Vector.Data r.1) (Vector.Elemsize a) (Vector.Size a) i x 1).
  set (a1 := Vector.set_Data r.1 d3).
  assert (Hd1 : (Vector.Size a + 1) * Vector.Elemsize a ≤ blen (Vector.Data r.1)) by nia.
  assert (L3 : length d3 = length (Vector.Data r.1))
    by (apply length_insert_data; lia).
  assert (Hwf1 : vector_wf a1).
  { split; simpl; unfold blen in *; rewrite ?R1, ?R2, ?L3; lia. }
  assert (Hcont : take (Z.to_nat (Vector.Size a * Vector.Elemsize a))
                    (erase_data d3 (Vector.Elemsize a) (Vector.Size a + 1) i 1)
                  = take (Z.to_nat (Vector.Size a * Vector.Elemsize a)) (Vector.Data a)).
  { unfold d3. rewrite insert_erase_data by lia.
    apply list_eq. intros j.
    destruct (decide (j < Z.to_nat (Vector.Size a * Vector.Elemsize a))%nat).
    - rewrite !lookup_take_lt by lia. apply resize_result_prefix; [assumption |].
      unfold blen in *. nia.
    - rewrite !lookup_take_ge by lia. reflexivity. }
  exists (Vector.Elemsize a * i), a1, r.2,
    {| Vector.Size := Vector.Size a1 - 1; Vector.Capacity := Vector.Capacity a1;
       Vector.Elemsize := Vector.Elemsize a1;
       Vector.Data := erase_data (Vector.Data a1) (Vector.Elemsize a1)
                                        (Vector.Size a1) i 1 |}.
  split; [| split; [| split; [| split; [| split]]]].
  - unfold Vector.SUTLVectorInsert. rewrite InsertN_spec by (first [assumption | lia]).
    rewrite Z.mul_comm. reflexivity.
  - unfold Vector.SUTLVectorErase. apply EraseN_spec; simpl; rewrite ?R1; first [assumption | lia].
  - unfold r, resize_result.
    destruct ((Vector.Size a <? Vector.Size a + 1) && (Vector.Capacity a <? Vector.Size a + 1));
      reflexivity.
  - simpl. rewrite R1. lia.
  - unfold Vector.contents. simpl. rewrite R1, R2.
    replace (Vector.Size a + 1 - 1) with (Vector.Size a) by lia. exact Hcont.
  - intros j Hj. unfold Vector.element. simpl. rewrite R1, R2.
    apply (take_drop_prefix _ _ (Z.to_nat (Vector.Size a * Vector.Elemsize a))).
    + exact Hcont.
    + nia.
Qed.

(** ** Strings *)

Section StringFacts.
Variable P : platform.
Local Abbreviation slice_result := (slice_result P).

Lemma VectorNew_ok es w :
  alloc_ok P (allocs w) HEADER = true →
  Vector.SUTL_InternalVectorNew P es w =
  Ok (Some {| Vector.Size := 0; Vector.Capacity := 0; Vector.Elemsize := es;
              Vector.Data := [] |}) (bump w).
Proof.
  intros Hok. unfold Vector.SUTL_InternalVectorNew, SHRN_MALLOC, bind.
  change (sizeof_size_t * 3) with HEADER. rewrite realloc_ok by assumption.
  reflexivity.
Qed.

Lemma Slice_ok sb at_ size w :
  vector_wf sb → Vector.Elemsize sb = 1 →
  0 ≤ at_ < Vector.Size sb → 0 ≤ size →
  at_ + slice_length (Vector.Size sb) at_ size ≤ SIZE_MAX →
  slice_length (Vector.Size sb) at_ size + 2 + HEADER ≤ SIZE_MAX →
  alloc_ok P (allocs w) HEADER = true →
  alloc_ok P (S (allocs w)) (HEADER + (slice_length (Vector.Size sb) at_ size + 2)) = true →
  SUTLStr.SUTL_InternalStringSlice P (Some sb) at_ size w =
  Ok (Some (slice_result sb at_ size w)) (bump (bump w)).
Proof.
  intros Hwf Hes Hat Hsz Hsum Hfit Hok1 Hok2. pose proof Hwf as [Hs He Hd Hf].
  unfold slice_result. set (size1 := slice_length (Vector.Size sb) at_ size) in *.
  assert (Hpos : 0 < size1) by (unfold size1, slice_length; destruct (Z.eqb_spec size 0); lia).
  unfold SUTLStr.SUTL_InternalStringSlice, SUTLStr.SUTLStringSize,
    SUTLStr.SUTLStringNew, SUTLStr.SUTLStringResize, Vector.SUTLVectorNew,
    Vector.SUTLVectorResize.
  vred. destruct (Z.leb_spec (Vector.Size sb) at_); [lia |].
  rewrite VectorNew_ok by assumption.
  assert (Hs1 : (if size =? 0 then wrap (Vector.Size sb - at_) else size) = size1).
  { unfold size1, slice_length. destruct (size =? 0); [| reflexivity].
    apply wrap_small. words. }
  rewrite Hs1.
  rewrite Resize_grow by (simpl; rewrite ?Z.mul_1_r; first [exact Hok2 | words]).
  simpl.
  rewrite (wrap_small (at_ + size1)) by words.
  rewrite (wrap_small (Vector.Size sb - at_)) by words.
  assert (Hmin : (if Vector.Size sb <? at_ + size1 then Vector.Size sb - at_ else size1)
                 = Z.min size1 (Vector.Size sb - at_)).
  { destruct (Z.ltb_spec (Vector.Size sb) (at_ + size1)); lia. }
  rewrite Hmin. rewrite Z.mul_1_r.
  assert (Hdrop : blen (drop (Z.to_nat at_) (Vector.Data sb)) = Vector.Capacity sb - at_).
  { unfold blen in *. rewrite length_drop. lia. }
  rewrite load_peek by lia.
  rewrite store_poke.
  - reflexivity.
  - lia.
  - unfold blen in *. rewrite length_resized, length_peek by lia. lia.
Qed.

Lemma Slice_rejects sb at_ size w :
  Vector.Size sb ≤ at_ →
  SUTLStr.SUTL_InternalStringSlice P (Some sb) at_ size w =
  Ok None {| allocs := allocs w;
             errors := errors w ++ ["Invalid index specified for slicing string."%string] |}.
Proof.
  intros H. unfold SUTLStr.SUTL_InternalStringSlice, SUTLStr.SUTLStringSize. vred.
  destruct (Z.leb_spec (Vector.Size sb) at_); [reflexivity | lia].
Qed.

End StringFacts.

Lemma digits_built c :
  (str <- SUTLStr.SUTLStringNew (plain c) ;;
   r <- SUTLStr.SUTLStringAppendN (plain c) str [48; 49; 50; 51; 52; 53; 54; 55; 56; 57; 0] 10 ;;
   ret (snd r)) initial_world
  = Ok (Some (digits c)) {| allocs := 2; errors := [] |}.
Proof. reflexivity. Qed.

Lemma digits_wf c : vector_wf (digits c).
Proof. split; simpl; unfold blen, HEADER, sizeof_size_t, SIZE_MAX; simpl; lia. Qed.

(** The rule fails where the length arithmetic wraps: for
    [Slice("0123456789", 1, SIZE_MAX)] the reservation of [size + 2] wraps
    to one byte, [at + size] wraps to 0 so the length is not clamped, and
    the copy of [SIZE_MAX] bytes leaves both blocks. *)
Lemma slice_rule_fails_on_wraparound :
  ¬ slice_rule (plain 0) (digits 0) 1 SIZE_MAX initial_world.
Proof.
  intros [_ H]. destruct H as (sl & w' & Heq & _); [simpl; lia |].
  vm_compute in Heq. discriminate Heq.
Qed.

(** C6, amended.  For every string [str] of length [n] and every [at],
    [size] whose length arithmetic does not wrap ([at + size' ≤ SIZE_MAX]
    and [size' + 2 + 24 ≤ SIZE_MAX], [size'] the effective length), with
    the two allocations succeeding: [Slice] reports the error and returns
    [NULL] iff [at ≥ n]; otherwise it returns a new string whose reported
    length is [size'] ([size] when [size ≠ 0], [n - at] when [size = 0]) and
    whose first [min(size', n - at)] bytes equal [str[at ..]]. *)
Theorem slice_rule_holds (P : platform) (sb : Vector.SUTLVector) (at_ size : Z) (w : world) :
  vector_wf sb → Vector.Elemsize sb = 1 →
  0 ≤ at_ → 0 ≤ size →
  (at_ < Vector.Size sb →
   at_ + slice_length (Vector.Size sb) at_ size ≤ SIZE_MAX ∧
   slice_length (Vector.Size sb) at_ size + 2 + HEADER ≤ SIZE_MAX) →
  (at_ < Vector.Size sb → alloc_ok P (allocs w) HEADER = true) →
  (at_ < Vector.Size sb →
   alloc_ok P (S (allocs w)) (HEADER + (slice_length (Vector.Size sb) at_ size + 2)) = true) →
  slice_rule P sb at_ size w.
Proof.
  intros Hwf Hes Hat Hsz Hfit Hok1 Hok2. pose proof Hwf as [Hs He Hd Hf].
  unfold slice_rule, SUTLStr.SUTLStringSlice.
  destruct (Z.le_gt_cases (Vector.Size sb) at_) as [Hge | Hlt].
  - split; [| lia]. split; [intros _; assumption |]. intros _.
    rewrite Slice_rejects by assumption. eexists. split; reflexivity.
  - assert (Hlt' : at_ < Vector.Size sb) by lia.
    destruct (Hfit Hlt') as [Hsum Hroom].
    rewrite Slice_ok by (first [assumption | lia | auto]).
    split.
    + split; [| lia]. intros (w' & Heq & _). discriminate Heq.
    + intros _. do 2 eexists. split; [reflexivity |]. split; [reflexivity |].
      split; [reflexivity |]. simpl.
      set (m := Z.to_nat (Z.min (slice_length (Vector.Size sb) at_ size) (Vector.Size sb - at_))).
      assert (Hm : length (peek (drop (Z.to_nat at_) (Vector.Data sb)) 0 m) = m).
      { apply length_peek. rewrite length_drop. unfold blen in Hd. lia. }
      unfold poke. simpl. rewrite take_app_length' by (symmetry; exact Hm).
      unfold peek. simpl. reflexivity.
Qed.

Lemma slice_rule_holds_witness :
  slice_rule (plain 170) (digits 170) 7 5 initial_world.
Proof.
  apply slice_rule_holds.
  - apply digits_wf.
  - reflexivity.
  - lia.
  - lia.
  - intros _. split; vm_compute; discriminate.
  - reflexivity.
  - reflexivity.
Defined.

(** [Slice("0123456789", 7, 5)] on a platform whose fresh memory holds
    0xAA: bytes 3 and 4 of the slice are 0xAA. *)
Lemma slice_not_zero_padded :
  ¬ slice_zero_padded (plain 170) (digits 170) 7 5 initial_world.
Proof.
  intros H. specialize (H _ _ eq_refl 3 ltac:(simpl; lia)).
  vm_compute in H. discriminate H.
Qed.

(** C7, amended.  For every valid slice request with [at < n] and
    [at + size > n], every byte of the returned slice at a position
    [≥ n - at] is the byte the allocator left in the fresh block: [Slice]
    does not write it. *)
Theorem slice_padding_is_fresh (P : platform) (sb : Vector.SUTLVector) (at_ size : Z)
        (w : world) :
  vector_wf sb → Vector.Elemsize sb = 1 →
  0 ≤ at_ < Vector.Size sb → Vector.Size sb < at_ + size →
  at_ + size + 2 + HEADER ≤ SIZE_MAX →
  alloc_ok P (allocs w) HEADER = true →
  alloc_ok P (S (allocs w)) (HEADER + (size + 2)) = true →
  ∃ sl w', SUTLStr.SUTLStringSlice P (Some sb) at_ size w = Ok (Some sl) w' ∧
    Vector.Size sl = size ∧
    ∀ j, Vector.Size sb - at_ ≤ j < size + 2 →
         Vector.Data sl !! Z.to_nat j = Some (fresh_byte P (S (allocs w)) (Z.to_nat j)).
Proof.
  intros Hwf Hes Hat Hover Hfit Hok1 Hok2. pose proof Hwf as [Hs He Hd Hf].
  assert (Hlen : slice_length (Vector.Size sb) at_ size = size).
  { unfold slice_length. destruct (Z.eqb_spec size 0); [lia | reflexivity]. }
  unfold SUTLStr.SUTLStringSlice.
  rewrite Slice_ok by (rewrite ?Hlen; first [assumption | words]).
  do 2 eexists. split; [reflexivity |]. unfold slice_result. rewrite Hlen. simpl.
  split; [reflexivity |]. intros j Hj.
  replace (Z.min size (Vector.Size sb - at_)) with (Vector.Size sb - at_) by lia.
  assert (Hp : length (peek (drop (Z.to_nat at_) (Vector.Data sb)) 0
                            (Z.to_nat (Vector.Size sb - at_)))
               = Z.to_nat (Vector.Size sb - at_)).
  { apply length_peek. rewrite length_drop. unfold blen in Hd. lia. }
  rewrite lookup_poke_after by (rewrite ?length_resized, ?Hp; lia).
  apply lookup_resized_fresh; simpl; lia.
Qed.

Lemma slice_padding_is_fresh_witness :
  ∃ sl w', SUTLStr.SUTLStringSlice (plain 170) (Some (digits 170)) 7 5 initial_world
           = Ok (Some sl) w' ∧
    Vector.Size sl = 5 ∧
    ∀ j, 10 - 7 ≤ j < 5 + 2 →
         Vector.Data sl !! Z.to_nat j = Some (fresh_byte (plain 170) 1%nat (Z.to_nat j)).
Proof.
  apply (slice_padding_is_fresh (plain 170) (digits 170) 7 5 initial_world).
  - apply digits_wf.
  - reflexivity.
  - simpl. lia.
  - simpl. lia.
  - vm_compute. discriminate.
  - reflexivity.
  - reflexivity.
Defined.

(** ** Erasing past the end *)

Lemma tmpvec_built c :
  (v <- Vector.SUTLVectorNew (plain c) 4 ;;
   r <- Vector.SUTLVectorPushN (plain c) v tmparr 3 ;;
   ret (snd r)) initial_world
  = Ok (Some (tmpvec c)) {| allocs := 2; errors := [] |}.
Proof. reflexivity. Qed.

Lemma tmpvec_wf c : vector_wf (tmpvec c).
Proof. split; simpl; unfold blen, HEADER, sizeof_size_t, SIZE_MAX; simpl; lia. Qed.

Lemma insert_erase_inverse_witness :
  ∃ p a1 w1 a2,
    Vector.SUTLVectorInsert (plain 170) (Some (tmpvec 170)) 1 (le4 45) initial_world
    = Ok (Some p, Some a1) w1 ∧
    Vector.SUTLVectorErase (Some a1) 1 w1 = Ok (Some a2) w1 ∧
    errors w1 = errors initial_world ∧
    Vector.Size a2 = Vector.Size (tmpvec 170) ∧
    Vector.contents a2 = Vector.contents (tmpvec 170) ∧
    ∀ j, 0 ≤ j < Vector.Size (tmpvec 170) →
         Vector.element a2 j = Vector.element (tmpvec 170) j.
Proof.
  apply (insert_erase_inverse (plain 170) (tmpvec 170) 1 (le4 45) initial_world).
  - apply tmpvec_wf.
  - simpl. lia.
  - vm_compute. discriminate.
  - vm_compute. discriminate.
  - intros _. reflexivity.
Defined.

(** An index past the size is rejected, as long as [at + count] does not wrap. *)
Lemma EraseN_rejects b at_ count w :
  0 ≤ Vector.Size b < at_ → 0 ≤ count → at_ + count ≤ SIZE_MAX →
  Vector.SUTL_InternalVectorEraseN (Some b) at_ count w =
  Ok (Some b) {| allocs := allocs w;
                 errors := errors w ++ ["Elements requested to be erased don't exist."%string] |}.
Proof.
  intros Hat Hc Hfit. unfold Vector.SUTL_InternalVectorEraseN. vred.
  rewrite (wrap_small (at_ + count)) by lia.
  destruct (Z.ltb_spec (Vector.Size b) (at_ + count)); [| lia].
  destruct (Z.ltb_spec (Vector.Size b) at_); [reflexivity | lia].
Qed.

(** [at ≤ size < at + count], the sum as the machine computes it: no error,
    exactly the [size - at] elements from [at] on are dropped and no byte
    of the block changes. *)
Lemma EraseN_clamps b at_ count w :
  0 ≤ at_ ≤ Vector.Size b → Vector.Size b ≤ SIZE_MAX →
  Vector.Size b < wrap (at_ + count) →
  Vector.SUTL_InternalVectorEraseN (Some b) at_ count w =
  Ok (Some {| Vector.Size := at_; Vector.Capacity := Vector.Capacity b;
              Vector.Elemsize := Vector.Elemsize b; Vector.Data := Vector.Data b |}) w.
Proof.
  intros Hat Hs Hover. unfold Vector.SUTL_InternalVectorEraseN. vred.
  destruct (Z.ltb_spec (Vector.Size b) (wrap (at_ + count))); [| lia].
  destruct (Z.ltb_spec (Vector.Size b) at_); [lia |].
  unfold Vector.erase_shift. vred.
  rewrite (wrap_small (Vector.Size b - at_)) by lia.
  replace (at_ + (Vector.Size b - at_)) with (Vector.Size b) by lia.
  rewrite (wrap_small (Vector.Size b)) by lia.
  rewrite Z.eqb_refl. simpl.
  replace (Vector.Size b - (Vector.Size b - at_)) with at_ by lia.
  rewrite (wrap_small at_) by lia. reflexivity.
Qed.

(** C3, at the input that breaks it.  [SUTLVectorPop(v)] on an empty
    vector is [EraseN(v, SIZE_MAX, 1)]: the index is past the size, but
    [at + count] wraps to 0, so no error is reported and the size becomes
    [SIZE_MAX]. *)
Theorem EraseN_past_size_unreported :
  Vector.Size (empty_vector 4) < SIZE_MAX ∧
  Vector.SUTLVectorEraseN (Some (empty_vector 4)) SIZE_MAX 1 initial_world =
  Ok (Some {| Vector.Size := SIZE_MAX; Vector.Capacity := 0; Vector.Elemsize := 4;
              Vector.Data := [] |}) initial_world ∧
  Vector.SUTLVectorPop (Some (empty_vector 4)) initial_world =
  Vector.SUTLVectorEraseN (Some (empty_vector 4)) SIZE_MAX 1 initial_world.
Proof. split; [reflexivity |]. split; reflexivity. Qed.

(** ** The byte-string hash *)

Lemma xor_words_ok d n i hash w :
  0 ≤ i → blen d ≤ SIZE_MAX → sizeof_size_t * (i + Z.of_nat n) ≤ blen d →
  HashUtils.xor_words d n i hash w = Ok (fold_words (drop (Z.to_nat (8 * i)) d) n hash) w.
Proof.
  revert i hash. induction n as [| n IH]; intros i hash Hi Hd Hin.
  - reflexivity.
  - unfold sizeof_size_t in *. simpl HashUtils.xor_words. unfold bind.
    change sizeof_size_t with 8.
    rewrite (wrap_small (8 * i)) by lia.
    rewrite load_ok by lia.
    rewrite IH by lia. simpl fold_words.
    rewrite drop_drop. do 3 f_equal. lia.
Qed.

Lemma fold_words_take (s : list Z) (m n : nat) hash :
  (8 * n ≤ m)%nat → fold_words (take m s) n hash = fold_words s n hash.
Proof.
  revert s m hash. induction n as [| n IH]; intros s m hash H; [reflexivity |].
  simpl. rewrite take_take. replace (8 `min` m)%nat with 8%nat by lia.
  replace (drop 8 (take m s)) with (take (m - 8) (drop 8 s)).
  - apply IH. lia.
  - rewrite take_drop_commute. do 2 f_equal. lia.
Qed.

(** On a string of whole words the code computes the specified hash. *)
Lemma SUTLHash_string_whole_words b w :
  0 ≤ Vector.Size b ≤ blen (Vector.Data b) → blen (Vector.Data b) ≤ SIZE_MAX →
  Vector.Elemsize b = 1 →
  Vector.Size b mod sizeof_size_t = 0 →
  HashUtils.SUTLHash_string (Some b) w = Ok (spec_hash_string (Vector.contents b)) w.
Proof.
  intros Hs Hd He Hrem. unfold sizeof_size_t in *.
  pose proof (Z.div_mod (Vector.Size b) 8 ltac:(lia)) as Hdm.
  pose proof (Z.mod_pos_bound (Vector.Size b) 8 ltac:(lia)) as Hmb.
  assert (Hq : 0 ≤ Vector.Size b / 8) by (apply Z.div_pos; lia).
  unfold HashUtils.SUTLHash_string, SUTLStr.SUTLStringSize. vred.
  change sizeof_size_t with 8. rewrite Hrem.
  rewrite xor_words_ok by (unfold sizeof_size_t; lia).
  simpl. unfold spec_hash_string, Vector.contents. rewrite He, Z.mul_1_r.
  assert (Hlen : length (take (Z.to_nat (Vector.Size b)) (Vector.Data b))
                 = Z.to_nat (Vector.Size b)).
  { rewrite length_take. unfold blen in *. lia. }
  rewrite Hlen.
  assert (Hn : (Z.to_nat (Vector.Size b) / 8)%nat = Z.to_nat (Vector.Size b / 8)).
  { rewrite Z2Nat.inj_div by lia. reflexivity. }
  rewrite Hn.
  assert (H8 : (8 * Z.to_nat (Vector.Size b / 8))%nat = Z.to_nat (Vector.Size b)) by lia.
  rewrite fold_words_take by lia.
  rewrite H8. change (Z.to_nat (8 * 0)) with 0%nat. rewrite drop_0.
  rewrite drop_ge by (rewrite Hlen; lia).
  simpl. rewrite Z.lxor_0_r. reflexivity.
Qed.

(** On every other string the tail loop dereferences the accumulator as
    an address. *)
Lemma SUTLHash_string_tail_is_wild b w :
  0 ≤ Vector.Size b ≤ blen (Vector.Data b) → blen (Vector.Data b) ≤ SIZE_MAX →
  Vector.Size b mod sizeof_size_t ≠ 0 →
  ∃ addr, HashUtils.SUTLHash_string (Some b) w = Fault (WildPointer addr).
Proof.
  intros Hs Hd Hrem. unfold sizeof_size_t in *.
  pose proof (Z.div_mod (Vector.Size b) 8 ltac:(lia)) as Hdm.
  pose proof (Z.mod_pos_bound (Vector.Size b) 8 ltac:(lia)) as Hmb.
  assert (Hq : 0 ≤ Vector.Size b / 8) by (apply Z.div_pos; lia).
  unfold HashUtils.SUTLHash_string, SUTLStr.SUTLStringSize. vred.
  change sizeof_size_t with 8.
  rewrite xor_words_ok by (unfold sizeof_size_t; lia).
  destruct (Z.eqb_spec (Vector.Size b mod 8) 0) as [| _]; [contradiction |].
  destruct (Z.to_nat (Vector.Size b mod 8)) as [| n] eqn:E; [lia |].
  simpl. unfold bind.
  rewrite (wrap_small (Vector.Size b / 8 * 8)) by lia.
  rewrite Z.add_0_r, (wrap_small (Vector.Size b / 8 * 8)) by lia.
  rewrite load_ok by lia.
  eexists. reflexivity.
Qed.

(** C8, at an input that breaks it: hashing the ten bytes of
    ["0123456789"].  The first eight bytes are folded into the accumulator;
    for the tail the code writes through the accumulator's value used as an
    address, where the specified hash folds ["89"] into the accumulator. *)
Theorem SUTLHash_string_tail_not_folded :
  HashUtils.SUTLHash_string (Some (digits 0)) initial_world
  = Fault (WildPointer 14468318254567640783) ∧
  spec_hash_string (Vector.contents (digits 0)) = 14468318254567651319.
Proof. split; reflexivity. Qed.

(** ** Hash tables: the pointer returned for a key already stored *)

(** C1, at an input that breaks it.  Key 33 is stored at entry index 1 of
    its bucket, so its value is at byte offset [1 * ValueSize = 4] of the
    value array, which is what [Get] returns; [Insert] returns byte offset
    [1 * KeySize = 1], inside the value of key 1.  No entry is appended. *)
Theorem Insert_existing_returns_KeySize_offset :
  ∃ w, insert_existing_run initial_world = Ok (Some 1, Some 4, 2, 2) w.
Proof. eexists. vm_compute. reflexivity. Qed.

(** ** Hash tables: the bound of the scan in Erase *)

(** C10, at inputs that break it.  With one live 4-byte key in the bucket
    the scan of [Erase] runs to index 3 (the byte count), not 0: at entry
    index 1 it compares the four bytes at offset 4 of a block of 6 bytes.
    Where the bytes past the live entries are still inside the block the
    scan compares against them: erasing 57 a second time matches the stale
    copy of 57 at entry index 1 of a bucket with one live entry, and the
    table's size drops to 0 with the key 25 still stored. *)
Theorem Erase_scans_past_live_entries :
  erase_absent_map initial_world = Fault (OutOfBounds 4 4 6) ∧
  erase_absent_set initial_world = Fault (OutOfBounds 4 4 6) ∧
  (∃ w, erase_twice_map initial_world = Ok (0, 1, Some 0) w) ∧
  (∃ w, erase_twice_set initial_world = Ok (0, 1, Some 0) w).
Proof.
  split; [vm_compute; reflexivity |].
  split; [vm_compute; reflexivity |].
  split; eexists; vm_compute; reflexivity.
Qed.

(** ** Hash maps: creation, and the bucket of a key *)

Lemma empty_vector_wf es : 0 < es → vector_wf (empty_vector es).
Proof. intros. split; simpl; unfold blen, HEADER, sizeof_size_t, SIZE_MAX; simpl; lia. Qed.

Section HashmapNew.
Variable P : platform.
Hypothesis Hall : always_ok P.
Local Abbreviation new_hashmap := (new_hashmap P).
Local Abbreviation new_hashset := (new_hashset P).

Lemma hashmap_new_buckets_ok n w :
  Hashmap.new_buckets P n w =
  Ok (replicate n (Some (empty_vector 1)), replicate n (Some (empty_vector 1)))
     (more_allocs (2 * n) w).
Proof.
  revert w. induction n as [| n IH]; intros w.
  - destruct w. reflexivity.
  - simpl Hashmap.new_buckets. unfold bind, Vector.SUTLVectorNew.
    rewrite VectorNew_ok by apply Hall.
    rewrite VectorNew_ok by apply Hall.
    rewrite IH. unfold ret, more_allocs, bump, empty_vector. simpl.
    do 2 f_equal. lia.
Qed.

Lemma hashset_new_buckets_ok n w :
  Hashset.new_buckets P n w =
  Ok (replicate n (Some (empty_vector 1))) (more_allocs n w).
Proof.
  revert w. induction n as [| n IH]; intros w.
  - destruct w. reflexivity.
  - simpl Hashset.new_buckets. unfold bind, Vector.SUTLVectorNew.
    rewrite VectorNew_ok by apply Hall.
    rewrite IH. unfold ret, more_allocs, bump, empty_vector. simpl.
    do 2 f_equal. lia.
Qed.

Lemma scratch_ok id size w :
  0 < size → size + 2 + HEADER ≤ SIZE_MAX → allocs w = id →
  Vector.SUTLVectorResize P (Some (empty_vector 1)) size w = Ok (Some (scratch P id size)) (bump w).
Proof.
  intros Hs Hfit <-. unfold Vector.SUTLVectorResize.
  rewrite Resize_grow by (simpl; first [apply Hall | lia]).
  unfold scratch. simpl. rewrite Z.mul_1_r. reflexivity.
Qed.

Lemma HashmapNew_ok K V hash cmp w :
  0 < K → K + 2 + HEADER ≤ SIZE_MAX → 0 < V → V + 2 + HEADER ≤ SIZE_MAX →
  Hashmap.SUTL_InternalHashmapNew P K V hash cmp w =
  Ok (new_hashmap (allocs w) K V hash cmp) (more_allocs 68 w).
Proof.
  intros HK HKf HV HVf. unfold Hashmap.SUTL_InternalHashmapNew, bind, Vector.SUTLVectorNew.
  rewrite VectorNew_ok by apply Hall.
  rewrite VectorNew_ok by apply Hall.
  rewrite (scratch_ok (2 + allocs w)) by (simpl; lia).
  rewrite (scratch_ok (3 + allocs w)) by (simpl; lia).
  rewrite hashmap_new_buckets_ok. reflexivity.
Qed.

Lemma HashsetNew_ok K hash cmp w :
  0 < K → K + 2 + HEADER ≤ SIZE_MAX →
  Hashset.SUTL_InternalHashsetNew P K hash cmp w =
  Ok (new_hashset (allocs w) K hash cmp) (more_allocs 34 w).
Proof.
  intros HK HKf. unfold Hashset.SUTL_InternalHashsetNew, bind, Vector.SUTLVectorNew.
  rewrite VectorNew_ok by apply Hall.
  rewrite (scratch_ok (1 + allocs w)) by (simpl; lia).
  rewrite hashset_new_buckets_ok. reflexivity.
Qed.

End HashmapNew.

Lemma bind_Ok {A B} (m : M A) (k : A → M B) w b w' :
  bind m k w = Ok b w' → ∃ a w1, m w = Ok a w1 ∧ k a w1 = Ok b w'.
Proof.
  unfold bind. destruct (m w) as [a w1 | f]; [| discriminate].
  intros H. exists a, w1. split; [reflexivity | exact H].
Qed.

Lemma wrap_mod_bucket x : 0 ≤ wrap x mod 32 < 32.
Proof. apply Z.mod_pos_bound. lia. Qed.

Section PushFacts.
Variable P : platform.

(** Appending [count] bytes to a vector of bytes. *)
Lemma PushN_ok b ptr count w :
  vector_wf b → Vector.Elemsize b = 1 → 0 ≤ count →
  HEADER + (Vector.Size b + count + 2) ≤ SIZE_MAX →
  count ≤ blen ptr →
  (Vector.Capacity b < Vector.Size b + count →
   alloc_ok P (allocs w) (HEADER + (Vector.Size b + count + 2)) = true) →
  ∃ b' w', Vector.SUTLVectorPushN P (Some b) ptr count w
           = Ok (Some (Vector.Size b), Some b') w' ∧
    errors w' = errors w ∧
    vector_wf b' ∧ Vector.Elemsize b' = 1 ∧
    Vector.Size b' = Vector.Size b + count ∧
    Vector.contents b' = Vector.contents b ++ take (Z.to_nat count) ptr.
Proof.
  intros Hwf He Hc Hfit Hptr Hok. pose proof Hwf as [Hs _ Hd Hf].
  rewrite He in Hd, Hf. rewrite Z.mul_1_r in Hd, Hf.
  set (r := resize_result P b (Vector.Size b + count) w).
  destruct (resize_result_wf P b (Vector.Size b + count) w Hwf) as (R1 & R2 & R3 & R4 & R5 & R6);
    [lia | rewrite He; lia |]. fold r in R1, R2, R3, R4, R5, R6.
  rewrite He in R2, R3, R6. rewrite Z.mul_1_r in R3, R6.
  set (d := insert_data (Vector.Data r.1) 1 (Vector.Size b) (Vector.Size b) ptr count).
  assert (Ld : length d = length (Vector.Data r.1)).
  { apply length_insert_data; lia. }
  exists (Vector.set_Data r.1 d), r.2.
  split; [| split; [| split; [| split; [| split]]]].
  - unfold Vector.SUTLVectorPushN, Vector.SUTLVectorInsertN. vred.
    rewrite InsertN_spec
      by (rewrite ?He, ?Z.mul_1_r, ?Z.mul_1_l; first [assumption | lia]).
    rewrite He, Z.mul_1_l. reflexivity.
  - unfold r, resize_result.
    destruct ((Vector.Size b <? Vector.Size b + count) && (Vector.Capacity b <? Vector.Size b + count));
      reflexivity.
  - split; simpl; rewrite ?R1, ?R2; unfold blen in *; rewrite ?Ld; lia.
  - simpl. exact R2.
  - simpl. exact R1.
  - unfold Vector.contents. simpl. rewrite R1, R2, He, !Z.mul_1_r.
    unfold d, insert_data. rewrite Z.eqb_refl, !Z.mul_1_l.
    unfold poke, peek. rewrite drop_0.
    assert (Lt : length (take (Z.to_nat count) ptr) = Z.to_nat count).
    { rewrite length_take. unfold blen in *. lia. }
    rewrite Lt. rewrite Z2Nat.inj_add by lia.
    rewrite app_assoc.
    rewrite take_app_length'.
    + f_equal. apply list_eq. intros j.
      destruct (decide (j < Z.to_nat (Vector.Size b))%nat).
      * rewrite !lookup_take_lt by lia. apply resize_result_prefix; [assumption |].
        unfold blen in *. lia.
      * rewrite !lookup_take_ge by lia. reflexivity.
    + rewrite length_app, length_take, Lt. unfold blen in *. lia.
Qed.

End PushFacts.

(** ** Hash maps: one key through insert, get and erase *)

Arguments Vector.SUTLVectorPushN : simpl never.
Arguments Vector.SUTL_InternalVectorEraseN : simpl never.
Arguments load : simpl never.
Arguments store : simpl never.

Lemma take_poke_0 (d bs : list Z) : take (length bs) (poke d 0 bs) = bs.
Proof. unfold poke. simpl. apply take_app_length. Qed.

Lemma blen_poke_0 (d bs : list Z) : blen bs ≤ blen d → blen (poke d 0 bs) = blen d.
Proof. unfold blen. intros. rewrite length_poke by lia. reflexivity. Qed.

Lemma contents_nil b : Vector.Size b = 0 → Vector.contents b = [].
Proof. intros H. unfold Vector.contents. rewrite H. reflexivity. Qed.

Lemma div_same_pos K : 0 < K → K / K = 1.
Proof. intros. apply Z.div_same. lia. Qed.

Section MapRoundTrip.
Variable P : platform.
Variables (K V : Z) (hash : list Z → Z) (cmp : list Z → list Z → bool).
Variable k : list Z.
Hypothesis Hall : always_ok P.
Hypothesis HK : 0 < K.
Hypothesis HKfit : K + 2 + HEADER ≤ SIZE_MAX.
Hypothesis HV : 0 < V.
Hypothesis HVfit : V + 2 + HEADER ≤ SIZE_MAX.
Hypothesis Hk : blen k = K.
Hypothesis Hrefl : cmp k k = true.
Local Abbreviation ix := (ix hash k).
Local Abbreviation in_state := (in_state K V hash cmp k).

Lemma ix_lt : (ix < 32)%nat.
Proof. unfold ix, Hashmap.SUTL_HASHMAP_BUCKET_COUNT. pose proof (wrap_mod_bucket (hash k)). lia. Qed.

Lemma new_in_state n : in_state (new_hashmap P n K V hash cmp) [] [] 0.
Proof.
  pose proof ix_lt.
  split; try reflexivity.
  - exists (scratch P (2 + n) K), (scratch P (3 + n) V).
    split; [reflexivity |]. split; [reflexivity |].
    unfold scratch, blen. cbn [Vector.Data]. rewrite !length_resized. lia.
  - exists (empty_vector 1), (empty_vector 1). cbn [new_hashmap Hashmap.Keys Hashmap.Values].
    rewrite !lookup_replicate_2 by lia.
    repeat split; simpl; unfold blen, HEADER, sizeof_size_t, SIZE_MAX; simpl; lia.
Qed.

(** Staging the key leaves the table as it is and puts [k] in [ParamK]. *)
Lemma stage_key_in_state hm kd vd s w :
  in_state hm kd vd s →
  ∃ hm' pk, Hashmap.stage_key hm k w = Ok hm' w ∧ in_state hm' kd vd s ∧
         Hashmap.ParamK hm' = Some pk ∧ take (Z.to_nat K) (Vector.Data pk) = k ∧
         K ≤ blen (Vector.Data pk).
Proof.
  intros [S1 S2 S3 S4 S5 (pk & pv & Epk & Epv & Lk & Lv) S7 S8 S9].
  exists (Hashmap.set_ParamK hm (Some (Vector.set_Data pk (poke (Vector.Data pk) 0 k)))),
    (Vector.set_Data pk (poke (Vector.Data pk) 0 k)).
  split; [| split; [| split; [| split]]].
  - unfold Hashmap.stage_key. rewrite Epk. vred.
    rewrite store_poke by lia. reflexivity.
  - split; simpl; try assumption.
    exists (Vector.set_Data pk (poke (Vector.Data pk) 0 k)), pv. simpl.
    rewrite blen_poke_0 by lia. auto.
  - reflexivity.
  - simpl. rewrite <- Hk. unfold blen. rewrite Nat2Z.id. apply take_poke_0.
  - simpl. rewrite blen_poke_0 by lia. lia.
Qed.

Lemma staged_key_of hm kd vd s pk w :
  in_state hm kd vd s → Hashmap.ParamK hm = Some pk →
  take (Z.to_nat K) (Vector.Data pk) = k → K ≤ blen (Vector.Data pk) →
  Hashmap.staged_key hm w = Ok k w.
Proof.
  intros St Epk Hpk Lk. unfold Hashmap.staged_key. rewrite Epk, (st_KeySize _ _ _ _ _ _ _ _ _ St). vred.
  rewrite load_ok by lia. rewrite drop_0, Hpk. reflexivity.
Qed.

Lemma bucket_index_ix hm kd vd s :
  in_state hm kd vd s → Hashmap.bucket_index hm k = Z.of_nat ix.
Proof.
  intros St. unfold Hashmap.bucket_index. rewrite (st_Hash _ _ _ _ _ _ _ _ _ St). unfold ix.
  pose proof (wrap_mod_bucket (hash k)). unfold Hashmap.SUTL_HASHMAP_BUCKET_COUNT. lia.
Qed.

Lemma stage_value_in_state hm kd vd s v w :
  blen v = V → in_state hm kd vd s →
  ∃ hm' pv, Hashmap.stage_value hm v w = Ok hm' w ∧ in_state hm' kd vd s ∧
         Hashmap.ParamK hm' = Hashmap.ParamK hm ∧
         Hashmap.ParamV hm' = Some pv ∧ take (Z.to_nat V) (Vector.Data pv) = v ∧
         V ≤ blen (Vector.Data pv).
Proof.
  intros Hv [S1 S2 S3 S4 S5 (pk & pv & Epk & Epv & Lk & Lv) S7 S8 S9].
  exists (Hashmap.set_ParamV hm (Some (Vector.set_Data pv (poke (Vector.Data pv) 0 v)))),
    (Vector.set_Data pv (poke (Vector.Data pv) 0 v)).
  split; [| split; [| split; [| split; [| split]]]].
  - unfold Hashmap.stage_value. rewrite Epv. vred.
    rewrite store_poke by lia. reflexivity.
  - split; simpl; try assumption.
    exists pk, (Vector.set_Data pv (poke (Vector.Data pv) 0 v)). simpl.
    rewrite blen_poke_0 by lia. auto.
  - reflexivity.
  - reflexivity.
  - simpl. rewrite <- Hv. unfold blen. rewrite Nat2Z.id. apply take_poke_0.
  - simpl. rewrite blen_poke_0 by lia. lia.
Qed.

Lemma bucket_at (a : list Vector.handle) (h : Vector.handle) :
  a !! ix = Some h → Hashmap.bucket a (Z.of_nat ix) = h.
Proof.
  intros H. unfold Hashmap.bucket. rewrite Nat2Z.id.
  apply (f_equal (default None)) in H. exact H.
Qed.

(** Inserting [k] where its bucket is empty. *)
Lemma insert_new hm s v w :
  blen v = V → in_state hm [] [] s →
  ∃ hm' w', Hashmap.SUTLHashmapInsert P hm k v w = Ok (Some 0, hm') w' ∧
            errors w' = errors w ∧ in_state hm' k v (wrap (s + 1)).
Proof.
  intros Hv St0.
  destruct (stage_key_in_state hm [] [] s w St0) as (hm1 & pk & E1 & St1 & Epk & Hpk & Lk).
  destruct (stage_value_in_state hm1 [] [] s v w Hv St1)
    as (hm2 & pv & E2 & St2 & Epk2 & Epv & Hpv & Lv).
  rewrite Epk in Epk2.
  pose proof St2 as [S1 S2 S3 S4 S5 _ S7 S8
    (kb & vb & Ekb & Evb & Wk & Wv & Ek1 & Ev1 & Sk & Sv & Ck & Cv)].
  change (blen []) with 0 in Sk, Sv.
  destruct (PushN_ok P kb (Vector.Data pk) K w Wk Ek1) as (kb' & w1 & Ep1 & Er1 & Wk' & Ek1' & Sk' & Ck');
    [lia | rewrite Sk; lia | lia | intros _; apply Hall |].
  destruct (PushN_ok P vb (Vector.Data pv) V w1 Wv Ev1) as (vb' & w2 & Ep2 & Er2 & Wv' & Ev1' & Sv' & Cv');
    [lia | rewrite Sv; lia | lia | intros _; apply Hall |].
  exists (Hashmap.set_Values
            (Hashmap.set_Keys (Hashmap.set_Size hm2 (wrap (Hashmap.Size hm2 + 1)))
                              (Z.of_nat ix) (Some kb'))
            (Z.of_nat ix) (Some vb')), w2.
  split; [| split].
  - unfold Hashmap.SUTLHashmapInsert, bind. rewrite E1, E2.
    unfold Hashmap.SUTL_InternalHashmapInsert, bind.
    rewrite (staged_key_of hm2 [] [] s pk) by assumption.
    rewrite (bucket_index_ix hm2 [] [] s) by assumption.
    cbn [Hashmap.Keys Hashmap.Values Hashmap.set_Size Hashmap.set_Keys Hashmap.KeySize
         Hashmap.ValueSize Hashmap.ParamK Hashmap.ParamV].
    rewrite (bucket_at _ _ Ekb). vred. rewrite Sk, S2.
    destruct (Z.eqb_spec K 0) as [? | _]; [lia |].
    rewrite Z.div_0_l by lia. simpl.
    rewrite Epk2. simpl. rewrite Ep1. simpl.
    rewrite Epv. simpl. rewrite (bucket_at _ _ Evb), S3, Ep2. simpl.
    rewrite Sv. reflexivity.
  - congruence.
  - pose proof ix_lt.
    split; cbn [Hashmap.Size Hashmap.KeySize Hashmap.ValueSize Hashmap.Hash Hashmap.KeyComp
                Hashmap.ParamK Hashmap.ParamV Hashmap.Keys Hashmap.Values
                Hashmap.set_Values Hashmap.set_Keys Hashmap.set_Size]; try assumption.
    + rewrite S1. reflexivity.
    + exists pk, pv. auto.
    + rewrite length_insert. assumption.
    + rewrite length_insert. assumption.
    + exists kb', vb'. rewrite Nat2Z.id.
      rewrite !list_lookup_insert_eq by lia.
      rewrite Ck', Cv', Ck, Cv, Hpk, Hpv, Sk', Sv', Sk, Sv. simpl.
      repeat apply conj; first [assumption | reflexivity | lia].
Qed.

Lemma key_matches_first hm vd s w :
  in_state hm k vd s → Hashmap.key_matches hm (Z.of_nat ix) k 0 w = Ok true w.
Proof.
  intros [S1 S2 S3 S4 S5 _ S7 S8
    (kb & vb & Ekb & Evb & Wk & Wv & Ek1 & Ev1 & Sk & Sv & Ck & Cv)].
  destruct Wk as [Hs _ Hd _]. rewrite Ek1, Z.mul_1_r in Hd.
  unfold Hashmap.key_matches. rewrite (bucket_at _ _ Ekb). vred.
  rewrite S2, S5, Z.mul_0_l, (wrap_small 0) by words.
  rewrite load_ok by lia. rewrite drop_0.
  unfold Vector.contents in Ck. rewrite Sk, Ek1, Z.mul_1_r, Hk in Ck.
  unfold ret. rewrite Ck, Hrefl. reflexivity.
Qed.

(** Looking [k] up where its bucket holds exactly [k]. *)
Lemma get_hit hm v s w :
  blen v = V → in_state hm k v s →
  ∃ hm', Hashmap.SUTLHashmapGet hm k w = Ok (Some 0, hm') w ∧
         Hashmap.value_at hm' k 0 w = Ok v w ∧ in_state hm' k v s.
Proof.
  intros Hv St0.
  destruct (stage_key_in_state hm k v s w St0) as (hm1 & pk & E1 & St1 & Epk & Hpk & Lk).
  pose proof St1 as [S1 S2 S3 S4 S5 _ S7 S8
    (kb & vb & Ekb & Evb & Wk & Wv & Ek1 & Ev1 & Sk & Sv & Ck & Cv)].
  exists hm1. split; [| split; [| assumption]].
  - unfold Hashmap.SUTLHashmapGet, bind. rewrite E1.
    unfold Hashmap.SUTL_InternalHashmapGet, bind.
    rewrite (staged_key_of hm1 k v s pk) by assumption.
    rewrite (bucket_index_ix hm1 k v s) by assumption.
    rewrite (bucket_at _ _ Ekb). vred. rewrite Sk, S2, Hk.
    destruct (Z.eqb_spec K 0) as [? | _]; [lia |].
    rewrite div_same_pos by lia. simpl Hashmap.find_scan. unfold bind.
    rewrite (key_matches_first hm1 v s) by assumption.
    unfold ret. rewrite Z.mul_0_l, (wrap_small 0) by words.
    rewrite (bucket_at _ _ Evb). reflexivity.
  - unfold Hashmap.value_at. rewrite (bucket_index_ix hm1 k v s) by assumption.
    rewrite (bucket_at _ _ Evb). vred. rewrite S3.
    destruct Wv as [Hs _ Hd _]. rewrite Ev1, Z.mul_1_r in Hd.
    rewrite load_ok by lia. rewrite drop_0.
    unfold Vector.contents in Cv. rewrite Sv, Ev1, Z.mul_1_r, Hv in Cv.
    unfold ret. rewrite Cv. reflexivity.
Qed.

(** Inserting [k] where its bucket holds exactly [k]: the size field still grows. *)
Lemma insert_again hm v v' s w :
  blen v' = V → in_state hm k v s →
  ∃ hm', Hashmap.SUTLHashmapInsert P hm k v' w = Ok (Some 0, hm') w ∧
         in_state hm' k v (wrap (s + 1)).
Proof.
  intros Hv St0.
  destruct (stage_key_in_state hm k v s w St0) as (hm1 & pk & E1 & St1 & Epk & Hpk & Lk).
  destruct (stage_value_in_state hm1 k v s v' w Hv St1)
    as (hm2 & pv & E2 & St2 & Epk2 & Epv & Hpv & Lv).
  rewrite Epk in Epk2.
  pose proof St2 as [S1 S2 S3 S4 S5 S6 S7 S8 S9].
  pose proof S9 as (kb & vb & Ekb & Evb & Wk & Wv & Ek1 & Ev1 & Sk & Sv & Ck & Cv).
  exists (Hashmap.set_Size hm2 (wrap (Hashmap.Size hm2 + 1))). split.
  - unfold Hashmap.SUTLHashmapInsert, bind. rewrite E1, E2.
    unfold Hashmap.SUTL_InternalHashmapInsert, bind.
    rewrite (staged_key_of hm2 k v s pk) by assumption.
    rewrite (bucket_index_ix hm2 k v s) by assumption.
    cbn [Hashmap.Keys Hashmap.Values Hashmap.set_Size Hashmap.KeySize].
    rewrite (bucket_at _ _ Ekb). vred. rewrite Sk, S2, Hk.
    destruct (Z.eqb_spec K 0) as [? | _]; [lia |].
    rewrite div_same_pos by lia. simpl Hashmap.insert_scan. unfold bind.
    assert (St3 : in_state (Hashmap.set_Size hm2 (wrap (Hashmap.Size hm2 + 1))) k v
                           (wrap (Hashmap.Size hm2 + 1))).
    { split; try assumption. reflexivity. }
    rewrite (key_matches_first _ v _ _ St3).
    unfold ret. cbn [Hashmap.set_Size Hashmap.KeySize Hashmap.Values]. rewrite S2.
    rewrite Z.mul_0_l, (wrap_small 0) by words.
    rewrite (bucket_at _ _ Evb). reflexivity.
  - split; try assumption. simpl. rewrite S1. reflexivity.
Qed.

(** Erasing [k] where its bucket holds exactly [k]. *)
Lemma erase_hit hm v s w :
  blen v = V → in_state hm k v s →
  ∃ hm', Hashmap.SUTLHashmapErase hm k w = Ok hm' w ∧
         in_state hm' [] [] (wrap (s - 1)).
Proof.
  intros Hv St0.
  destruct (stage_key_in_state hm k v s w St0) as (hm1 & pk & E1 & St1 & Epk & Hpk & Lk).
  pose proof St1 as [S1 S2 S3 S4 S5 S6 S7 S8
    (kb & vb & Ekb & Evb & Wk & Wv & Ek1 & Ev1 & Sk & Sv & Ck & Cv)].
  pose proof ix_lt as Hix.
  set (kb' := {| Vector.Size := Vector.Size kb - K; Vector.Capacity := Vector.Capacity kb;
                 Vector.Elemsize := Vector.Elemsize kb;
                 Vector.Data := erase_data (Vector.Data kb) (Vector.Elemsize kb)
                                           (Vector.Size kb) 0 K |}).
  set (vb' := {| Vector.Size := Vector.Size vb - V; Vector.Capacity := Vector.Capacity vb;
                 Vector.Elemsize := Vector.Elemsize vb;
                 Vector.Data := erase_data (Vector.Data vb) (Vector.Elemsize vb)
                                           (Vector.Size vb) 0 V |}).
  exists (Hashmap.set_Size
            (Hashmap.set_Values (Hashmap.set_Keys hm1 (Z.of_nat ix) (Some kb'))
                                (Z.of_nat ix) (Some vb'))
            (wrap (Hashmap.Size hm1 - 1))).
  split.
  - unfold Hashmap.SUTLHashmapErase, bind. rewrite E1.
    unfold Hashmap.SUTL_InternalHashmapErase, bind.
    rewrite (staged_key_of hm1 k v s pk) by assumption.
    rewrite (bucket_index_ix hm1 k v s) by assumption.
    rewrite (bucket_at _ _ Ekb). vred. rewrite Sk, Hk.
    destruct (Z.to_nat K) as [| n] eqn:En; [lia |].
    simpl Hashmap.find_scan. unfold bind.
    rewrite (key_matches_first hm1 v s) by assumption.
    unfold ret. rewrite S2, Z.mul_0_l, (wrap_small 0) by words.
    unfold Vector.SUTLVectorEraseN.
    rewrite EraseN_spec by (first [assumption | lia]).
    cbn [Hashmap.set_Keys Hashmap.Values Hashmap.ValueSize].
    rewrite (bucket_at _ _ Evb).
    rewrite S3, Z.mul_0_l, (wrap_small 0) by words.
    rewrite EraseN_spec by (first [assumption | lia]).
    reflexivity.
  - assert (Dk : erase_data (Vector.Data kb) (Vector.Elemsize kb) (Vector.Size kb) 0 K
                 = Vector.Data kb).
    { unfold erase_data. rewrite Sk, Hk, Z.add_0_l, Z.eqb_refl. reflexivity. }
    assert (Dv : erase_data (Vector.Data vb) (Vector.Elemsize vb) (Vector.Size vb) 0 V
                 = Vector.Data vb).
    { unfold erase_data. rewrite Sv, Hv, Z.add_0_l, Z.eqb_refl. reflexivity. }
    destruct Wk as [Hsk Hek Hdk Hfk]. destruct Wv as [Hsv Hev Hdv Hfv].
    split; cbn [Hashmap.Size Hashmap.KeySize Hashmap.ValueSize Hashmap.Hash Hashmap.KeyComp
                Hashmap.ParamK Hashmap.ParamV Hashmap.Keys Hashmap.Values
                Hashmap.set_Values Hashmap.set_Keys Hashmap.set_Size]; try assumption.
    + rewrite S1. reflexivity.
    + rewrite length_insert. assumption.
    + rewrite length_insert. assumption.
    + exists kb', vb'. rewrite Nat2Z.id.
      rewrite !list_lookup_insert_eq by lia.
      assert (Zk : Vector.Size kb' = 0) by (unfold kb'; simpl; lia).
      assert (Zv : Vector.Size vb' = 0) by (unfold vb'; simpl; lia).
      rewrite !contents_nil by assumption.
      repeat apply conj; try reflexivity; try assumption.
      * split; unfold kb'; cbn [Vector.Size Vector.Capacity Vector.Elemsize Vector.Data];
          rewrite ?Dk; first [assumption | lia].
      * split; unfold vb'; cbn [Vector.Size Vector.Capacity Vector.Elemsize Vector.Data];
          rewrite ?Dv; first [assumption | lia].
Qed.

(** Looking [k] up, and erasing it, where its bucket is empty. *)
Lemma get_miss hm s w :
  in_state hm [] [] s →
  ∃ hm', Hashmap.SUTLHashmapGet hm k w = Ok (None, hm') w ∧ in_state hm' [] [] s.
Proof.
  intros St0.
  destruct (stage_key_in_state hm [] [] s w St0) as (hm1 & pk & E1 & St1 & Epk & Hpk & Lk).
  pose proof St1 as [S1 S2 S3 S4 S5 _ S7 S8
    (kb & vb & Ekb & Evb & Wk & Wv & Ek1 & Ev1 & Sk & Sv & Ck & Cv)].
  exists hm1. split; [| assumption].
  unfold Hashmap.SUTLHashmapGet, bind. rewrite E1.
  unfold Hashmap.SUTL_InternalHashmapGet, bind.
  rewrite (staged_key_of hm1 [] [] s pk) by assumption.
  rewrite (bucket_index_ix hm1 [] [] s) by assumption.
  rewrite (bucket_at _ _ Ekb). vred. rewrite Sk, S2.
  destruct (Z.eqb_spec K 0) as [? | _]; [lia |].
  change (blen []) with 0. rewrite Z.div_0_l by lia. reflexivity.
Qed.

Lemma erase_miss hm s w :
  in_state hm [] [] s →
  ∃ hm', Hashmap.SUTLHashmapErase hm k w = Ok hm' w ∧ in_state hm' [] [] s.
Proof.
  intros St0.
  destruct (stage_key_in_state hm [] [] s w St0) as (hm1 & pk & E1 & St1 & Epk & Hpk & Lk).
  pose proof St1 as [S1 S2 S3 S4 S5 _ S7 S8
    (kb & vb & Ekb & Evb & Wk & Wv & Ek1 & Ev1 & Sk & Sv & Ck & Cv)].
  exists hm1. split; [| assumption].
  unfold Hashmap.SUTLHashmapErase, bind. rewrite E1.
  unfold Hashmap.SUTL_InternalHashmapErase, bind.
  rewrite (staged_key_of hm1 [] [] s pk) by assumption.
  rewrite (bucket_index_ix hm1 [] [] s) by assumption.
  rewrite (bucket_at _ _ Ekb). vred. rewrite Sk. reflexivity.
Qed.

End MapRoundTrip.

(** C2. On a new hashmap, for a key [k] (which a new table does not hold):
    after [Insert(m, k, v)], [Get(m, k)] points to a value equal to [v] and
    [Size] is 1; after [Erase(m, k)], [Get(m, k)] is [NULL] and [Size] is 0;
    a second [Erase(m, k)] leaves [Size] at 0; no call invokes the error
    callback. *)
Theorem hashmap_round_trip (P : platform) (K V : Z) hash cmp (k v : list Z) (w : world) :
  always_ok P →
  0 < K → K + 2 + HEADER ≤ SIZE_MAX →
  0 < V → V + 2 + HEADER ≤ SIZE_MAX →
  blen k = K → blen v = V →
  cmp k k = true →
  ∃ w', round_trip_run P K V hash cmp k v w = Ok (Some v, 1, None, 0, 0) w' ∧
        errors w' = errors w.
Proof.
  intros Hall HK HKf HV HVf Hk Hv Hrefl.
  assert (St0 : in_state K V hash cmp k (new_hashmap P (allocs w) K V hash cmp) [] [] 0)
    by (apply new_in_state; assumption).
  edestruct (insert_new P K V hash cmp k) with (w := more_allocs 68 w) (v := v)
    as (hm1 & w1 & E1 & Er1 & St1); try eassumption.
  edestruct (get_hit K V hash cmp k) with (w := w1) (v := v)
    as (hm2 & E2 & Ev2 & St2); try eassumption.
  edestruct (erase_hit K V hash cmp k) with (w := w1) (v := v)
    as (hm3 & E3 & St3); try eassumption.
  edestruct (get_miss K V hash cmp k) with (w := w1)
    as (hm4 & E4 & St4); try eassumption.
  edestruct (erase_miss K V hash cmp k) with (w := w1)
    as (hm5 & E5 & St5); try eassumption.
  exists w1. split; [| exact Er1].
  unfold round_trip_run, bind, Hashmap.SUTLHashmapNew.
  rewrite HashmapNew_ok by assumption.
  rewrite E1. cbn [fst snd]. rewrite E2. cbn [fst snd]. rewrite Ev2.
  unfold ret at 1. rewrite E3, E4. cbn [fst snd]. rewrite E5.
  rewrite (st_Size _ _ _ _ _ _ _ _ _ St2), (st_Size _ _ _ _ _ _ _ _ _ St4),
    (st_Size _ _ _ _ _ _ _ _ _ St5).
  reflexivity.
Qed.

Lemma always_ok_plain c : always_ok (plain c).
Proof. intros n sz. reflexivity. Qed.

Lemma hashmap_round_trip_witness :
  ∃ w', round_trip_run (plain 170) 4 4 HashUtils.SUTLHash_int HashUtils.SUTLCmp_int
                       (le4 25) (le4 625) initial_world
        = Ok (Some (le4 625), 1, None, 0, 0) w' ∧
        errors w' = errors initial_world.
Proof.
  apply (hashmap_round_trip (plain 170) 4 4 HashUtils.SUTLHash_int HashUtils.SUTLCmp_int
                            (le4 25) (le4 625) initial_world).
  - apply always_ok_plain.
  - lia.
  - vm_compute. discriminate.
  - lia.
  - vm_compute. discriminate.
  - reflexivity.
  - reflexivity.
  - reflexivity.
Defined.

(** ** Hash sets: one key inserted twice *)

Section SetInsert.
Variable P : platform.
Variables (K : Z) (hash : list Z → Z) (cmp : list Z → list Z → bool).
Variable k : list Z.
Hypothesis Hall : always_ok P.
Hypothesis HK : 0 < K.
Hypothesis HKfit : K + 2 + HEADER ≤ SIZE_MAX.
Hypothesis Hk : blen k = K.
Hypothesis Hrefl : cmp k k = true.
Local Abbreviation set_ix := (set_ix hash k).
Local Abbreviation set_in_state := (set_in_state K hash cmp k).

Lemma set_ix_lt : (set_ix < 32)%nat.
Proof.
  unfold set_ix, Hashset.SUTL_HASHSET_BUCKET_COUNT.
  pose proof (wrap_mod_bucket (hash k)). lia.
Qed.

Lemma new_set_in_state n : set_in_state (new_hashset P n K hash cmp) [] 0.
Proof.
  pose proof set_ix_lt.
  split; try reflexivity.
  - exists (scratch P (1 + n) K). split; [reflexivity |].
    unfold scratch, blen. cbn [Vector.Data]. rewrite !length_resized. lia.
  - exists (empty_vector 1). cbn [new_hashset Hashset.Keys].
    rewrite !lookup_replicate_2 by lia.
    repeat split; simpl; unfold blen, HEADER, sizeof_size_t, SIZE_MAX; simpl; lia.
Qed.

Lemma set_stage_key hs kd s w :
  set_in_state hs kd s →
  ∃ hs' pk, Hashset.stage_key hs k w = Ok hs' w ∧ set_in_state hs' kd s ∧
         Hashset.ParamK hs' = Some pk ∧ take (Z.to_nat K) (Vector.Data pk) = k ∧
         K ≤ blen (Vector.Data pk).
Proof.
  intros [S1 S2 S4 S5 (pk & Epk & Lk) S7 S9].
  exists (Hashset.set_ParamK hs (Some (Vector.set_Data pk (poke (Vector.Data pk) 0 k)))),
    (Vector.set_Data pk (poke (Vector.Data pk) 0 k)).
  split; [| split; [| split; [| split]]].
  - unfold Hashset.stage_key. rewrite Epk. vred.
    rewrite store_poke by lia. reflexivity.
  - split; simpl; try assumption.
    exists (Vector.set_Data pk (poke (Vector.Data pk) 0 k)). simpl.
    rewrite blen_poke_0 by lia. auto.
  - reflexivity.
  - simpl. rewrite <- Hk. unfold blen. rewrite Nat2Z.id. apply take_poke_0.
  - simpl. rewrite blen_poke_0 by lia. lia.
Qed.

Lemma set_staged_key_of hs kd s pk w :
  set_in_state hs kd s → Hashset.ParamK hs = Some pk →
  take (Z.to_nat K) (Vector.Data pk) = k → K ≤ blen (Vector.Data pk) →
  Hashset.staged_key hs w = Ok k w.
Proof.
  intros St Epk Hpk Lk. unfold Hashset.staged_key. rewrite Epk, (sst_KeySize _ _ _ _ _ _ _ St). vred.
  rewrite load_ok by lia. rewrite drop_0, Hpk. reflexivity.
Qed.

Lemma set_bucket_index hs kd s :
  set_in_state hs kd s → Hashset.bucket_index hs k = Z.of_nat set_ix.
Proof.
  intros St. unfold Hashset.bucket_index. rewrite (sst_Hash _ _ _ _ _ _ _ St). unfold set_ix.
  pose proof (wrap_mod_bucket (hash k)). unfold Hashset.SUTL_HASHSET_BUCKET_COUNT. lia.
Qed.

Lemma set_bucket_at (a : list Vector.handle) (h : Vector.handle) :
  a !! set_ix = Some h → Hashset.bucket a (Z.of_nat set_ix) = h.
Proof.
  intros H. unfold Hashset.bucket. rewrite Nat2Z.id.
  apply (f_equal (default None)) in H. exact H.
Qed.

Lemma set_insert_new hs s w :
  set_in_state hs [] s →
  ∃ hs' w', Hashset.SUTLHashsetInsert P hs k w = Ok (Some 0, hs') w' ∧
            errors w' = errors w ∧ set_in_state hs' k (wrap (s + 1)).
Proof.
  intros St0.
  destruct (set_stage_key hs [] s w St0) as (hs1 & pk & E1 & St1 & Epk & Hpk & Lk).
  pose proof St1 as [S1 S2 S4 S5 _ S7 (kb & Ekb & Wk & Ek1 & Sk & Ck)].
  change (blen []) with 0 in Sk.
  destruct (PushN_ok P kb (Vector.Data pk) K w Wk Ek1) as (kb' & w1 & Ep1 & Er1 & Wk' & Ek1' & Sk' & Ck');
    [lia | rewrite Sk; lia | lia | intros _; apply Hall |].
  exists (Hashset.set_Keys (Hashset.set_Size hs1 (wrap (Hashset.Size hs1 + 1)))
                           (Z.of_nat set_ix) (Some kb')), w1.
  split; [| split].
  - unfold Hashset.SUTLHashsetInsert, bind. rewrite E1.
    unfold Hashset.SUTL_InternalHashsetInsert, bind.
    rewrite (set_staged_key_of hs1 [] s pk) by assumption.
    rewrite (set_bucket_index hs1 [] s) by assumption.
    cbn [Hashset.Keys Hashset.set_Size Hashset.set_Keys Hashset.KeySize Hashset.ParamK].
    rewrite (set_bucket_at _ _ Ekb). vred. rewrite Sk, S2.
    destruct (Z.eqb_spec K 0) as [? | _]; [lia |].
    rewrite Z.div_0_l by lia. simpl.
    rewrite Epk. simpl. rewrite Ep1. simpl. rewrite Sk. reflexivity.
  - assumption.
  - pose proof set_ix_lt.
    split; cbn [Hashset.Size Hashset.KeySize Hashset.Hash Hashset.KeyComp
                Hashset.ParamK Hashset.Keys Hashset.set_Keys Hashset.set_Size];
      try assumption.
    + rewrite S1. reflexivity.
    + exists pk. auto.
    + rewrite length_insert. assumption.
    + exists kb'. rewrite Nat2Z.id.
      rewrite !list_lookup_insert_eq by lia.
      rewrite Ck', Ck, Hpk, Sk', Sk. simpl.
      repeat apply conj; first [assumption | reflexivity | lia].
Qed.

Lemma set_key_matches_first hs s w :
  set_in_state hs k s → Hashset.key_matches hs (Z.of_nat set_ix) k 0 w = Ok true w.
Proof.
  intros [S1 S2 S4 S5 _ S7 (kb & Ekb & Wk & Ek1 & Sk & Ck)].
  destruct Wk as [Hs _ Hd _]. rewrite Ek1, Z.mul_1_r in Hd.
  unfold Hashset.key_matches. rewrite (set_bucket_at _ _ Ekb). vred.
  rewrite S2, S5, Z.mul_0_l, (wrap_small 0) by words.
  rewrite load_ok by lia. rewrite drop_0.
  unfold Vector.contents in Ck. rewrite Sk, Ek1, Z.mul_1_r, Hk in Ck.
  unfold ret. rewrite Ck, Hrefl. reflexivity.
Qed.

Lemma set_insert_again hs s w :
  set_in_state hs k s →
  ∃ hs', Hashset.SUTLHashsetInsert P hs k w = Ok (Some 0, hs') w ∧
         set_in_state hs' k (wrap (s + 1)).
Proof.
  intros St0.
  destruct (set_stage_key hs k s w St0) as (hs1 & pk & E1 & St1 & Epk & Hpk & Lk).
  pose proof St1 as [S1 S2 S4 S5 S6 S7 S9].
  pose proof S9 as (kb & Ekb & Wk & Ek1 & Sk & Ck).
  exists (Hashset.set_Size hs1 (wrap (Hashset.Size hs1 + 1))). split.
  - unfold Hashset.SUTLHashsetInsert, bind. rewrite E1.
    unfold Hashset.SUTL_InternalHashsetInsert, bind.
    rewrite (set_staged_key_of hs1 k s pk) by assumption.
    rewrite (set_bucket_index hs1 k s) by assumption.
    cbn [Hashset.Keys Hashset.set_Size Hashset.KeySize].
    rewrite (set_bucket_at _ _ Ekb). vred. rewrite Sk, S2, Hk.
    destruct (Z.eqb_spec K 0) as [? | _]; [lia |].
    rewrite div_same_pos by lia. simpl Hashset.insert_scan. unfold bind.
    assert (St3 : set_in_state (Hashset.set_Size hs1 (wrap (Hashset.Size hs1 + 1))) k
                               (wrap (Hashset.Size hs1 + 1))).
    { split; try assumption. reflexivity. }
    rewrite (set_key_matches_first _ _ _ St3).
    unfold ret. cbn [Hashset.set_Size Hashset.KeySize]. rewrite S2.
    rewrite Z.mul_0_l, (wrap_small 0) by words. reflexivity.
  - split; try assumption. simpl. rewrite S1. reflexivity.
Qed.

End SetInsert.

(** ** Insert and the size field *)

Lemma ret_Ok {A} (a b : A) w w' : ret a w = Ok b w' → b = a ∧ w' = w.
Proof. unfold ret. intros H. injection H as <- <-. auto. Qed.

Lemma hashmap_stage_key_Size hm k w hm' w' :
  Hashmap.stage_key hm k w = Ok hm' w' → Hashmap.Size hm' = Hashmap.Size hm.
Proof.
  unfold Hashmap.stage_key. intros H.
  apply bind_Ok in H as (pk & w1 & _ & H).
  apply bind_Ok in H as (d & w2 & _ & H).
  apply ret_Ok in H as [-> _]. reflexivity.
Qed.

Lemma hashmap_stage_value_Size hm v w hm' w' :
  Hashmap.stage_value hm v w = Ok hm' w' → Hashmap.Size hm' = Hashmap.Size hm.
Proof.
  unfold Hashmap.stage_value. intros H.
  apply bind_Ok in H as (pk & w1 & _ & H).
  apply bind_Ok in H as (d & w2 & _ & H).
  apply ret_Ok in H as [-> _]. reflexivity.
Qed.

Lemma hashmap_insert_increments P hm k v w r hm' w' :
  Hashmap.SUTLHashmapInsert P hm k v w = Ok (r, hm') w' →
  Hashmap.Size hm' = wrap (Hashmap.Size hm + 1).
Proof.
  unfold Hashmap.SUTLHashmapInsert. intros H.
  apply bind_Ok in H as (hm1 & w1 & H1 & H). apply hashmap_stage_key_Size in H1.
  apply bind_Ok in H as (hm2 & w2 & H2 & H). apply hashmap_stage_value_Size in H2.
  rewrite <- H1, <- H2.
  unfold Hashmap.SUTL_InternalHashmapInsert in H.
  apply bind_Ok in H as (k' & w3 & _ & H).
  apply bind_Ok in H as (ksize & w4 & _ & H).
  cbn [Hashmap.set_Size Hashmap.KeySize] in H.
  destruct (Hashmap.KeySize hm2 =? 0); [discriminate H |].
  apply bind_Ok in H as (value & w5 & _ & H).
  destruct value as [p |].
  - apply ret_Ok in H as [H _]. injection H as _ ->. reflexivity.
  - apply bind_Ok in H as (pk & w6 & _ & H).
    apply bind_Ok in H as (r1 & w7 & _ & H).
    apply bind_Ok in H as (pv & w8 & _ & H).
    apply bind_Ok in H as (r2 & w9 & _ & H).
    apply ret_Ok in H as [H _]. injection H as _ ->. reflexivity.
Qed.

Lemma hashset_insert_increments P hs k w r hs' w' :
  Hashset.SUTLHashsetInsert P hs k w = Ok (r, hs') w' →
  Hashset.Size hs' = wrap (Hashset.Size hs + 1).
Proof.
  unfold Hashset.SUTLHashsetInsert. intros H.
  apply bind_Ok in H as (hs1 & w1 & H1 & H).
  assert (E1 : Hashset.Size hs1 = Hashset.Size hs).
  { unfold Hashset.stage_key in H1.
    apply bind_Ok in H1 as (pk & w2 & _ & H1).
    apply bind_Ok in H1 as (d & w3 & _ & H1).
    apply ret_Ok in H1 as [-> _]. reflexivity. }
  rewrite <- E1.
  unfold Hashset.SUTL_InternalHashsetInsert in H.
  apply bind_Ok in H as (k' & w3 & _ & H).
  apply bind_Ok in H as (ksize & w4 & _ & H).
  cbn [Hashset.set_Size Hashset.KeySize] in H.
  destruct (Hashset.KeySize hs1 =? 0); [discriminate H |].
  apply bind_Ok in H as (entry & w5 & _ & H).
  destruct entry as [p |].
  - apply ret_Ok in H as [H _]. injection H as _ ->. reflexivity.
  - apply bind_Ok in H as (pk & w6 & _ & H).
    apply bind_Ok in H as (r1 & w7 & _ & H).
    apply ret_Ok in H as [H _]. injection H as _ ->. reflexivity.
Qed.

(** C4. Every [Insert] on a hashmap or hashset adds 1 to the table's
    [Size] field, whether or not the key is already stored; inserting the
    same key twice into a new table gives a [Size] of 2 with one entry
    stored. *)
Theorem Insert_increments_Size_even_if_present
        (P : platform) (K V : Z) hash cmp (k v v' : list Z) (w : world) :
  always_ok P →
  0 < K → K + 2 + HEADER ≤ SIZE_MAX →
  0 < V → V + 2 + HEADER ≤ SIZE_MAX →
  blen k = K → blen v = V → blen v' = V →
  cmp k k = true →
  (∀ hm k0 v0 w0 r hm' w', Hashmap.SUTLHashmapInsert P hm k0 v0 w0 = Ok (r, hm') w' →
                           Hashmap.Size hm' = wrap (Hashmap.Size hm + 1)) ∧
  (∀ hs k0 w0 r hs' w', Hashset.SUTLHashsetInsert P hs k0 w0 = Ok (r, hs') w' →
                        Hashset.Size hs' = wrap (Hashset.Size hs + 1)) ∧
  (∃ w', insert_twice_map P K V hash cmp k v v' w = Ok (2, 1, 1) w') ∧
  (∃ w', insert_twice_set P K hash cmp k w = Ok (2, 1) w').
Proof.
  intros Hall HK HKf HV HVf Hk Hv Hv' Hrefl.
  split; [intros; eapply hashmap_insert_increments; eassumption |].
  split; [intros; eapply hashset_insert_increments; eassumption |].
  split.
  - assert (St0 : in_state K V hash cmp k (new_hashmap P (allocs w) K V hash cmp) [] [] 0)
      by (apply new_in_state; assumption).
    edestruct (insert_new P K V hash cmp k) with (w := more_allocs 68 w) (v := v)
      as (hm1 & w1 & E1 & Er1 & St1); try eassumption.
    edestruct (insert_again P K V hash cmp k) with (w := w1) (v := v) (v' := v')
      as (hm2 & E2 & St2); try eassumption.
    exists w1. unfold insert_twice_map, bind, Hashmap.SUTLHashmapNew.
    rewrite HashmapNew_ok by assumption.
    rewrite E1. cbn [fst snd]. rewrite E2. cbn [fst snd].
    rewrite (bucket_index_ix K V hash cmp k hm2 k v _ St2).
    destruct St2 as [S1 S2 S3 S4 S5 _ S7 S8
      (kb & vb & Ekb & Evb & Wk & Wv & Ek1 & Ev1 & Sk & Sv & Ck & Cv)].
    rewrite (bucket_at hash k _ _ Ekb), (bucket_at hash k _ _ Evb).
    unfold Hashmap.entries. rewrite S1, Sk, Sv, Hk, Hv, !div_same_pos by lia.
    reflexivity.
  - assert (St0 : set_in_state K hash cmp k (new_hashset P (allocs w) K hash cmp) [] 0)
      by (apply new_set_in_state; assumption).
    edestruct (set_insert_new P K hash cmp k) with (w := more_allocs 34 w)
      as (hs1 & w1 & E1 & Er1 & St1); try eassumption.
    edestruct (set_insert_again P K hash cmp k) with (w := w1)
      as (hs2 & E2 & St2); try eassumption.
    exists w1. unfold insert_twice_set, bind, Hashset.SUTLHashsetNew.
    rewrite HashsetNew_ok by assumption.
    rewrite E1. cbn [fst snd]. rewrite E2. cbn [fst snd].
    rewrite (set_bucket_index K hash cmp k hs2 k _ St2).
    destruct St2 as [S1 S2 S4 S5 _ S7 (kb & Ekb & Wk & Ek1 & Sk & Ck)].
    rewrite (set_bucket_at hash k _ _ Ekb).
    unfold Hashset.entries. rewrite S1, Sk, Hk, !div_same_pos by lia.
    reflexivity.
Qed.

Lemma Insert_increments_Size_even_if_present_witness :
  (∀ hm k0 v0 w0 r hm' w',
      Hashmap.SUTLHashmapInsert (plain 170) hm k0 v0 w0 = Ok (r, hm') w' →
      Hashmap.Size hm' = wrap (Hashmap.Size hm + 1)) ∧
  (∀ hs k0 w0 r hs' w',
      Hashset.SUTLHashsetInsert (plain 170) hs k0 w0 = Ok (r, hs') w' →
      Hashset.Size hs' = wrap (Hashset.Size hs + 1)) ∧
  (∃ w', insert_twice_map (plain 170) 4 4 HashUtils.SUTLHash_int HashUtils.SUTLCmp_int
                          (le4 25) (le4 625) (le4 626) initial_world = Ok (2, 1, 1) w') ∧
  (∃ w', insert_twice_set (plain 170) 4 HashUtils.SUTLHash_int HashUtils.SUTLCmp_int
                          (le4 25) initial_world = Ok (2, 1) w').
Proof.
  apply (Insert_increments_Size_even_if_present
           (plain 170) 4 4 HashUtils.SUTLHash_int HashUtils.SUTLCmp_int
           (le4 25) (le4 625) (le4 626) initial_world).
  - apply always_ok_plain.
  - lia.
  - vm_compute. discriminate.
  - lia.
  - vm_compute. discriminate.
  - reflexivity.
  - reflexivity.
  - reflexivity.
  - reflexivity.
Defined.

(** ** The bucket consistency invariant *)

Lemma load_Ok d off len w bs w' :
  load d off len w = Ok bs w' →
  w' = w ∧ off + len ≤ blen d ∧ bs = take (Z.to_nat len) (drop (Z.to_nat off) d).
Proof.
  unfold load. destruct (Z.leb_spec (off + len) (blen d)) as [Hin | _]; [| discriminate].
  intros H. apply ret_Ok in H as [-> ->]. auto.
Qed.

Lemma store_Ok d off bs w d' w' :
  0 ≤ off → store d off bs w = Ok d' w' →
  w' = w ∧ off + blen bs ≤ blen d ∧ blen d' = blen d.
Proof.
  intros Hoff. unfold store.
  destruct (Z.leb_spec (off + blen bs) (blen d)) as [Hin | _]; [| discriminate].
  intros H. apply ret_Ok in H as [-> ->]. split; [reflexivity |]. split; [assumption |].
  unfold blen in *. rewrite !length_app, length_take, length_drop. lia.
Qed.

Section BucketInvariant.
Variable P : platform.
Variables (K V L : Z).
Hypothesis HK : 0 < K.
Hypothesis HV : 0 < V.
(** The allocator never returns a block of more than [L] data bytes, and
    [L] is small enough that no index or size computed on a bucket wraps. *)
Hypothesis Hlimit : ∀ n sz, alloc_ok P n sz = true → sz ≤ HEADER + L.
Hypothesis HL : 0 ≤ L.
Hypothesis HLK : L + K + 2 + HEADER ≤ SIZE_MAX.
Hypothesis HLV : L + V + 2 + HEADER ≤ SIZE_MAX.
Hypothesis HKL : K * L ≤ SIZE_MAX.
Hypothesis HVL : V * L ≤ SIZE_MAX.
Local Abbreviation cvec := (cvec L).
Local Abbreviation bucket_inv := (bucket_inv K V L).
Local Abbreviation table_inv := (table_inv K V L).

Lemma cvec_wf b : cvec b → vector_wf b.
Proof.
  intros (He & Hs & Hd & Hc).
  split; rewrite ?He, ?Z.mul_1_r; unfold HEADER, sizeof_size_t, SIZE_MAX in *; lia.
Qed.

Lemma cvec_empty : cvec (empty_vector 1).
Proof. unfold cvec. simpl. unfold blen. simpl. lia. Qed.

(** Erasing from a vector of bytes never faults and leaves a vector of bytes. *)
Lemma EraseN_cvec b at_ count w :
  cvec b → 0 ≤ at_ → 0 ≤ count → at_ + count ≤ SIZE_MAX →
  ∃ b' w', Vector.SUTLVectorEraseN (Some b) at_ count w = Ok (Some b') w' ∧ cvec b' ∧
    Vector.Size b' = (if at_ + count <=? Vector.Size b then Vector.Size b - count
                      else if at_ <=? Vector.Size b then at_ else Vector.Size b).
Proof.
  intros Hc Hat Hcount Hfit. pose proof Hc as (He & Hs & Hd & Hcap).
  unfold Vector.SUTLVectorEraseN.
  destruct (Z.leb_spec (at_ + count) (Vector.Size b)) as [Hin | Hout].
  - rewrite EraseN_spec by (first [apply cvec_wf; assumption | lia]).
    do 2 eexists. split; [reflexivity |]. split; [| reflexivity].
    unfold cvec. simpl. split; [assumption |]. split; [lia |]. split; [| assumption].
    unfold erase_data. destruct (at_ + count =? Vector.Size b); [assumption |].
    rewrite He, !Z.mul_1_l, Z.mul_1_r.
    unfold blen in *. rewrite length_poke; rewrite ?length_peek by lia; lia.
  - destruct (Z.leb_spec at_ (Vector.Size b)) as [Hle | Hgt].
    + rewrite EraseN_clamps by (rewrite ?wrap_small by lia; unfold SIZE_MAX in *; lia).
      do 2 eexists. split; [reflexivity |]. split; [| reflexivity].
      unfold cvec. simpl. repeat split; first [assumption | lia].
    + rewrite EraseN_rejects by lia.
      do 2 eexists. split; [reflexivity |]. split; [assumption | reflexivity].
Qed.

(** When growing fails the handle is [NULL] and the size is written through it. *)
Lemma Resize_fails b size w :
  Vector.Size b < size → Vector.Capacity b < size → Vector.Elemsize b = 1 →
  0 ≤ Vector.Size b → size + 2 + HEADER ≤ SIZE_MAX →
  alloc_ok P (allocs w) (HEADER + (size + 2)) = false →
  Vector.SUTL_InternalVectorResize P (Some b) size w = Fault NullHandle.
Proof.
  intros Hs Hc He H0 Hfit Hfail.
  unfold Vector.SUTL_InternalVectorResize, Vector.SUTL_InternalVectorReserve. vred.
  destruct (Z.ltb_spec (Vector.Size b) size); [| lia]. simpl.
  destruct (Z.ltb_spec (Vector.Capacity b) size); [| lia].
  rewrite (wrap_small (size + 2)) by words.
  destruct (Z.ltb_spec (size + 2) (Vector.Size b)); [lia |].
  rewrite He, Z.mul_1_r. rewrite (wrap_small (size + 2)) by words.
  change (sizeof_size_t * 3) with HEADER.
  rewrite (wrap_small (HEADER + (size + 2))) by words.
  unfold SHRN_REALLOC. rewrite Hfail. reflexivity.
Qed.

(** Appending to a vector of bytes, when it returns, leaves a vector of
    bytes longer by [count]. *)
Lemma PushN_cvec b ptr count w p h w' :
  cvec b → 0 < count → L + count + 2 + HEADER ≤ SIZE_MAX →
  Vector.SUTLVectorPushN P (Some b) ptr count w = Ok (p, h) w' →
  ∃ b', h = Some b' ∧ cvec b' ∧ Vector.Size b' = Vector.Size b + count.
Proof.
  intros Hc Hcount Hfit H. pose proof Hc as (He & Hs & Hd & Hcap).
  unfold Vector.SUTLVectorPushN, Vector.SUTLVectorInsertN in H.
  apply bind_Ok in H as (s & w0 & Hs0 & H).
  vred_in Hs0. apply ret_Ok in Hs0 as [-> ->].
  unfold Vector.SUTL_InternalVectorInsertN in H.
  apply bind_Ok in H as (s & w0 & Hs0 & H).
  vred_in Hs0. apply ret_Ok in Hs0 as [-> ->].
  rewrite Z.ltb_irrefl in H.
  rewrite (wrap_small (Vector.Size b + count)) in H by words.
  apply bind_Ok in H as (v1 & w1 & Hr & H).
  rewrite Z.eqb_refl in H.
  apply bind_Ok in H as (v2 & w2 & Hv2 & H). apply ret_Ok in Hv2 as [-> ->].
  assert (Hb1 : ∃ b1, v1 = Some b1 ∧ cvec b1 ∧ Vector.Size b1 = Vector.Size b + count).
  { destruct (Z.lt_ge_cases (Vector.Capacity b) (Vector.Size b + count)) as [Hgrow | Hkeep].
    - destruct (alloc_ok P (allocs w) (HEADER + (Vector.Size b + count + 2))) eqn:Ea.
      + rewrite Resize_grow in Hr
          by (rewrite ?He, ?Z.mul_1_r; first [assumption | words]).
        apply ret_Ok in Hr as [-> _]. eexists. split; [reflexivity |].
        apply Hlimit in Ea.
        unfold cvec. simpl. rewrite He, Z.mul_1_r. unfold blen. rewrite length_resized.
        repeat split; lia.
      + rewrite Resize_fails in Hr by (first [assumption | words]). discriminate Hr.
    - rewrite Resize_keep in Hr by lia.
      apply ret_Ok in Hr as [-> _]. eexists. split; [reflexivity |].
      unfold cvec. simpl. repeat split; first [assumption | lia]. }
  destruct Hb1 as (b1 & -> & (He1 & Hs1 & Hd1 & Hcap1) & Hsz1).
  apply bind_Ok in H as (dst & w3 & Hdst & H).
  vred_in Hdst. apply ret_Ok in Hdst as [-> ->].
  apply bind_Ok in H as (es & w4 & Hes & H).
  vred_in Hes. apply ret_Ok in Hes as [-> ->].
  apply bind_Ok in H as (v3 & w5 & Hcpy & H).
  apply ret_Ok in H as [H _]. injection H as _ ->.
  unfold Vector.SHRN_MEMCPY in Hcpy. vred_in Hcpy.
  apply bind_Ok in Hcpy as (bs & w6 & Hld & Hcpy).
  apply bind_Ok in Hcpy as (d & w7 & Hst & Hcpy).
  apply ret_Ok in Hcpy as [-> _].
  apply store_Ok in Hst as (_ & _ & Hlen); [| apply wrap_range].
  eexists. split; [reflexivity |].
  unfold cvec. simpl. repeat split; first [assumption | lia].
Qed.

(** What the invariant says in the words of the specification. *)
Lemma table_inv_entries hm b :
  table_inv hm → 0 ≤ b < Hashmap.SUTL_HASHMAP_BUCKET_COUNT →
  Hashmap.entries (Hashmap.bucket (Hashmap.Keys hm) b) K
  = Hashmap.entries (Hashmap.bucket (Hashmap.Values hm) b) V.
Proof.
  intros (_ & _ & _ & _ & Hb) Hrange. unfold Hashmap.SUTL_HASHMAP_BUCKET_COUNT in Hrange.
  specialize (Hb (Z.to_nat b) ltac:(lia)). unfold Hashmap.bucket, Hashmap.entries.
  destruct (default None (Hashmap.Keys hm !! Z.to_nat b)) as [kb |],
           (default None (Hashmap.Values hm !! Z.to_nat b)) as [vb |]; simpl in Hb.
  - destruct Hb as (_ & _ & n & _ & -> & ->). rewrite !Z.div_mul by lia. reflexivity.
  - destruct Hb as (_ & ->). apply Z.div_0_l. lia.
  - rewrite Hb. symmetry. apply Z.div_0_l. lia.
  - reflexivity.
Qed.

Lemma VectorNew_new_handle w h w' :
  Vector.SUTLVectorNew P 1 w = Ok h w' → new_handle h.
Proof.
  unfold Vector.SUTLVectorNew, Vector.SUTL_InternalVectorNew, SHRN_MALLOC, SHRN_REALLOC, bind.
  destruct (alloc_ok P (allocs w) (sizeof_size_t * 3)); simpl; intros H.
  - apply ret_Ok in H as [-> _]. right. reflexivity.
  - apply ret_Ok in H as [-> _]. left. reflexivity.
Qed.

Lemma new_buckets_new n w ks vs w' :
  Hashmap.new_buckets P n w = Ok (ks, vs) w' →
  length ks = n ∧ length vs = n ∧ Forall new_handle ks ∧ Forall new_handle vs.
Proof.
  revert w ks vs w'. induction n as [| n IH]; intros w ks vs w' H.
  - apply ret_Ok in H as [H _]. injection H as -> ->. auto.
  - simpl in H.
    apply bind_Ok in H as (kv & w1 & Hkv & H). apply VectorNew_new_handle in Hkv.
    apply bind_Ok in H as (vv & w2 & Hvv & H). apply VectorNew_new_handle in Hvv.
    apply bind_Ok in H as ([ks' vs'] & w3 & Hrest & H).
    apply IH in Hrest as (Lk & Lv & Fk & Fv).
    apply ret_Ok in H as [H _]. injection H as -> ->. simpl.
    repeat split; first [lia | constructor; assumption].
Qed.

Lemma new_handles_inv kh vh : new_handle kh → new_handle vh → bucket_inv kh vh.
Proof.
  intros [-> | ->] [-> | ->]; simpl; auto using cvec_empty.
  split; [apply cvec_empty |]. split; [apply cvec_empty |].
  exists 0. simpl. lia.
Qed.

Lemma Resize_handle h size w h' w' :
  Vector.SUTLVectorResize P h size w = Ok h' w' → h' ≠ None.
Proof.
  unfold Vector.SUTLVectorResize, Vector.SUTL_InternalVectorResize. intros H.
  apply bind_Ok in H as (s & w1 & _ & H).
  apply bind_Ok in H as (v1 & w2 & _ & H).
  unfold Vector.set_Size in H. apply bind_Ok in H as (b & w3 & _ & H).
  apply ret_Ok in H as [-> _]. discriminate.
Qed.

Lemma HashmapNew_inv hash cmp w hm w' :
  Hashmap.SUTLHashmapNew P K V hash cmp w = Ok hm w' → table_inv hm.
Proof.
  unfold Hashmap.SUTLHashmapNew, Hashmap.SUTL_InternalHashmapNew. intros H.
  apply bind_Ok in H as (pk & w1 & _ & H).
  apply bind_Ok in H as (pv & w2 & _ & H).
  apply bind_Ok in H as (pk' & w3 & _ & H).
  apply bind_Ok in H as (pv' & w4 & _ & H).
  apply bind_Ok in H as ([ks vs] & w5 & Hb & H).
  apply ret_Ok in H as [-> _].
  apply new_buckets_new in Hb as (Lk & Lv & Fk & Fv).
  change (Z.to_nat Hashmap.SUTL_HASHMAP_BUCKET_COUNT) with 32%nat in Lk, Lv.
  unfold table_inv. simpl. repeat split; try assumption.
  intros i Hi.
  destruct (lookup_lt_is_Some_2 ks i ltac:(lia)) as [kh Ek].
  destruct (lookup_lt_is_Some_2 vs i ltac:(lia)) as [vh Ev].
  rewrite Ek, Ev. simpl.
  apply new_handles_inv.
  - eapply (proj1 (Forall_lookup _ _) Fk). exact Ek.
  - eapply (proj1 (Forall_lookup _ _) Fv). exact Ev.
Qed.

(** Staging a key or a value touches the scratch vectors only. *)
Lemma stage_key_inv hm k w hm' w' :
  Hashmap.stage_key hm k w = Ok hm' w' → table_inv hm → table_inv hm'.
Proof.
  unfold Hashmap.stage_key. intros H Hinv.
  apply bind_Ok in H as (pk & w1 & _ & H).
  apply bind_Ok in H as (d & w2 & _ & H).
  apply ret_Ok in H as [-> _]. exact Hinv.
Qed.

Lemma stage_value_inv hm v w hm' w' :
  Hashmap.stage_value hm v w = Ok hm' w' → table_inv hm → table_inv hm'.
Proof.
  unfold Hashmap.stage_value. intros H Hinv.
  apply bind_Ok in H as (pk & w1 & _ & H).
  apply bind_Ok in H as (d & w2 & _ & H).
  apply ret_Ok in H as [-> _]. exact Hinv.
Qed.

(** Replacing the two arrays of one bucket by arrays that agree. *)
Lemma table_inv_update hm hm' (index : Z) kh vh :
  table_inv hm → 0 ≤ index < 32 →
  Hashmap.KeySize hm' = Hashmap.KeySize hm →
  Hashmap.ValueSize hm' = Hashmap.ValueSize hm →
  Hashmap.Keys hm' = <[Z.to_nat index := kh]> (Hashmap.Keys hm) →
  Hashmap.Values hm' = <[Z.to_nat index := vh]> (Hashmap.Values hm) →
  bucket_inv kh vh →
  table_inv hm'.
Proof.
  intros (H1 & H2 & H3 & H4 & H5) Hi EK EV Ek Ev Hb.
  unfold table_inv. rewrite EK, EV, Ek, Ev, !length_insert.
  repeat split; try assumption.
  intros i Hlt. destruct (decide (i = Z.to_nat index)) as [-> | Hne].
  - rewrite !list_lookup_insert_eq by lia. exact Hb.
  - rewrite !list_lookup_insert_ne by congruence. apply H5. exact Hlt.
Qed.

Lemma deref_Ok h w b w' : Vector.deref h w = Ok b w' → h = Some b ∧ w' = w.
Proof.
  destruct h as [b0 |]; simpl; [| discriminate].
  intros H. apply ret_Ok in H as [-> ->]. auto.
Qed.

Lemma VectorSize_Ok h w s w' :
  Vector.SUTLVectorSize h w = Ok s w' → ∃ b, h = Some b ∧ s = Vector.Size b ∧ w' = w.
Proof.
  unfold Vector.SUTLVectorSize. intros H.
  apply bind_Ok in H as (b & w1 & Hd & H). apply deref_Ok in Hd as [-> ->].
  apply ret_Ok in H as [-> ->]. eauto.
Qed.

Lemma find_scan_range hm index k n i w j w' :
  Hashmap.find_scan hm index k n i w = Ok (Some j) w' → i ≤ j < i + Z.of_nat n.
Proof.
  revert i w. induction n as [| n IH]; intros i w H; simpl in H.
  - apply ret_Ok in H as [H _]. discriminate H.
  - apply bind_Ok in H as (c & w1 & _ & H). destruct c.
    + apply ret_Ok in H as [H _]. injection H as ->. lia.
    + apply IH in H. lia.
Qed.

Lemma table_inv_set_Size hm s : table_inv hm → table_inv (Hashmap.set_Size hm s).
Proof. intros H. exact H. Qed.

Lemma bucket_index_range hm k : 0 ≤ Hashmap.bucket_index hm k < 32.
Proof. unfold Hashmap.bucket_index. apply wrap_mod_bucket. Qed.

(** [Insert], when it returns, keeps the invariant. *)
Lemma Insert_inv hm k v w r hm' w' :
  Hashmap.SUTLHashmapInsert P hm k v w = Ok (r, hm') w' → table_inv hm → table_inv hm'.
Proof.
  unfold Hashmap.SUTLHashmapInsert. intros H Hinv.
  apply bind_Ok in H as (hm1 & w1 & H1 & H). apply stage_key_inv in H1; [| assumption].
  apply bind_Ok in H as (hm2 & w2 & H2 & H). apply stage_value_inv in H2; [| assumption].
  clear Hinv H1 hm hm1 w w1.
  unfold Hashmap.SUTL_InternalHashmapInsert in H.
  apply bind_Ok in H as (k' & w3 & _ & H).
  pose proof (bucket_index_range hm2 k') as Hidx.
  set (index := Hashmap.bucket_index hm2 k') in *.
  cbn [Hashmap.set_Size Hashmap.Keys Hashmap.KeySize Hashmap.ParamK] in H.
  apply bind_Ok in H as (ksize & w4 & Hks & H).
  apply VectorSize_Ok in Hks as (kb & Ekb & -> & ->).
  pose proof H2 as (EK & EV & LK & LV & Hb).
  specialize (Hb (Z.to_nat index) ltac:(lia)).
  unfold Hashmap.bucket in Ekb. rewrite Ekb in Hb.
  destruct (Hashmap.KeySize hm2 =? 0); [discriminate H |].
  apply bind_Ok in H as (value & w5 & _ & H).
  destruct value as [p |].
  - apply ret_Ok in H as [H _]. injection H as _ ->. exact H2.
  - apply bind_Ok in H as (pk & w6 & _ & H).
    apply bind_Ok in H as ([p1 kh] & w7 & Hp1 & H).
    unfold Hashmap.bucket in Hp1. rewrite Ekb, EK in Hp1.
    assert (Hck : cvec kb).
    { destruct (default None (Hashmap.Values hm2 !! Z.to_nat index)); simpl in Hb; tauto. }
    apply PushN_cvec in Hp1 as (kb' & -> & Hck' & Sk'); [| assumption | lia | lia].
    cbn [Hashmap.set_Keys Hashmap.set_Size Hashmap.Values Hashmap.ParamV
         Hashmap.ValueSize fst snd] in H.
    apply bind_Ok in H as (pv & w8 & _ & H).
    apply bind_Ok in H as ([p2 vh] & w9 & Hp2 & H).
    apply ret_Ok in H as [H _]. injection H as _ ->.
    unfold Hashmap.bucket in Hp2. rewrite EV in Hp2.
    destruct (default None (Hashmap.Values hm2 !! Z.to_nat index)) as [vb |] eqn:Evb.
    + simpl in Hb. destruct Hb as (_ & Hcv & n & Hn & Sk & Sv).
      apply PushN_cvec in Hp2 as (vb' & -> & Hcv' & Sv'); [| assumption | lia | lia].
      apply (table_inv_update hm2 _ index (Some kb') (Some vb')); try assumption;
        try reflexivity.
      simpl. split; [assumption |]. split; [assumption |].
      exists (n + 1). split; [lia |]. rewrite Sk', Sv', Sk, Sv. lia.
    + unfold Vector.SUTLVectorPushN, Vector.SUTLVectorSize, bind in Hp2. simpl in Hp2.
      discriminate Hp2.
Qed.

(** [Erase], when it returns, keeps the invariant, also when the scan
    matched past the live entries. *)
Lemma Erase_inv hm k w hm' w' :
  Hashmap.SUTLHashmapErase hm k w = Ok hm' w' → table_inv hm → table_inv hm'.
Proof.
  unfold Hashmap.SUTLHashmapErase. intros H Hinv.
  apply bind_Ok in H as (hm1 & w1 & H1 & H). apply stage_key_inv in H1; [| assumption].
  clear Hinv hm w.
  unfold Hashmap.SUTL_InternalHashmapErase in H.
  apply bind_Ok in H as (k' & w3 & _ & H).
  pose proof (bucket_index_range hm1 k') as Hidx.
  set (index := Hashmap.bucket_index hm1 k') in *.
  apply bind_Ok in H as (ksize & w4 & Hks & H).
  apply VectorSize_Ok in Hks as (kb & Ekb & -> & ->).
  pose proof H1 as (EK & EV & LK & LV & Hb).
  specialize (Hb (Z.to_nat index) ltac:(lia)).
  unfold Hashmap.bucket in Ekb. rewrite Ekb in Hb.
  apply bind_Ok in H as (found & w5 & Hscan & H).
  destruct found as [i |].
  2: { apply ret_Ok in H as [-> _]. exact H1. }
  apply find_scan_range in Hscan.
  destruct (default None (Hashmap.Values hm1 !! Z.to_nat index)) as [vb |] eqn:Evb;
    simpl in Hb.
  2: { destruct Hb as (_ & Hz). rewrite Hz in Hscan. simpl in Hscan. lia. }
  destruct Hb as (Hck & Hcv & n & Hn & Sk & Sv).
  pose proof Hck as (_ & Hsk & _ & Hcapk).
  assert (Hi : 0 ≤ i ∧ i + 1 ≤ L) by lia.
  assert (HiK : 0 ≤ i * K ∧ i * K + K ≤ SIZE_MAX) by nia.
  assert (HiV : 0 ≤ i * V ∧ i * V + V ≤ SIZE_MAX) by nia.
  cbn [Hashmap.set_Keys Hashmap.set_Values Hashmap.Values Hashmap.Keys
       Hashmap.ValueSize Hashmap.KeySize] in H.
  rewrite EK, EV in H.
  rewrite (wrap_small (i * K)) in H by lia.
  unfold Hashmap.bucket in H. rewrite Ekb in H.
  destruct (EraseN_cvec kb (i * K) K w5 Hck) as (kb' & wk & Eek & Hck' & Sk'); try lia.
  unfold Vector.SUTLVectorEraseN in Eek.
  unfold bind at 1 in H. unfold Vector.SUTLVectorEraseN at 1 in H. rewrite Eek in H.
  cbn [Hashmap.set_Keys Hashmap.Values] in H. rewrite Evb in H.
  rewrite (wrap_small (i * V)) in H by lia.
  destruct (EraseN_cvec vb (i * V) V wk Hcv) as (vb' & wv & Eev & Hcv' & Sv'); try lia.
  unfold Vector.SUTLVectorEraseN in Eev.
  unfold bind at 1 in H. unfold Vector.SUTLVectorEraseN at 1 in H. rewrite Eev in H.
  apply ret_Ok in H as [-> _].
  apply (table_inv_update hm1 _ index (Some kb') (Some vb')); try assumption;
    try reflexivity.
  simpl. split; [assumption |]. split; [assumption |].
  rewrite Sk in Sk'. rewrite Sv in Sv'.
  destruct (Z.lt_ge_cases i n) as [Hlt | Hge].
  - exists (n - 1). split; [lia |].
    destruct (Z.leb_spec (i * K + K) (n * K)); [| nia].
    destruct (Z.leb_spec (i * V + V) (n * V)); [| nia].
    lia.
  - exists n. split; [lia |].
    destruct (Z.leb_spec (i * K + K) (n * K)); [nia |].
    destruct (Z.leb_spec (i * V + V) (n * V)); [nia |].
    destruct (Z.leb_spec (i * K) (n * K)), (Z.leb_spec (i * V) (n * V)); nia.
Qed.

Lemma Get_inv hm k w p hm' w' :
  Hashmap.SUTLHashmapGet hm k w = Ok (p, hm') w' → table_inv hm → table_inv hm'.
Proof.
  unfold Hashmap.SUTLHashmapGet. intros H Hinv.
  apply bind_Ok in H as (hm1 & w1 & H1 & H). apply stage_key_inv in H1; [| assumption].
  apply bind_Ok in H as (q & w2 & _ & H).
  apply ret_Ok in H as [H _]. injection H as _ ->. exact H1.
Qed.

End BucketInvariant.

Lemma run_ops_inv P K V L ops :
  0 < K → 0 < V →
  (∀ n sz, alloc_ok P n sz = true → sz ≤ HEADER + L) →
  0 ≤ L → L + K + 2 + HEADER ≤ SIZE_MAX → L + V + 2 + HEADER ≤ SIZE_MAX →
  K * L ≤ SIZE_MAX → V * L ≤ SIZE_MAX →
  ∀ hm w hm' w', run_ops P hm ops w = Ok hm' w' → table_inv K V L hm → table_inv K V L hm'.
Proof.
  intros HK HV Hlim HL HLK HLV HKL HVL.
  induction ops as [| o ops IH]; intros hm w hm' w' H Hinv; simpl in H.
  - apply ret_Ok in H as [-> _]. exact Hinv.
  - apply bind_Ok in H as (hm1 & w1 & Ho & H).
    apply (IH _ _ _ _ H). clear H IH.
    destruct o as [k v | k | k]; simpl in Ho.
    + apply bind_Ok in Ho as ([p hm2] & w2 & Hi & Ho).
      apply ret_Ok in Ho as [-> _]. simpl.
      eapply (Insert_inv P K V L); eassumption.
    + eapply (Erase_inv K V L); eassumption.
    + apply bind_Ok in Ho as ([p hm2] & w2 & Hg & Ho).
      apply ret_Ok in Ho as [-> _]. simpl.
      eapply (Get_inv K V L); eassumption.
Qed.

(** C5. Starting from a newly created hashmap, after every finite
    sequence of Insert, Erase and Get calls, for every bucket the number of
    key entries (bytes of the key array divided by [KeySize]) equals the
    number of value entries (bytes of the value array divided by
    [ValueSize]).  The allocator hands out at most [L] data bytes per
    block, [L] small enough that sizes and offsets do not wrap. *)
Theorem bucket_consistency (P : platform) (K V L : Z) hash cmp
        (ops : list map_op) (w : world) (hm : Hashmap.SUTLHashmap) (w' : world) :
  0 < K → 0 < V →
  (∀ n sz, alloc_ok P n sz = true → sz ≤ HEADER + L) →
  0 ≤ L → L + K + 2 + HEADER ≤ SIZE_MAX → L + V + 2 + HEADER ≤ SIZE_MAX →
  K * L ≤ SIZE_MAX → V * L ≤ SIZE_MAX →
  (hm0 <- Hashmap.SUTLHashmapNew P K V hash cmp ;; run_ops P hm0 ops) w = Ok hm w' →
  bucket_consistent hm.
Proof.
  intros HK HV Hlim HL HLK HLV HKL HVL H.
  apply bind_Ok in H as (hm0 & w0 & Hnew & H).
  apply (HashmapNew_inv P K V L) in Hnew; [| assumption].
  apply (run_ops_inv P K V L ops HK HV Hlim HL HLK HLV HKL HVL _ _ _ _ H) in Hnew.
  intros b Hb. destruct Hnew as (EK & EV & Hrest). rewrite EK, EV.
  apply (table_inv_entries K V L); try assumption.
  unfold table_inv. auto.
Qed.

Lemma bucket_consistency_witness :
  ∃ hm w',
    (hm0 <- Hashmap.SUTLHashmapNew (limited 1000 170) 4 4 sample_hash sample_cmp ;;
     run_ops (limited 1000 170) hm0 sample_ops) initial_world = Ok hm w' ∧
    bucket_consistent hm.
Proof.
  eexists. eexists. split.
  - vm_compute. reflexivity.
  - eapply (bucket_consistency (limited 1000 170) 4 4 1000 sample_hash sample_cmp
                               sample_ops initial_world).
    + lia.
    + lia.
    + intros n sz H. simpl in H. apply Z.leb_le in H. exact H.
    + lia.
    + vm_compute. discriminate.
    + vm_compute. discriminate.
    + vm_compute. discriminate.
    + vm_compute. discriminate.
    + vm_compute. reflexivity.
Defined.

(** * Further properties of the code *)

(** ** Vectors: what insertion, erasure and reallocation do to the elements *)


Lemma prefix_of_prefix (l1 l2 : list Z) (n a : nat) :
  take n l1 = take n l2 → (a ≤ n)%nat → take a l1 = take a (take n l2).
Proof.
  intros Heq Ha. rewrite <- Heq, take_take, Nat.min_l by lia. reflexivity.
Qed.

Lemma window_of_prefix (l1 l2 : list Z) (n a : nat) :
  take n l1 = take n l2 → take (n - a) (drop a l1) = drop a (take n l2).
Proof.
  intros Heq. rewrite <- Heq. symmetry. apply skipn_firstn_comm.
Qed.

Lemma insert_shape (d1 ptr : list Z) (A C S : nat) :
  (A ≤ S)%nat → (S + C ≤ length d1)%nat → (C ≤ length ptr)%nat →
  take (S + C) (poke (poke d1 (A + C) (peek d1 A (S - A))) A (peek ptr 0 C))
  = take A d1 ++ take C ptr ++ take (S - A) (drop A d1).
Proof.
  intros HAS HSC HCp.
  assert (L2 : length (poke d1 (A + C) (peek d1 A (S - A))) = length d1).
  { apply length_poke. rewrite length_peek by lia. lia. }
  apply list_eq. intros j.
  destruct (decide (j < A)%nat) as [Hb | Hb].
  - rewrite lookup_take_lt by lia.
    rewrite lookup_poke_before by lia. rewrite lookup_poke_before by lia.
    rewrite lookup_app_l by (rewrite length_take; lia).
    rewrite lookup_take_lt by lia. reflexivity.
  - rewrite lookup_app_r by (rewrite length_take; lia).
    rewrite length_take, Nat.min_l by lia.
    destruct (decide (j < A + C)%nat) as [Hi | Hi].
    + rewrite lookup_take_lt by lia.
      rewrite lookup_poke_inside by (rewrite ?length_peek by (simpl; lia); lia).
      rewrite lookup_peek by lia.
      rewrite lookup_app_l by (rewrite length_take; lia).
      rewrite lookup_take_lt by lia. reflexivity.
    + rewrite lookup_app_r by (rewrite length_take; lia).
      rewrite length_take, Nat.min_l by lia.
      destruct (decide (j < S + C)%nat) as [Hj | Hj].
      * rewrite lookup_take_lt by lia.
        rewrite lookup_poke_after by (rewrite ?length_peek by (simpl; lia); lia).
        rewrite lookup_poke_inside by (rewrite ?length_peek by lia; lia).
        rewrite lookup_peek by lia.
        rewrite lookup_take_lt by lia. rewrite lookup_drop. f_equal. lia.
      * rewrite !lookup_take_ge by lia. reflexivity.
Qed.

Lemma erase_shape (d : list Z) (A C S : nat) :
  (A + C ≤ S)%nat → (S ≤ length d)%nat →
  take (S - C) (poke d A (peek d (A + C) (S - (A + C))))
  = take A d ++ take (S - (A + C)) (drop (A + C) d).
Proof.
  intros HAS HSd.
  apply list_eq. intros j.
  destruct (decide (j < A)%nat) as [Hb | Hb].
  - rewrite lookup_take_lt by lia. rewrite lookup_poke_before by lia.
    rewrite lookup_app_l by (rewrite length_take; lia).
    rewrite lookup_take_lt by lia. reflexivity.
  - rewrite lookup_app_r by (rewrite length_take; lia).
    rewrite length_take, Nat.min_l by lia.
    destruct (decide (j < S - C)%nat) as [Hj | Hj].
    + rewrite lookup_take_lt by lia.
      rewrite lookup_poke_inside by (rewrite ?length_peek by lia; lia).
      rewrite lookup_peek by lia.
      rewrite lookup_take_lt by lia. rewrite lookup_drop. reflexivity.
    + rewrite !lookup_take_ge by lia. reflexivity.
Qed.

Lemma insert_data_contents d1 es size at_ ptr count :
  0 < es → 0 ≤ at_ ≤ size → 0 ≤ count →
  (size + count) * es ≤ blen d1 → es * count ≤ blen ptr →
  take (Z.to_nat ((size + count) * es)) (insert_data d1 es size at_ ptr count)
  = take (Z.to_nat (es * at_)) d1 ++ take (Z.to_nat (es * count)) ptr
    ++ take (Z.to_nat (size * es) - Z.to_nat (es * at_)) (drop (Z.to_nat (es * at_)) d1).
Proof.
  intros He Hat Hc Hd Hp. unfold blen in *.
  assert (0 ≤ es * at_) by nia.
  assert (es * at_ ≤ es * size) by nia.
  assert (0 ≤ es * count) by nia.
  replace (Z.to_nat (size * es)) with (Z.to_nat (es * size)) by lia.
  set (A := Z.to_nat (es * at_)). set (C := Z.to_nat (es * count)).
  set (S := Z.to_nat (es * size)).
  assert (EA : Z.to_nat (es * (at_ + count)) = (A + C)%nat) by (unfold A, C; lia).
  assert (ES : Z.to_nat ((size - at_) * es) = (S - A)%nat) by (unfold A, S; lia).
  assert (ET : Z.to_nat ((size + count) * es) = (S + C)%nat) by (unfold S, C; lia).
  assert (HAS : (A ≤ S)%nat) by (unfold A, S; lia).
  assert (HSC : (S + C ≤ length d1)%nat) by (unfold S, C; lia).
  assert (HCp : (C ≤ length ptr)%nat) by (unfold C; lia).
  assert (Hins : insert_data d1 es size at_ ptr count =
                 poke (poke d1 (A + C) (peek d1 A (S - A))) A (peek ptr 0 C)).
  { unfold insert_data. rewrite EA, ES. fold A C.
    destruct (Z.eqb_spec at_ size) as [-> | Hne]; [| reflexivity].
    replace (S - A)%nat with 0%nat by (unfold A, S; lia).
    rewrite peek_zero, poke_nil by lia. reflexivity. }
  rewrite Hins, ET. apply insert_shape; assumption.
Qed.

Lemma erase_data_contents d es size at_ count :
  0 < es → 0 ≤ at_ → 0 ≤ count → at_ + count ≤ size → size * es ≤ blen d →
  take (Z.to_nat ((size - count) * es)) (erase_data d es size at_ count)
  = take (Z.to_nat (es * at_)) d
    ++ take (Z.to_nat (size * es) - Z.to_nat (es * (at_ + count)))
            (drop (Z.to_nat (es * (at_ + count))) d).
Proof.
  intros He Hat Hc Hs Hd. unfold blen in *.
  assert (0 ≤ es * at_) by nia.
  assert (0 ≤ es * count) by nia.
  assert (es * (at_ + count) ≤ es * size) by nia.
  replace (Z.to_nat (size * es)) with (Z.to_nat (es * size)) by lia.
  set (A := Z.to_nat (es * at_)). set (C := Z.to_nat (es * count)).
  set (S := Z.to_nat (es * size)).
  assert (EA : Z.to_nat (es * (at_ + count)) = (A + C)%nat) by (unfold A, C; lia).
  assert (ES : Z.to_nat ((size - count - at_) * es) = (S - (A + C))%nat)
    by (unfold A, C, S; lia).
  assert (ET : Z.to_nat ((size - count) * es) = (S - C)%nat) by (unfold S, C; lia).
  assert (HAS : (A + C ≤ S)%nat) by (unfold A, C, S; lia).
  assert (HSd : (S ≤ length d)%nat) by (unfold S; lia).
  assert (Hera : erase_data d es size at_ count = poke d A (peek d (A + C) (S - (A + C)))).
  { unfold erase_data. rewrite EA, ES. fold A.
    destruct (Z.eqb_spec (at_ + count) size) as [Heq | Hne]; [| reflexivity].
    replace (S - (A + C))%nat with 0%nat by (unfold A, C, S; subst size; lia).
    rewrite peek_zero, poke_nil by lia. reflexivity. }
  rewrite Hera, ET, EA. apply erase_shape; assumption.
Qed.

Lemma length_erase_data d es size at_ count :
  0 < es → 0 ≤ at_ → 0 ≤ count → at_ + count ≤ size → size * es ≤ blen d →
  length (erase_data d es size at_ count) = length d.
Proof.
  intros He Hat Hc Hs Hd. unfold erase_data, blen in *.
  assert (0 ≤ es * at_) by nia.
  assert (0 ≤ es * count) by nia.
  assert (es * (at_ + count) ≤ es * size) by nia.
  assert ((size - count - at_) * es = es * size - es * (at_ + count)) by lia.
  destruct (at_ + count =? size); [reflexivity |].
  rewrite length_poke; rewrite ?length_peek by lia; lia.
Qed.

(** X1. [InsertN(v, at, ptr, count)] with [at ≤ size] returns the pointer
    to the element at [at] and leaves in the vector the elements before
    [at], then the [count] elements read at [ptr], then the elements that
    were at [at] and after; no error is reported. *)
Theorem InsertN_contents (P : platform) (b : Vector.SUTLVector) (at_ : Z)
        (ptr : list Z) (count : Z) (w : world) :
  vector_wf b → 0 ≤ at_ ≤ Vector.Size b → 0 ≤ count →
  HEADER + (Vector.Size b + count + 2) * Vector.Elemsize b ≤ SIZE_MAX →
  Vector.Elemsize b * count ≤ blen ptr →
  (Vector.Capacity b < Vector.Size b + count →
   alloc_ok P (allocs w) (HEADER + (Vector.Size b + count + 2) * Vector.Elemsize b) = true) →
  ∃ b' w',
    Vector.SUTLVectorInsertN P (Some b) at_ ptr count w
    = Ok (Some (Vector.Elemsize b * at_), Some b') w' ∧
    errors w' = errors w ∧ vector_wf b' ∧
    Vector.Elemsize b' = Vector.Elemsize b ∧
    Vector.Size b' = Vector.Size b + count ∧
    Vector.contents b' =
      take (Z.to_nat (Vector.Elemsize b * at_)) (Vector.contents b)
      ++ take (Z.to_nat (Vector.Elemsize b * count)) ptr
      ++ drop (Z.to_nat (Vector.Elemsize b * at_)) (Vector.contents b).
Proof.
  intros Hwf Hat Hc Hfit Hptr Hok. pose proof Hwf as [Hs He Hd Hf].
  set (r := resize_result P b (Vector.Size b + count) w).
  destruct (resize_result_wf P b (Vector.Size b + count) w Hwf) as (R1 & R2 & R3 & R4 & R5 & R6);
    [lia | lia |]. fold r in R1, R2, R3, R4, R5, R6.
  set (d := insert_data (Vector.Data r.1) (Vector.Elemsize b) (Vector.Size b) at_ ptr count).
  assert (Hd1 : (Vector.Size b + count) * Vector.Elemsize b ≤ blen (Vector.Data r.1)) by nia.
  assert (Ld : length d = length (Vector.Data r.1)) by (apply length_insert_data; lia).
  assert (0 ≤ Vector.Elemsize b * at_) by nia.
  assert (Vector.Elemsize b * at_ ≤ Vector.Size b * Vector.Elemsize b) by nia.
  assert (Hpre : take (Z.to_nat (Vector.Size b * Vector.Elemsize b)) (Vector.Data r.1)
                 = take (Z.to_nat (Vector.Size b * Vector.Elemsize b)) (Vector.Data b)).
  { apply list_eq. intros j.
    destruct (decide (j < Z.to_nat (Vector.Size b * Vector.Elemsize b))%nat).
    - rewrite !lookup_take_lt by lia. apply resize_result_prefix; [assumption |].
      unfold blen in *. nia.
    - rewrite !lookup_take_ge by lia. reflexivity. }
  exists (Vector.set_Data r.1 d), r.2.
  split; [| split; [| split; [| split; [| split]]]].
  - unfold Vector.SUTLVectorInsertN. apply InsertN_spec; assumption.
  - unfold r, resize_result.
    destruct ((Vector.Size b <? Vector.Size b + count) && (Vector.Capacity b <? Vector.Size b + count));
      reflexivity.
  - split; simpl; rewrite ?R1, ?R2; unfold blen in *; rewrite ?Ld; lia.
  - simpl. exact R2.
  - simpl. exact R1.
  - unfold Vector.contents. simpl. rewrite R1, R2. unfold d.
    rewrite insert_data_contents by lia.
    f_equal; [| f_equal].
    + apply prefix_of_prefix; [exact Hpre | lia].
    + apply window_of_prefix. exact Hpre.
Qed.

Lemma InsertN_contents_witness :
  ∃ b' w',
    Vector.SUTLVectorInsertN (plain 170) (Some (tmpvec 170)) 1 tmparr 3 initial_world
    = Ok (Some (Vector.Elemsize (tmpvec 170) * 1), Some b') w' ∧
    errors w' = errors initial_world ∧ vector_wf b' ∧
    Vector.Elemsize b' = Vector.Elemsize (tmpvec 170) ∧
    Vector.Size b' = Vector.Size (tmpvec 170) + 3 ∧
    Vector.contents b' =
      take (Z.to_nat (Vector.Elemsize (tmpvec 170) * 1)) (Vector.contents (tmpvec 170))
      ++ take (Z.to_nat (Vector.Elemsize (tmpvec 170) * 3)) tmparr
      ++ drop (Z.to_nat (Vector.Elemsize (tmpvec 170) * 1)) (Vector.contents (tmpvec 170)).
Proof.
  apply (InsertN_contents (plain 170) (tmpvec 170) 1 tmparr 3 initial_world).
  - apply tmpvec_wf.
  - simpl. lia.
  - lia.
  - vm_compute. discriminate.
  - vm_compute. discriminate.
  - intros _. reflexivity.
Defined.

(** X2. [EraseN(v, at, count)] with [at + count ≤ size] removes the
    [count] elements from [at] on: the elements before [at] and those
    from [at + count] on remain, in order; the capacity is unchanged and
    nothing is reported or allocated. *)
Theorem EraseN_contents (b : Vector.SUTLVector) (at_ count : Z) (w : world) :
  vector_wf b → 0 ≤ at_ → 0 ≤ count → at_ + count ≤ Vector.Size b →
  ∃ b',
    Vector.SUTLVectorEraseN (Some b) at_ count w = Ok (Some b') w ∧
    vector_wf b' ∧
    Vector.Elemsize b' = Vector.Elemsize b ∧
    Vector.Capacity b' = Vector.Capacity b ∧
    Vector.Size b' = Vector.Size b - count ∧
    Vector.contents b' =
      take (Z.to_nat (Vector.Elemsize b * at_)) (Vector.contents b)
      ++ drop (Z.to_nat (Vector.Elemsize b * (at_ + count))) (Vector.contents b).
Proof.
  intros Hwf Hat Hc Hin. pose proof Hwf as [Hs He Hd Hf].
  assert (Hd1 : Vector.Size b * Vector.Elemsize b ≤ blen (Vector.Data b)) by nia.
  assert (0 ≤ Vector.Elemsize b * at_) by nia.
  assert (Vector.Elemsize b * at_ ≤ Vector.Size b * Vector.Elemsize b) by nia.
  eexists. split; [| split; [| split; [| split; [| split]]]].
  - unfold Vector.SUTLVectorEraseN. apply EraseN_spec; assumption.
  - split; simpl; unfold blen in *;
      rewrite ?length_erase_data by (unfold blen; lia); lia.
  - reflexivity.
  - reflexivity.
  - reflexivity.
  - unfold Vector.contents. simpl.
    rewrite erase_data_contents by lia.
    f_equal.
    + rewrite take_take, Nat.min_l by lia. reflexivity.
    + symmetry. apply skipn_firstn_comm.
Qed.

Lemma EraseN_contents_witness :
  ∃ b',
    Vector.SUTLVectorEraseN (Some (tmpvec 170)) 1 2 initial_world = Ok (Some b') initial_world ∧
    vector_wf b' ∧
    Vector.Elemsize b' = Vector.Elemsize (tmpvec 170) ∧
    Vector.Capacity b' = Vector.Capacity (tmpvec 170) ∧
    Vector.Size b' = Vector.Size (tmpvec 170) - 2 ∧
    Vector.contents b' =
      take (Z.to_nat (Vector.Elemsize (tmpvec 170) * 1)) (Vector.contents (tmpvec 170))
      ++ drop (Z.to_nat (Vector.Elemsize (tmpvec 170) * (1 + 2))) (Vector.contents (tmpvec 170)).
Proof.
  apply (EraseN_contents (tmpvec 170) 1 2 initial_world).
  - apply tmpvec_wf.
  - lia.
  - lia.
  - simpl. lia.
Defined.








(** X6. [PushN(v, ptr, count)] followed by [PopN(v, count)] gives back a
    vector of the size and the elements [v] had. *)
Theorem PushN_PopN_inverse (P : platform) (b : Vector.SUTLVector) (ptr : list Z)
        (count : Z) (w : world) :
  vector_wf b → 0 ≤ count →
  HEADER + (Vector.Size b + count + 2) * Vector.Elemsize b ≤ SIZE_MAX →
  Vector.Elemsize b * count ≤ blen ptr →
  (Vector.Capacity b < Vector.Size b + count →
   alloc_ok P (allocs w) (HEADER + (Vector.Size b + count + 2) * Vector.Elemsize b) = true) →
  ∃ p b1 w1 b2,
    Vector.SUTLVectorPushN P (Some b) ptr count w = Ok (Some p, Some b1) w1 ∧
    Vector.SUTLVectorPopN (Some b1) count w1 = Ok (Some b2) w1 ∧
    errors w1 = errors w ∧
    Vector.Size b1 = Vector.Size b + count ∧
    Vector.Size b2 = Vector.Size b ∧
    Vector.contents b2 = Vector.contents b.
Proof.
  intros Hwf Hc Hfit Hptr Hok. pose proof Hwf as [Hs He Hd Hf].
  set (r := resize_result P b (Vector.Size b + count) w).
  destruct (resize_result_wf P b (Vector.Size b + count) w Hwf) as (R1 & R2 & R3 & R4 & R5 & R6);
    [lia | lia |]. fold r in R1, R2, R3, R4, R5, R6.
  set (d := insert_data (Vector.Data r.1) (Vector.Elemsize b) (Vector.Size b)
                        (Vector.Size b) ptr count).
  set (b1 := Vector.set_Data r.1 d).
  assert (Hd1 : (Vector.Size b + count) * Vector.Elemsize b ≤ blen (Vector.Data r.1)) by nia.
  assert (Ld : length d = length (Vector.Data r.1)) by (apply length_insert_data; lia).
  assert (Hwf1 : vector_wf b1).
  { split; simpl; unfold blen in *; rewrite ?R1, ?R2, ?Ld; lia. }
  assert (Hbig : Vector.Size b + count ≤ SIZE_MAX)
    by (unfold HEADER, sizeof_size_t, SIZE_MAX in *; nia).
  assert (Hpre : take (Z.to_nat (Vector.Size b * Vector.Elemsize b)) (Vector.Data r.1)
                 = take (Z.to_nat (Vector.Size b * Vector.Elemsize b)) (Vector.Data b)).
  { apply list_eq. intros j.
    destruct (decide (j < Z.to_nat (Vector.Size b * Vector.Elemsize b))%nat).
    - rewrite !lookup_take_lt by lia. apply resize_result_prefix; [assumption |].
      unfold blen in *. nia.
    - rewrite !lookup_take_ge by lia. reflexivity. }
  exists (Vector.Elemsize b * Vector.Size b), b1, r.2,
    {| Vector.Size := Vector.Size b1 - count; Vector.Capacity := Vector.Capacity b1;
       Vector.Elemsize := Vector.Elemsize b1;
       Vector.Data := erase_data (Vector.Data b1) (Vector.Elemsize b1) (Vector.Size b1)
                                 (Vector.Size b) count |}.
  split; [| split; [| split; [| split; [| split]]]].
  - unfold Vector.SUTLVectorPushN, Vector.SUTLVectorInsertN. vred.
    apply InsertN_spec; first [assumption | lia].
  - unfold Vector.SUTLVectorPopN, Vector.SUTLVectorEraseN. vred.
    rewrite R1. replace (Vector.Size b + count - count) with (Vector.Size b) by lia.
    rewrite (wrap_small (Vector.Size b)) by lia.
    rewrite EraseN_spec by (simpl; rewrite ?R1; first [assumption | lia]).
    simpl. rewrite R1. do 2 f_equal. f_equal. lia.
  - unfold r, resize_result.
    destruct ((Vector.Size b <? Vector.Size b + count) && (Vector.Capacity b <? Vector.Size b + count));
      reflexivity.
  - simpl. exact R1.
  - simpl. rewrite R1. lia.
  - unfold Vector.contents. simpl. rewrite R1, R2.
    replace (Vector.Size b + count - count) with (Vector.Size b) by lia.
    unfold erase_data. rewrite Z.eqb_refl.
    assert (Hall : take (Z.to_nat ((Vector.Size b + count) * Vector.Elemsize b)) d
                   = take (Z.to_nat (Vector.Elemsize b * Vector.Size b)) (Vector.Data r.1)
                     ++ take (Z.to_nat (Vector.Elemsize b * count)) ptr
                     ++ take (Z.to_nat (Vector.Size b * Vector.Elemsize b)
                              - Z.to_nat (Vector.Elemsize b * Vector.Size b))
                             (drop (Z.to_nat (Vector.Elemsize b * Vector.Size b))
                                   (Vector.Data r.1)))
      by (apply insert_data_contents; lia).
    assert (0 ≤ Vector.Size b * Vector.Elemsize b) by nia.
    assert (Vector.Size b * Vector.Elemsize b ≤ (Vector.Size b + count) * Vector.Elemsize b)
      by nia.
    replace (take (Z.to_nat (Vector.Size b * Vector.Elemsize b)) d)
      with (take (Z.to_nat (Vector.Size b * Vector.Elemsize b))
                 (take (Z.to_nat ((Vector.Size b + count) * Vector.Elemsize b)) d))
      by (rewrite take_take, Nat.min_l by lia; reflexivity).
    rewrite Hall.
    replace (Vector.Elemsize b * Vector.Size b) with (Vector.Size b * Vector.Elemsize b) by lia.
    rewrite take_app_le by (rewrite length_take; unfold blen in *; lia).
    rewrite take_take, Nat.min_id. exact Hpre.
Qed.

Lemma PushN_PopN_inverse_witness :
  ∃ p b1 w1 b2,
    Vector.SUTLVectorPushN (plain 170) (Some (tmpvec 170)) tmparr 3 initial_world
    = Ok (Some p, Some b1) w1 ∧
    Vector.SUTLVectorPopN (Some b1) 3 w1 = Ok (Some b2) w1 ∧
    errors w1 = errors initial_world ∧
    Vector.Size b1 = Vector.Size (tmpvec 170) + 3 ∧
    Vector.Size b2 = Vector.Size (tmpvec 170) ∧
    Vector.contents b2 = Vector.contents (tmpvec 170).
Proof.
  apply (PushN_PopN_inverse (plain 170) (tmpvec 170) tmparr 3 initial_world).
  - apply tmpvec_wf.
  - lia.
  - vm_compute. discriminate.
  - vm_compute. discriminate.
  - intros _. reflexivity.
Defined.

(** X7. [PopN(v, count)] with [count] above the size reports no error: the
    index [size - count] wraps, [at + count] wraps back to the size, no
    element moves, and the size becomes [2^64 - (count - size)]. *)
Theorem PopN_underflow (b : Vector.SUTLVector) (count : Z) (w : world) :
  0 ≤ Vector.Size b < count → count ≤ SIZE_MAX →
  Vector.SUTLVectorPopN (Some b) count w =
  Ok (Some {| Vector.Size := SIZE_MAX + 1 - (count - Vector.Size b);
              Vector.Capacity := Vector.Capacity b;
              Vector.Elemsize := Vector.Elemsize b;
              Vector.Data := Vector.Data b |}) w.
Proof.
  intros Hs Hc.
  assert (E1 : wrap (Vector.Size b - count) = SIZE_MAX + 1 - (count - Vector.Size b)).
  { unfold wrap.
    replace (Vector.Size b - count)
      with (SIZE_MAX + 1 - (count - Vector.Size b) + (-1) * (SIZE_MAX + 1)) by lia.
    rewrite Z.mod_add by (unfold SIZE_MAX; lia).
    apply Z.mod_small. unfold SIZE_MAX in *. lia. }
  assert (E2 : wrap (SIZE_MAX + 1 - (count - Vector.Size b) + count) = Vector.Size b).
  { unfold wrap.
    replace (SIZE_MAX + 1 - (count - Vector.Size b) + count)
      with (Vector.Size b + 1 * (SIZE_MAX + 1)) by lia.
    rewrite Z.mod_add by (unfold SIZE_MAX; lia).
    apply Z.mod_small. unfold SIZE_MAX in *. lia. }
  unfold Vector.SUTLVectorPopN, Vector.SUTLVectorEraseN, Vector.SUTL_InternalVectorEraseN.
  vred. rewrite E1, E2.
  destruct (Z.ltb_spec (Vector.Size b) (Vector.Size b)); [lia |].
  unfold Vector.erase_shift. vred. rewrite E2, Z.eqb_refl. simpl.
  rewrite E1. reflexivity.
Qed.

Lemma PopN_underflow_witness :
  Vector.SUTLVectorPopN (Some (empty_vector 4)) 3 initial_world =
  Ok (Some {| Vector.Size := SIZE_MAX + 1 - (3 - Vector.Size (empty_vector 4));
              Vector.Capacity := Vector.Capacity (empty_vector 4);
              Vector.Elemsize := Vector.Elemsize (empty_vector 4);
              Vector.Data := Vector.Data (empty_vector 4) |}) initial_world.
Proof.
  apply (PopN_underflow (empty_vector 4) 3 initial_world).
  - simpl. lia.
  - vm_compute. discriminate.
Defined.

(** X8. [RestoreVectorDefault] of the test suite, [Resize(v, 0)] then
    [Reserve(v, 0)], brings every vector back to the state of a new one:
    no element, no capacity, a block of the header alone. *)
Theorem RestoreVectorDefault_empties (P : platform) (b : Vector.SUTLVector) (w : world) :
  vector_wf b →
  alloc_ok P (allocs w) HEADER = true →
  Test.RestoreVectorDefault P (Some b) w = Ok (Some (empty_vector (Vector.Elemsize b))) (bump w).
Proof.
  intros [Hs He Hd Hf] Hok.
  unfold Test.RestoreVectorDefault, Vector.SUTLVectorResize, Vector.SUTLVectorReserve.
  unfold bind at 1.
  rewrite Resize_shrink by lia.
  rewrite Reserve_ok by (simpl; first [assumption | lia | words]).
  reflexivity.
Qed.

Lemma RestoreVectorDefault_empties_witness :
  Test.RestoreVectorDefault (plain 170) (Some (tmpvec 170)) initial_world
  = Ok (Some (empty_vector (Vector.Elemsize (tmpvec 170)))) (bump initial_world).
Proof.
  apply (RestoreVectorDefault_empties (plain 170) (tmpvec 170) initial_world).
  - apply tmpvec_wf.
  - reflexivity.
Defined.

(** ** C strings: the library's own [strlen] and [strcmp] *)

Lemma strlen_loop_terminated s rest size w :
  no_nul s → Common.strlen_loop (s ++ 0 :: rest) size w = Ok (size + blen s) w.
Proof.
  intros Hs. revert size. induction Hs as [| c s Hc Hs IH]; intros size.
  - simpl. unfold ret, blen. simpl. f_equal. lia.
  - simpl. destruct (Z.eqb_spec c 0); [contradiction |].
    rewrite IH. unfold blen. simpl. f_equal. lia.
Qed.

Lemma strlen_loop_unterminated s size w :
  no_nul s →
  Common.strlen_loop s size w = Fault (OutOfBounds (size + blen s) 1 (size + blen s)).
Proof.
  intros Hs. revert size. induction Hs as [| c s Hc Hs IH]; intros size.
  - simpl. unfold raise, blen. simpl. rewrite Z.add_0_r. reflexivity.
  - simpl. destruct (Z.eqb_spec c 0); [contradiction |].
    rewrite IH. unfold blen. simpl. do 2 f_equal; lia.
Qed.

Lemma Strlen_c_string s str w :
  c_string s str → Common.SHRN_STRLEN str w = Ok (blen s) w.
Proof.
  intros [Hs [rest ->]]. unfold Common.SHRN_STRLEN, Common.SUTL_InternalStrlen.
  rewrite strlen_loop_terminated by assumption. reflexivity.
Qed.

(** X9. [SUTL_InternalStrlen(str)] returns the index of the first zero
    byte of the block at [str]; where the block holds no zero byte it reads
    the byte past the end of the block. *)
Theorem Strlen_first_zero (str : list Z) (w : world) :
  (∀ s, c_string s str → Common.SUTL_InternalStrlen str w = Ok (blen s) w) ∧
  (no_nul str →
   Common.SUTL_InternalStrlen str w = Fault (OutOfBounds (blen str) 1 (blen str))).
Proof.
  split.
  - intros s Hs. apply Strlen_c_string. assumption.
  - intros Hs. unfold Common.SUTL_InternalStrlen.
    rewrite strlen_loop_unterminated by assumption. reflexivity.
Qed.

Lemma Strlen_first_zero_witness :
  Common.SUTL_InternalStrlen [97; 98; 99; 0; 100] initial_world = Ok 3 initial_world ∧
  Common.SUTL_InternalStrlen [97; 98; 99] initial_world = Fault (OutOfBounds 3 1 3).
Proof.
  split.
  - apply (proj1 (Strlen_first_zero [97; 98; 99; 0; 100] initial_world) [97; 98; 99]).
    split; [repeat constructor; lia | exists [100]; reflexivity].
  - apply (proj2 (Strlen_first_zero [97; 98; 99] initial_world)).
    repeat constructor; lia.
Defined.

Lemma load_byte_lookup (d : list Z) (i : nat) c w :
  d !! i = Some c → Common.load_byte d (Z.of_nat i) w = Ok c w.
Proof.
  intros Hc. pose proof (lookup_lt_Some _ _ _ Hc) as Hlt.
  unfold Common.load_byte, bind.
  rewrite load_ok by (unfold blen; lia).
  rewrite Nat2Z.id. change (Z.to_nat 1) with 1%nat.
  rewrite (drop_S _ _ _ Hc). reflexivity.
Qed.

Lemma char_value_inj sc c0 c1 :
  byte c0 → byte c1 → Common.char_value sc c0 = Common.char_value sc c1 → c0 = c1.
Proof.
  unfold byte, Common.char_value. intros H0 H1.
  destruct sc; simpl; [| trivial].
  destruct (Z.leb_spec 128 c0), (Z.leb_spec 128 c1); lia.
Qed.

Lemma strcmp_loop_spec sc (str0 str1 : list Z) n (i : nat) w :
  (∀ j, (j < n)%nat → ∃ c0 c1, str0 !! (i + j)%nat = Some c0 ∧ str1 !! (i + j)%nat = Some c1 ∧
                               byte c0 ∧ byte c1) →
  ∃ r, Common.strcmp_loop sc str0 str1 n (Z.of_nat i) w = Ok r w ∧
       (r = 0 ↔ ∀ j, (j < n)%nat → str0 !! (i + j)%nat = str1 !! (i + j)%nat).
Proof.
  revert i. induction n as [| n IH]; intros i Hb.
  - exists 0. split; [reflexivity |]. split; [intros _ j Hj; lia | reflexivity].
  - destruct (Hb 0%nat) as (c0 & c1 & E0 & E1 & B0 & B1); [lia |].
    rewrite Nat.add_0_r in E0, E1.
    simpl. unfold bind.
    rewrite (load_byte_lookup _ _ _ _ E0), (load_byte_lookup _ _ _ _ E1).
    destruct (Z.eqb_spec (Common.char_value sc c0) (Common.char_value sc c1)) as [Heq | Hne].
    + apply char_value_inj in Heq; [| assumption | assumption]. subst c1.
      replace (Z.of_nat i + 1) with (Z.of_nat (S i)) by lia.
      destruct (IH (S i)) as (r & Hr & Hiff).
      { intros j Hj. replace (S i + j)%nat with (i + S j)%nat by lia. apply Hb. lia. }
      exists r. split; [exact Hr |]. rewrite Hiff. split.
      * intros H j Hj. destruct j as [| j].
        -- rewrite Nat.add_0_r, E0, E1. reflexivity.
        -- replace (i + S j)%nat with (S i + j)%nat by lia. apply H. lia.
      * intros H j Hj. replace (S i + j)%nat with (i + S j)%nat by lia. apply H. lia.
    + exists (Common.char_value sc c0 - Common.char_value sc c1).
      split; [reflexivity |]. split; [lia |].
      intros H. exfalso. apply Hne.
      specialize (H 0%nat). rewrite Nat.add_0_r, E0, E1 in H.
      f_equal. injection H; [trivial | lia].
Qed.

Lemma take_eq_lookup (l1 l2 : list Z) (n : nat) :
  (n ≤ length l1)%nat → (n ≤ length l2)%nat →
  (take n l1 = take n l2 ↔ ∀ j, (j < n)%nat → l1 !! j = l2 !! j).
Proof.
  intros H1 H2. split.
  - intros Heq j Hj.
    rewrite <- (lookup_take_lt l1 n), <- (lookup_take_lt l2 n) by lia.
    rewrite Heq. reflexivity.
  - intros H. apply list_eq. intros j.
    destruct (decide (j < n)%nat).
    + rewrite !lookup_take_lt by lia. apply H. lia.
    + rewrite !lookup_take_ge by lia. reflexivity.
Qed.

Lemma prefix_either_take (s0 s1 : list Z) :
  take (length s0 `min` length s1) s0 = take (length s0 `min` length s1) s1
  ↔ s0 `prefix_of` s1 ∨ s1 `prefix_of` s0.
Proof.
  split.
  - intros Heq. destruct (Nat.le_ge_cases (length s0) (length s1)) as [Hle | Hle].
    + left. rewrite Nat.min_l in Heq by lia. rewrite firstn_all in Heq.
      exists (drop (length s0) s1). rewrite Heq at 1. symmetry. apply take_drop.
    + right. rewrite Nat.min_r in Heq by lia. rewrite (firstn_all s1) in Heq.
      exists (drop (length s1) s0). rewrite <- Heq at 1. symmetry. apply take_drop.
  - intros [[k ->] | [k ->]].
    + rewrite length_app, Nat.min_l by lia.
      rewrite firstn_all, take_app_length. reflexivity.
    + rewrite length_app, Nat.min_r by lia.
      rewrite firstn_all, take_app_length. reflexivity.
Qed.

(** X10. On two C strings the library's own [strcmp] returns 0, and
    [SUTLCmp_string] built on it reports equality, exactly when one of the
    strings is a prefix of the other: the comparison stops at the length of
    the shorter string. *)
Theorem Strcmp_zero_iff_prefix (signed_char : bool) (s0 s1 str0 str1 : list Z) (w : world) :
  c_string s0 str0 → c_string s1 str1 →
  Forall byte s0 → Forall byte s1 →
  ∃ r, Common.SUTL_InternalStrcmp signed_char str0 str1 w = Ok r w ∧
       HashUtils.SUTLCmp_string signed_char str0 str1 w = Ok (r =? 0) w ∧
       (r = 0 ↔ s0 `prefix_of` s1 ∨ s1 `prefix_of` s0).
Proof.
  intros Hc0 Hc1 B0 B1.
  pose proof (Strlen_c_string _ _ w Hc0) as L0.
  pose proof (Strlen_c_string _ _ w Hc1) as L1.
  destruct Hc0 as [N0 [rest0 ->]]. destruct Hc1 as [N1 [rest1 ->]].
  set (n := (length s0 `min` length s1)%nat).
  assert (En : Z.to_nat (if blen s1 <? blen s0 then blen s1 else blen s0) = n).
  { unfold blen, n. destruct (Z.ltb_spec (Z.of_nat (length s1)) (Z.of_nat (length s0))); lia. }
  destruct (strcmp_loop_spec signed_char (s0 ++ 0 :: rest0) (s1 ++ 0 :: rest1) n 0 w)
    as (r & Hr & Hiff).
  { intros j Hj. simpl.
    destruct (lookup_lt_is_Some_2 s0 j) as [c0 E0]; [unfold n in Hj; lia |].
    destruct (lookup_lt_is_Some_2 s1 j) as [c1 E1]; [unfold n in Hj; lia |].
    exists c0, c1. rewrite !lookup_app_l by (unfold n in Hj; lia).
    repeat split; try assumption.
    - apply (proj1 (Forall_lookup _ _) B0 _ _ E0).
    - apply (proj1 (Forall_lookup _ _) B0 _ _ E0).
    - apply (proj1 (Forall_lookup _ _) B1 _ _ E1).
    - apply (proj1 (Forall_lookup _ _) B1 _ _ E1). }
  assert (HS : Common.SUTL_InternalStrcmp signed_char (s0 ++ 0 :: rest0) (s1 ++ 0 :: rest1) w
               = Ok r w).
  { unfold Common.SUTL_InternalStrcmp, bind. rewrite L0, L1, En. exact Hr. }
  exists r. split; [exact HS |]. split.
  - unfold HashUtils.SUTLCmp_string, bind. rewrite HS. reflexivity.
  - rewrite Hiff. rewrite <- prefix_either_take. fold n.
    rewrite take_eq_lookup by (unfold n; lia).
    split; intros H j Hj.
    + specialize (H j Hj). simpl in H.
      rewrite !lookup_app_l in H by (unfold n in Hj; lia). exact H.
    + simpl. rewrite !lookup_app_l by (unfold n in Hj; lia). apply H. exact Hj.
Qed.

Lemma Strcmp_zero_iff_prefix_witness :
  ∃ r, Common.SUTL_InternalStrcmp true [97; 98; 0] [97; 98; 99; 0] initial_world
       = Ok r initial_world ∧
       HashUtils.SUTLCmp_string true [97; 98; 0] [97; 98; 99; 0] initial_world
       = Ok (r =? 0) initial_world ∧
       (r = 0 ↔ [97; 98] `prefix_of` [97; 98; 99] ∨ [97; 98; 99] `prefix_of` [97; 98]).
Proof.
  apply (Strcmp_zero_iff_prefix true [97; 98] [97; 98; 99] [97; 98; 0] [97; 98; 99; 0]
                                initial_world).
  - split; [repeat constructor; lia | exists []; reflexivity].
  - split; [repeat constructor; lia | exists []; reflexivity].
  - repeat constructor; lia.
  - repeat constructor; lia.
Defined.

(** ** Strings *)

(** X11. [SUTLStringAppendP(str, ptr)] appends the bytes of the C string at
    [ptr] up to its terminating zero, which is not stored: the string grows
    by [strlen(ptr)] and is not zero-terminated by the call. *)
Theorem AppendP_appends_c_string (P : platform) (b : Vector.SUTLVector) (s ptr : list Z)
        (w : world) :
  vector_wf b → Vector.Elemsize b = 1 →
  c_string s ptr →
  HEADER + (Vector.Size b + blen s + 2) ≤ SIZE_MAX →
  (Vector.Capacity b < Vector.Size b + blen s →
   alloc_ok P (allocs w) (HEADER + (Vector.Size b + blen s + 2)) = true) →
  ∃ b' w',
    SUTLStr.SUTLStringAppendP P (Some b) ptr w = Ok (Some (Vector.Size b), Some b') w' ∧
    errors w' = errors w ∧
    vector_wf b' ∧
    Vector.Size b' = Vector.Size b + blen s ∧
    Vector.contents b' = Vector.contents b ++ s.
Proof.
  intros Hwf He Hs Hfit Hok.
  pose proof (Strlen_c_string _ _ w Hs) as HL.
  destruct Hs as [Hn [rest ->]].
  destruct (PushN_ok P b (s ++ 0 :: rest) (blen s) w) as (b' & w' & HP & Herr & Hwf' & He' & Hs' & Hc');
    try assumption.
  { apply blen_nonneg. }
  { unfold blen. rewrite length_app. lia. }
  exists b', w'. split; [| split; [| split; [| split]]]; try assumption.
  - unfold SUTLStr.SUTLStringAppendP, bind. rewrite HL. exact HP.
  - rewrite Hc'. f_equal. unfold blen. rewrite Nat2Z.id. apply take_app_length.
Qed.

Lemma AppendP_appends_c_string_witness :
  ∃ b' w',
    SUTLStr.SUTLStringAppendP (plain 170) (Some (empty_vector 1))
                              [48; 49; 50; 51; 52; 53; 54; 55; 56; 57; 0] initial_world
    = Ok (Some (Vector.Size (empty_vector 1)), Some b') w' ∧
    errors w' = errors initial_world ∧
    vector_wf b' ∧
    Vector.Size b' = Vector.Size (empty_vector 1) + blen [48; 49; 50; 51; 52; 53; 54; 55; 56; 57] ∧
    Vector.contents b'
    = Vector.contents (empty_vector 1) ++ [48; 49; 50; 51; 52; 53; 54; 55; 56; 57].
Proof.
  apply (AppendP_appends_c_string (plain 170) (empty_vector 1)
           [48; 49; 50; 51; 52; 53; 54; 55; 56; 57]
           [48; 49; 50; 51; 52; 53; 54; 55; 56; 57; 0] initial_world).
  - apply empty_vector_wf. lia.
  - reflexivity.
  - split; [repeat constructor; lia | exists []; reflexivity].
  - vm_compute. discriminate.
  - intros _. reflexivity.
Defined.

Lemma slice_result_inside (P : platform) sb at_ size w :
  vector_wf sb → Vector.Elemsize sb = 1 → 0 ≤ at_ → 0 ≤ size →
  0 ≤ slice_length (Vector.Size sb) at_ size →
  at_ + slice_length (Vector.Size sb) at_ size ≤ Vector.Size sb →
  slice_length (Vector.Size sb) at_ size + 2 + HEADER ≤ SIZE_MAX →
  vector_wf (slice_result P sb at_ size w) ∧
  Vector.contents (slice_result P sb at_ size w)
  = take (Z.to_nat (slice_length (Vector.Size sb) at_ size))
         (drop (Z.to_nat at_) (Vector.contents sb)).
Proof.
  intros [Hs _ Hd Hf] He Hat Hsz Hsl Hin Hfit.
  rewrite He, Z.mul_1_r in Hd, Hf.
  set (sl := slice_length (Vector.Size sb) at_ size) in *.
  set (bs := peek (drop (Z.to_nat at_) (Vector.Data sb)) 0 (Z.to_nat sl)).
  assert (Lbs : length bs = Z.to_nat sl).
  { unfold bs, peek. rewrite drop_0, length_take, length_drop. unfold blen in *. lia. }
  assert (Ed : Vector.Data (slice_result P sb at_ size w)
               = poke (resized P (S (allocs w)) [] (Z.to_nat (sl + 2))) 0 bs).
  { unfold slice_result. simpl. fold sl. rewrite Z.min_l by lia. reflexivity. }
  split.
  - split; simpl; fold sl; rewrite ?Z.min_l by lia; fold bs; try lia.
    rewrite blen_poke_0; unfold blen; rewrite ?length_resized, ?Lbs; lia.
  - unfold Vector.contents. rewrite Ed, He. simpl. fold sl. rewrite !Z.mul_1_r.
    rewrite <- Lbs at 1. rewrite take_poke_0.
    unfold bs, peek. rewrite drop_0.
    rewrite skipn_firstn_comm, take_take. f_equal. lia.
Qed.

(** X12. Cutting a string in two with [Slice(str, 0, k)] and
    [Slice(str, k, 0)] and appending the second slice to the first with
    [AppendN] gives a string with the bytes of [str]; the two slices hold
    the first [k] bytes and the rest. *)
Theorem Slice_split_append (P : platform) (sb : Vector.SUTLVector) (k : Z) (w : world) :
  always_ok P →
  vector_wf sb → Vector.Elemsize sb = 1 →
  0 < k < Vector.Size sb →
  Vector.Size sb + 2 + HEADER ≤ SIZE_MAX →
  ∃ a b a' p w1 w2 w3,
    SUTLStr.SUTLStringSlice P (Some sb) 0 k w = Ok (Some a) w1 ∧
    SUTLStr.SUTLStringSlice P (Some sb) k 0 w1 = Ok (Some b) w2 ∧
    SUTLStr.SUTLStringAppendN P (Some a) (Vector.Data b) (Vector.Size b) w2
    = Ok (p, Some a') w3 ∧
    errors w3 = errors w ∧
    Vector.contents a = take (Z.to_nat k) (Vector.contents sb) ∧
    Vector.contents b = drop (Z.to_nat k) (Vector.contents sb) ∧
    Vector.contents a' = Vector.contents sb.
Proof.
  intros Hall Hwf He Hk Hfit. pose proof Hwf as [Hs _ Hd Hf].
  rewrite He, Z.mul_1_r in Hd, Hf.
  assert (Lc : length (Vector.contents sb) = Z.to_nat (Vector.Size sb)).
  { unfold Vector.contents. rewrite He, Z.mul_1_r, length_take. unfold blen in *. lia. }
  assert (S1 : slice_length (Vector.Size sb) 0 k = k).
  { unfold slice_length. destruct (Z.eqb_spec k 0); lia. }
  assert (S2 : slice_length (Vector.Size sb) k 0 = Vector.Size sb - k) by reflexivity.
  set (w1 := bump (bump w)).
  destruct (slice_result_inside P sb 0 k w) as [Wa Ca];
    rewrite ?S1; try first [assumption | lia].
  destruct (slice_result_inside P sb k 0 w1) as [Wb Cb];
    rewrite ?S2; try first [assumption | lia].
  rewrite S1, drop_0 in Ca.
  assert (Cb' : Vector.contents (slice_result P sb k 0 w1)
                = drop (Z.to_nat k) (Vector.contents sb)).
  { rewrite Cb, S2. apply take_ge. rewrite length_drop. lia. }
  set (a := slice_result P sb 0 k w) in *.
  set (b := slice_result P sb k 0 w1) in *.
  assert (Sa : Vector.Size a = k) by (unfold a, slice_result; simpl; exact S1).
  assert (Sb : Vector.Size b = Vector.Size sb - k) by reflexivity.
  destruct (PushN_ok P a (Vector.Data b) (Vector.Size b) (bump (bump w1)))
    as (a' & w3 & HP & Herr & _ & _ & _ & Hc').
  { exact Wa. }
  { reflexivity. }
  { rewrite Sb. lia. }
  { rewrite Sa, Sb. lia. }
  { destruct Wb as [Hsb _ Hdb _]. change (Vector.Elemsize b) with 1 in Hdb. lia. }
  { intros _. apply Hall. }
  exists a, b, a', (Some (Vector.Size a)), w1, (bump (bump w1)), w3.
  split; [| split; [| split; [| split; [| split; [| split]]]]].
  - unfold SUTLStr.SUTLStringSlice. apply Slice_ok;
      rewrite ?S1; first [assumption | lia | apply Hall | words].
  - unfold SUTLStr.SUTLStringSlice. apply Slice_ok;
      rewrite ?S2; first [assumption | lia | apply Hall | words].
  - exact HP.
  - rewrite Herr. reflexivity.
  - exact Ca.
  - exact Cb'.
  - assert (Hcb : take (Z.to_nat (Vector.Size b)) (Vector.Data b) = Vector.contents b).
    { unfold Vector.contents. change (Vector.Elemsize b) with 1.
      rewrite Z.mul_1_r. reflexivity. }
    rewrite Hc', Ca, Hcb, Cb'. apply take_drop.
Qed.

Lemma Slice_split_append_witness :
  ∃ a b a' p w1 w2 w3,
    SUTLStr.SUTLStringSlice (plain 170) (Some (digits 170)) 0 4 initial_world
    = Ok (Some a) w1 ∧
    SUTLStr.SUTLStringSlice (plain 170) (Some (digits 170)) 4 0 w1 = Ok (Some b) w2 ∧
    SUTLStr.SUTLStringAppendN (plain 170) (Some a) (Vector.Data b) (Vector.Size b) w2
    = Ok (p, Some a') w3 ∧
    errors w3 = errors initial_world ∧
    Vector.contents a = take (Z.to_nat 4) (Vector.contents (digits 170)) ∧
    Vector.contents b = drop (Z.to_nat 4) (Vector.contents (digits 170)) ∧
    Vector.contents a' = Vector.contents (digits 170).
Proof.
  apply (Slice_split_append (plain 170) (digits 170) 4 initial_world).
  - apply always_ok_plain.
  - apply digits_wf.
  - reflexivity.
  - simpl. lia.
  - vm_compute. discriminate.
Defined.

(** ** The hash and comparison functions of the integer types *)

Lemma le_word_range (bs : list Z) :
  Forall byte bs → 0 ≤ HashUtils.le_word bs < 256 ^ blen bs.
Proof.
  unfold blen. induction 1 as [| c bs Hc Hbs IH].
  - simpl. lia.
  - cbn [HashUtils.le_word length]. rewrite Nat2Z.inj_succ, Z.pow_succ_r by lia.
    unfold byte in Hc. lia.
Qed.

Lemma le_word_inj (a b : list Z) :
  Forall byte a → Forall byte b → length a = length b →
  HashUtils.le_word a = HashUtils.le_word b → a = b.
Proof.
  intros Ha. revert b. induction Ha as [| x a Hx Ha IH]; intros b Hb Hlen Heq.
  - destruct b; [reflexivity | discriminate].
  - destruct Hb as [| y b Hy Hb]; [discriminate |].
    cbn [HashUtils.le_word] in Heq. unfold byte in Hx, Hy.
    assert (x = y) by lia. subst y.
    f_equal. apply IH; [assumption | simpl in Hlen; lia | lia].
Qed.

(** X13. The comparison function of an integer type of [n] bytes reports
    two keys equal exactly when their [n] bytes are the same, and keys it
    reports equal have the same hash. *)
Theorem cmp_primitive_byte_equality (n : Z) (signed : bool) (p0 p1 : list Z) :
  0 ≤ n → n ≤ blen p0 → n ≤ blen p1 →
  Forall byte p0 → Forall byte p1 →
  (HashUtils.cmp_primitive n p0 p1 = true
   ↔ take (Z.to_nat n) p0 = take (Z.to_nat n) p1) ∧
  (HashUtils.cmp_primitive n p0 p1 = true →
   HashUtils.hash_primitive n signed p0 = HashUtils.hash_primitive n signed p1).
Proof.
  intros Hn H0 H1 B0 B1. unfold HashUtils.cmp_primitive, HashUtils.hash_primitive. split.
  - rewrite Z.eqb_eq. split.
    + apply le_word_inj.
      * apply Forall_take. assumption.
      * apply Forall_take. assumption.
      * rewrite !length_take. unfold blen in *. lia.
    + intros ->. reflexivity.
  - rewrite Z.eqb_eq. intros ->. reflexivity.
Qed.

Lemma cmp_primitive_byte_equality_witness :
  (HashUtils.cmp_primitive 4 (le4 25) (le4 25) = true
   ↔ take (Z.to_nat 4) (le4 25) = take (Z.to_nat 4) (le4 25)) ∧
  (HashUtils.cmp_primitive 4 (le4 25) (le4 25) = true →
   HashUtils.hash_primitive 4 true (le4 25) = HashUtils.hash_primitive 4 true (le4 25)).
Proof.
  apply (cmp_primitive_byte_equality 4 true (le4 25) (le4 25)).
  - lia.
  - vm_compute. discriminate.
  - vm_compute. discriminate.
  - repeat constructor; vm_compute; discriminate.
  - repeat constructor; vm_compute; discriminate.
Defined.

Lemma wrap_mod_32 x : wrap x mod 32 = x mod 32.
Proof.
  unfold wrap. apply Z.mod_mod_divide.
  exists 576460752303423488. unfold SIZE_MAX. lia.
Qed.

Lemma pow_256_mod_32 n : 1 ≤ n → (2 ^ (8 * n)) mod 32 = 0.
Proof.
  intros Hn. replace (8 * n) with ((8 * n - 5) + 5) by lia.
  rewrite Z.pow_add_r by lia. change (2 ^ 5) with 32.
  apply Z_mod_mult.
Qed.

(** X14. With the hash function of an integer type of [n ≥ 1] bytes,
    signed or unsigned, the bucket of a key in a hashmap or a hashset is
    the key's value modulo 32: its low five bits. *)
Theorem integer_key_bucket (hm : Hashmap.SUTLHashmap) (hs : Hashset.SUTLHashset)
        (n : Z) (signed : bool) (k : list Z) :
  1 ≤ n →
  Hashmap.Hash hm = HashUtils.hash_primitive n signed →
  Hashset.Hash hs = HashUtils.hash_primitive n signed →
  Hashmap.bucket_index hm k = HashUtils.le_word (take (Z.to_nat n) k) mod 32 ∧
  Hashset.bucket_index hs k = HashUtils.le_word (take (Z.to_nat n) k) mod 32.
Proof.
  intros Hn HM HS.
  assert (E : wrap (HashUtils.hash_primitive n signed k) mod 32
              = HashUtils.le_word (take (Z.to_nat n) k) mod 32).
  { unfold HashUtils.hash_primitive. rewrite !wrap_mod_32.
    destruct (signed && _); [| reflexivity].
    rewrite Zminus_mod, pow_256_mod_32, Z.sub_0_r, Z.mod_mod by lia. reflexivity. }
  split.
  - unfold Hashmap.bucket_index, Hashmap.SUTL_HASHMAP_BUCKET_COUNT. rewrite HM. exact E.
  - unfold Hashset.bucket_index, Hashset.SUTL_HASHSET_BUCKET_COUNT. rewrite HS. exact E.
Qed.

Lemma integer_key_bucket_witness :
  Hashmap.bucket_index
    (new_hashmap (plain 0) 0 4 4 HashUtils.SUTLHash_int HashUtils.SUTLCmp_int) (le4 57)
  = HashUtils.le_word (take (Z.to_nat 4) (le4 57)) mod 32 ∧
  Hashset.bucket_index
    (new_hashset (plain 0) 0 4 HashUtils.SUTLHash_int HashUtils.SUTLCmp_int) (le4 57)
  = HashUtils.le_word (take (Z.to_nat 4) (le4 57)) mod 32.
Proof.
  apply (integer_key_bucket
           (new_hashmap (plain 0) 0 4 4 HashUtils.SUTLHash_int HashUtils.SUTLCmp_int)
           (new_hashset (plain 0) 0 4 HashUtils.SUTLHash_int HashUtils.SUTLCmp_int)
           4 true (le4 57)).
  - lia.
  - reflexivity.
  - reflexivity.
Defined.

(** ** Hash maps: buckets that hold several entries *)

Lemma nth_entry_app_l size (d d' : list Z) (i : nat) :
  0 ≤ size → (Z.of_nat i + 1) * size ≤ blen d →
  nth_entry size (d ++ d') i = nth_entry size d i.
Proof.
  intros Hs Hin. unfold nth_entry, blen in *.
  apply list_eq. intros j.
  destruct (decide (j < Z.to_nat size)%nat).
  - rewrite !lookup_take_lt, !lookup_drop by lia.
    apply lookup_app_l. nia.
  - rewrite !lookup_take_ge by lia. reflexivity.
Qed.

Lemma nth_entry_app_r size (d e : list Z) (n : nat) :
  0 ≤ size → blen d = Z.of_nat n * size → blen e = size →
  nth_entry size (d ++ e) n = e.
Proof.
  intros Hs Hd He. unfold nth_entry, blen in *.
  rewrite drop_app_length' by nia.
  apply firstn_all2. lia.
Qed.

Lemma first_match_range cmp k K kd n i j :
  first_match cmp k K kd n i = Some j → (i ≤ j < i + n)%nat.
Proof.
  revert i. induction n as [| n IH]; intros i; simpl; [discriminate |].
  destruct (cmp k (nth_entry K kd i)).
  - intros [= ->]. lia.
  - intros H. apply IH in H. lia.
Qed.

Lemma first_match_hit cmp k K kd n i j :
  first_match cmp k K kd n i = Some j → cmp k (nth_entry K kd j) = true.
Proof.
  revert i. induction n as [| n IH]; intros i; simpl; [discriminate |].
  destruct (cmp k (nth_entry K kd i)) eqn:E.
  - intros [= <-]. exact E.
  - apply IH.
Qed.

Lemma first_match_ext cmp k K kd kd' n i :
  (∀ j, (i ≤ j < i + n)%nat → nth_entry K kd' j = nth_entry K kd j) →
  first_match cmp k K kd' n i = first_match cmp k K kd n i.
Proof.
  revert i. induction n as [| n IH]; intros i H; simpl; [reflexivity |].
  rewrite H by lia. rewrite IH; [reflexivity |]. intros j Hj. apply H. lia.
Qed.

Lemma first_match_snoc cmp k K kd kd' n i :
  (∀ j, (i ≤ j < i + n)%nat → nth_entry K kd' j = nth_entry K kd j) →
  first_match cmp k K kd' (S n) i
  = match first_match cmp k K kd n i with
    | Some j => Some j
    | None => if cmp k (nth_entry K kd' (i + n)) then Some (i + n)%nat else None
    end.
Proof.
  revert i. induction n as [| n IH]; intros i H.
  - simpl. rewrite Nat.add_0_r. reflexivity.
  - cbn [first_match] in *. rewrite H by lia.
    destruct (cmp k (nth_entry K kd i)); [reflexivity |].
    rewrite IH by (intros j Hj; apply H; lia).
    replace (S i + n)%nat with (i + S n)%nat by lia. reflexivity.
Qed.

Lemma to_nat_entry (j : nat) (size : Z) :
  0 ≤ size →
  Z.to_nat (Z.of_nat j * size) = (j * Z.to_nat size)%nat ∧
  Z.to_nat (Z.of_nat j * size + size) = (S j * Z.to_nat size)%nat.
Proof.
  intros Hs.
  assert (E : Z.to_nat (Z.of_nat j * size) = (j * Z.to_nat size)%nat).
  { rewrite Z2Nat.inj_mul by lia. rewrite Nat2Z.id. reflexivity. }
  split; [exact E |].
  rewrite Z2Nat.inj_add by nia. rewrite E. simpl. lia.
Qed.

Section MapBuckets.
Variable P : platform.
Variables (K V : Z) (hash : list Z → Z) (cmp : list Z → list Z → bool).
Variable k : list Z.
Hypothesis HK : 0 < K.
Hypothesis HV : 0 < V.
Hypothesis Hk : blen k = K.
Local Abbreviation ix := (ix hash k).
Local Abbreviation in_state := (in_state K V hash cmp k).

(** The bytes the scan compares at entry [i] are the [i]-th stored key. *)
Lemma key_matches_at hm kd vd s (i : nat) w :
  in_state hm kd vd s → (Z.of_nat i + 1) * K ≤ blen kd →
  Hashmap.key_matches hm (Z.of_nat ix) k (Z.of_nat i) w = Ok (cmp k (nth_entry K kd i)) w.
Proof.
  intros [S1 S2 S3 S4 S5 _ S7 S8
    (kb & vb & Ekb & Evb & Wk & Wv & Ek1 & Ev1 & Sk & Sv & Ck & Cv)] Hin.
  destruct Wk as [Hs _ Hd Hf]. rewrite Ek1, Z.mul_1_r in Hd, Hf.
  assert (0 ≤ Z.of_nat i * K) by nia.
  unfold Hashmap.key_matches. rewrite (bucket_at hash k _ _ Ekb). vred.
  rewrite S2, S5.
  rewrite (wrap_small (Z.of_nat i * K)) by (unfold HEADER, sizeof_size_t, SIZE_MAX in *; lia).
  rewrite load_ok by lia.
  unfold ret. do 2 f_equal.
  unfold nth_entry. rewrite <- Ck. unfold Vector.contents. rewrite Ek1, Z.mul_1_r.
  replace (Z.to_nat (Z.of_nat i * K)) with (i * Z.to_nat K)%nat by nia.
  apply (take_drop_prefix _ _ (Z.to_nat (Vector.Size kb))).
  - rewrite take_take, Nat.min_id. reflexivity.
  - nia.
Qed.

Lemma find_scan_first hm kd vd s (m i : nat) w :
  in_state hm kd vd s → Z.of_nat (i + m) * K ≤ blen kd →
  Hashmap.find_scan hm (Z.of_nat ix) k m (Z.of_nat i) w
  = Ok (option_map Z.of_nat (first_match cmp k K kd m i)) w.
Proof.
  intros St. revert i. induction m as [| m IH]; intros i Hin; [reflexivity |].
  cbn [Hashmap.find_scan first_match]. unfold bind.
  rewrite (key_matches_at hm kd vd s) by (first [assumption | nia]).
  destruct (cmp k (nth_entry K kd i)); [reflexivity |].
  replace (Z.of_nat i + 1) with (Z.of_nat (S i)) by lia.
  apply IH. replace (S i + m)%nat with (i + S m)%nat by lia. exact Hin.
Qed.

(** A scan that runs past the entries still stops at the first match. *)
Lemma find_scan_found hm kd vd s (n m i j : nat) w :
  in_state hm kd vd s → Z.of_nat (i + n) * K ≤ blen kd →
  first_match cmp k K kd n i = Some j → (n ≤ m)%nat →
  Hashmap.find_scan hm (Z.of_nat ix) k m (Z.of_nat i) w = Ok (Some (Z.of_nat j)) w.
Proof.
  intros St. revert m i. induction n as [| n IH]; intros m i Hin Hf Hm; [discriminate |].
  destruct m as [| m]; [lia |].
  cbn [Hashmap.find_scan first_match] in *. unfold bind.
  rewrite (key_matches_at hm kd vd s) by (first [assumption | nia]).
  destruct (cmp k (nth_entry K kd i)).
  - injection Hf as ->. reflexivity.
  - replace (Z.of_nat i + 1) with (Z.of_nat (S i)) by lia.
    apply IH; [| assumption | lia].
    replace (S i + n)%nat with (i + S n)%nat by lia. exact Hin.
Qed.

Lemma insert_scan_none hm kd vd s (n i : nat) value w :
  in_state hm kd vd s → Z.of_nat (i + n) * K ≤ blen kd →
  first_match cmp k K kd n i = None →
  Hashmap.insert_scan hm (Z.of_nat ix) k n (Z.of_nat i) value w = Ok value w.
Proof.
  intros St. revert i. induction n as [| n IH]; intros i Hin Hf; [reflexivity |].
  cbn [Hashmap.insert_scan first_match] in *. unfold bind.
  rewrite (key_matches_at hm kd vd s) by (first [assumption | nia]).
  destruct (cmp k (nth_entry K kd i)); [discriminate |].
  replace (Z.of_nat i + 1) with (Z.of_nat (S i)) by lia.
  apply IH; [| assumption].
  replace (S i + n)%nat with (i + S n)%nat by lia. exact Hin.
Qed.

Lemma insert_scan_some hm kd vd s (n i : nat) value w :
  in_state hm kd vd s → Z.of_nat (i + n) * K ≤ blen kd →
  (value ≠ None ∨ first_match cmp k K kd n i ≠ None) →
  ∃ p, Hashmap.insert_scan hm (Z.of_nat ix) k n (Z.of_nat i) value w = Ok (Some p) w.
Proof.
  intros St. revert i value. induction n as [| n IH]; intros i value Hin Hf.
  - destruct Hf as [Hf | Hf]; [| contradiction].
    destruct value as [p |]; [| contradiction]. exists p. reflexivity.
  - cbn [Hashmap.insert_scan first_match] in *. unfold bind.
    rewrite (key_matches_at hm kd vd s) by (first [assumption | nia]).
    replace (Z.of_nat i + 1) with (Z.of_nat (S i)) by lia.
    assert (Hin' : Z.of_nat (S i + n) * K ≤ blen kd)
      by (replace (S i + n)%nat with (i + S n)%nat by lia; exact Hin).
    destruct (cmp k (nth_entry K kd i)).
    + apply IH; [assumption |]. left.
      pose proof St as [_ _ _ _ _ _ _ _ (kb & vb & _ & Evb & _)].
      rewrite (bucket_at hash k _ _ Evb). discriminate.
    + apply IH; [assumption |]. destruct Hf as [Hf | Hf]; [left | right]; assumption.
Qed.

Hypothesis Hall : always_ok P.

(** [Get] in a bucket of [n] entries. *)
Lemma get_general hm kd vd s (n : nat) w :
  in_state hm kd vd s → blen kd = Z.of_nat n * K → blen vd = Z.of_nat n * V →
  ∃ hm',
    Hashmap.SUTLHashmapGet hm k w
    = Ok (option_map (λ j, Z.of_nat j * V) (first_match cmp k K kd n 0), hm') w ∧
    in_state hm' kd vd s ∧
    ∀ j, first_match cmp k K kd n 0 = Some j →
         Hashmap.value_at hm' k (Z.of_nat j * V) w = Ok (nth_entry V vd j) w.
Proof.
  intros St0 Hkd Hvd.
  destruct (stage_key_in_state K V hash cmp k Hk hm kd vd s w St0)
    as (hm1 & pk & E1 & St1 & Epk & Hpk & Lk).
  pose proof St1 as [S1 S2 S3 S4 S5 _ S7 S8
    (kb & vb & Ekb & Evb & Wk & Wv & Ek1 & Ev1 & Sk & Sv & Ck & Cv)].
  pose proof Wv as [Hsv _ Hdv Hfv]. rewrite Ev1, Z.mul_1_r in Hdv, Hfv.
  exists hm1. split; [| split; [assumption |]].
  - unfold Hashmap.SUTLHashmapGet, bind. rewrite E1.
    unfold Hashmap.SUTL_InternalHashmapGet, bind.
    rewrite (staged_key_of K V hash cmp k hm1 kd vd s pk) by assumption.
    rewrite (bucket_index_ix K V hash cmp k hm1 kd vd s) by assumption.
    rewrite (bucket_at hash k _ _ Ekb). vred. rewrite Sk, S2, Hkd.
    destruct (Z.eqb_spec K 0) as [? | _]; [lia |].
    rewrite Z.div_mul by lia. rewrite Nat2Z.id.
    pose proof (find_scan_first hm1 kd vd s n 0 w St1) as Hscan.
    change (Z.of_nat 0) with 0 in Hscan. rewrite Hscan by (simpl; lia).
    destruct (first_match cmp k K kd n 0) as [j |] eqn:Ef; [| reflexivity].
    apply first_match_range in Ef. simpl.
    rewrite (bucket_at hash k _ _ Evb), S3. unfold ret. simpl.
    rewrite (wrap_small (Z.of_nat j * V))
      by (unfold HEADER, sizeof_size_t, SIZE_MAX in *; nia).
    reflexivity.
  - intros j Ef. apply first_match_range in Ef.
    unfold Hashmap.value_at.
    rewrite (bucket_index_ix K V hash cmp k hm1 kd vd s) by assumption.
    rewrite (bucket_at hash k _ _ Evb). vred. rewrite S3.
    rewrite load_ok by nia.
    unfold ret. do 2 f_equal.
    unfold nth_entry. rewrite <- Cv. unfold Vector.contents. rewrite Ev1, Z.mul_1_r.
    replace (Z.to_nat (Z.of_nat j * V)) with (j * Z.to_nat V)%nat by nia.
    apply (take_drop_prefix _ _ (Z.to_nat (Vector.Size vb))).
    + rewrite take_take, Nat.min_id. reflexivity.
    + nia.
Qed.

(** [Insert] of a key that no entry of the bucket compares equal to. *)
Lemma insert_absent hm kd vd s (n : nat) v w :
  in_state hm kd vd s → blen kd = Z.of_nat n * K → blen vd = Z.of_nat n * V →
  blen v = V →
  blen kd + K + 2 + HEADER ≤ SIZE_MAX → blen vd + V + 2 + HEADER ≤ SIZE_MAX →
  first_match cmp k K kd n 0 = None →
  ∃ hm' w', Hashmap.SUTLHashmapInsert P hm k v w = Ok (Some (blen vd), hm') w' ∧
            errors w' = errors w ∧ in_state hm' (kd ++ k) (vd ++ v) (wrap (s + 1)).
Proof.
  intros St0 Hkd Hvd Hv Fk Fv Hnone.
  destruct (stage_key_in_state K V hash cmp k Hk hm kd vd s w St0)
    as (hm1 & pk & E1 & St1 & Epk & Hpk & Lk).
  destruct (stage_value_in_state K V hash cmp k hm1 kd vd s v w Hv St1)
    as (hm2 & pv & E2 & St2 & Epk2 & Epv & Hpv & Lv).
  rewrite Epk in Epk2.
  pose proof St2 as [S1 S2 S3 S4 S5 S6 S7 S8 S9].
  pose proof S9 as (kb & vb & Ekb & Evb & Wk & Wv & Ek1 & Ev1 & Sk & Sv & Ck & Cv).
  destruct (PushN_ok P kb (Vector.Data pk) K w Wk Ek1)
    as (kb' & w1 & Ep1 & Er1 & Wk' & Ek1' & Sk' & Ck');
    [lia | rewrite Sk; lia | lia | intros _; apply Hall |].
  destruct (PushN_ok P vb (Vector.Data pv) V w1 Wv Ev1)
    as (vb' & w2 & Ep2 & Er2 & Wv' & Ev1' & Sv' & Cv');
    [lia | rewrite Sv; lia | lia | intros _; apply Hall |].
  assert (St3 : in_state (Hashmap.set_Size hm2 (wrap (Hashmap.Size hm2 + 1))) kd vd
                         (wrap (Hashmap.Size hm2 + 1))).
  { split; try assumption. reflexivity. }
  exists (Hashmap.set_Values
            (Hashmap.set_Keys (Hashmap.set_Size hm2 (wrap (Hashmap.Size hm2 + 1)))
                              (Z.of_nat ix) (Some kb'))
            (Z.of_nat ix) (Some vb')), w2.
  split; [| split].
  - unfold Hashmap.SUTLHashmapInsert, bind. rewrite E1, E2.
    unfold Hashmap.SUTL_InternalHashmapInsert, bind.
    rewrite (staged_key_of K V hash cmp k hm2 kd vd s pk) by assumption.
    rewrite (bucket_index_ix K V hash cmp k hm2 kd vd s) by assumption.
    cbn [Hashmap.Keys Hashmap.Values Hashmap.set_Size Hashmap.set_Keys Hashmap.KeySize
         Hashmap.ValueSize Hashmap.ParamK Hashmap.ParamV].
    rewrite (bucket_at hash k _ _ Ekb). vred. rewrite Sk, S2, Hkd.
    destruct (Z.eqb_spec K 0) as [? | _]; [lia |].
    rewrite Z.div_mul by lia. rewrite Nat2Z.id.
    pose proof (insert_scan_none _ kd vd _ n 0 None w St3) as Hscan.
    change (Z.of_nat 0) with 0 in Hscan. rewrite Hscan by (first [assumption | simpl; lia]).
    cbn [Hashmap.Keys Hashmap.Values Hashmap.set_Size Hashmap.set_Keys Hashmap.KeySize
         Hashmap.ValueSize Hashmap.ParamK Hashmap.ParamV].
    rewrite Epk2. simpl. rewrite Ep1. simpl.
    rewrite Epv. simpl. rewrite (bucket_at hash k _ _ Evb), S3, Ep2. simpl.
    rewrite Sv. reflexivity.
  - congruence.
  - pose proof (ix_lt hash k).
    split; cbn [Hashmap.Size Hashmap.KeySize Hashmap.ValueSize Hashmap.Hash Hashmap.KeyComp
                Hashmap.ParamK Hashmap.ParamV Hashmap.Keys Hashmap.Values
                Hashmap.set_Values Hashmap.set_Keys Hashmap.set_Size]; try assumption.
    + rewrite S1. reflexivity.
    + rewrite length_insert. assumption.
    + rewrite length_insert. assumption.
    + exists kb', vb'. rewrite Nat2Z.id.
      rewrite !list_lookup_insert_eq by lia.
      rewrite Ck', Cv', Ck, Cv, Hpk, Hpv, Sk', Sv', Sk, Sv.
      unfold blen. rewrite !length_app. unfold blen in Hk, Hv.
      repeat apply conj; first [assumption | reflexivity | lia].
Qed.

(** [Insert] of a key that an entry of the bucket compares equal to:
    nothing is stored, the size field grows. *)
Lemma insert_present hm kd vd s (n j : nat) v w :
  in_state hm kd vd s → blen kd = Z.of_nat n * K → blen vd = Z.of_nat n * V →
  blen v = V →
  first_match cmp k K kd n 0 = Some j →
  ∃ p hm', Hashmap.SUTLHashmapInsert P hm k v w = Ok (Some p, hm') w ∧
           in_state hm' kd vd (wrap (s + 1)).
Proof.
  intros St0 Hkd Hvd Hv Hsome.
  destruct (stage_key_in_state K V hash cmp k Hk hm kd vd s w St0)
    as (hm1 & pk & E1 & St1 & Epk & Hpk & Lk).
  destruct (stage_value_in_state K V hash cmp k hm1 kd vd s v w Hv St1)
    as (hm2 & pv & E2 & St2 & Epk2 & Epv & Hpv & Lv).
  rewrite Epk in Epk2.
  pose proof St2 as [S1 S2 S3 S4 S5 S6 S7 S8 S9].
  pose proof S9 as (kb & vb & Ekb & Evb & Wk & Wv & Ek1 & Ev1 & Sk & Sv & Ck & Cv).
  assert (St3 : in_state (Hashmap.set_Size hm2 (wrap (Hashmap.Size hm2 + 1))) kd vd
                         (wrap (Hashmap.Size hm2 + 1))).
  { split; try assumption. reflexivity. }
  destruct (insert_scan_some _ kd vd _ n 0 None w St3) as (p & Hscan).
  { simpl. lia. }
  { right. rewrite Hsome. discriminate. }
  change (Z.of_nat 0) with 0 in Hscan.
  exists p, (Hashmap.set_Size hm2 (wrap (Hashmap.Size hm2 + 1))). split.
  - unfold Hashmap.SUTLHashmapInsert, bind. rewrite E1, E2.
    unfold Hashmap.SUTL_InternalHashmapInsert, bind.
    rewrite (staged_key_of K V hash cmp k hm2 kd vd s pk) by assumption.
    rewrite (bucket_index_ix K V hash cmp k hm2 kd vd s) by assumption.
    cbn [Hashmap.Keys Hashmap.Values Hashmap.set_Size Hashmap.KeySize].
    rewrite (bucket_at hash k _ _ Ekb). vred. rewrite Sk, S2, Hkd.
    destruct (Z.eqb_spec K 0) as [? | _]; [lia |].
    rewrite Z.div_mul by lia. rewrite Nat2Z.id.
    rewrite Hscan. reflexivity.
  - rewrite <- S1. exact St3.
Qed.

(** [Erase] of a key that an entry of the bucket compares equal to. *)
Lemma erase_present hm kd vd s (n j : nat) w :
  in_state hm kd vd s → blen kd = Z.of_nat n * K → blen vd = Z.of_nat n * V →
  first_match cmp k K kd n 0 = Some j →
  ∃ hm', Hashmap.SUTLHashmapErase hm k w = Ok hm' w ∧
         in_state hm' (without_entry K kd j) (without_entry V vd j) (wrap (s - 1)).
Proof.
  intros St0 Hkd Hvd Hsome.
  destruct (stage_key_in_state K V hash cmp k Hk hm kd vd s w St0)
    as (hm1 & pk & E1 & St1 & Epk & Hpk & Lk).
  pose proof St1 as [S1 S2 S3 S4 S5 S6 S7 S8
    (kb & vb & Ekb & Evb & Wk & Wv & Ek1 & Ev1 & Sk & Sv & Ck & Cv)].
  pose proof (ix_lt hash k) as Hix.
  pose proof (first_match_range _ _ _ _ _ _ _ Hsome) as Hj.
  pose proof Wk as [Hsk _ Hdk Hfk]. pose proof Wv as [Hsv _ Hdv Hfv].
  rewrite Ek1, Z.mul_1_r in Hdk, Hfk. rewrite Ev1, Z.mul_1_r in Hdv, Hfv.
  assert (JK : 0 ≤ Z.of_nat j * K ∧ Z.of_nat j * K + K ≤ Vector.Size kb) by nia.
  assert (JV : 0 ≤ Z.of_nat j * V ∧ Z.of_nat j * V + V ≤ Vector.Size vb) by nia.
  set (kb' := {| Vector.Size := Vector.Size kb - K; Vector.Capacity := Vector.Capacity kb;
                 Vector.Elemsize := Vector.Elemsize kb;
                 Vector.Data := erase_data (Vector.Data kb) (Vector.Elemsize kb)
                                           (Vector.Size kb) (Z.of_nat j * K) K |}).
  set (vb' := {| Vector.Size := Vector.Size vb - V; Vector.Capacity := Vector.Capacity vb;
                 Vector.Elemsize := Vector.Elemsize vb;
                 Vector.Data := erase_data (Vector.Data vb) (Vector.Elemsize vb)
                                           (Vector.Size vb) (Z.of_nat j * V) V |}).
  exists (Hashmap.set_Size
            (Hashmap.set_Values (Hashmap.set_Keys hm1 (Z.of_nat ix) (Some kb'))
                                (Z.of_nat ix) (Some vb'))
            (wrap (Hashmap.Size hm1 - 1))).
  split.
  - unfold Hashmap.SUTLHashmapErase, bind. rewrite E1.
    unfold Hashmap.SUTL_InternalHashmapErase, bind.
    rewrite (staged_key_of K V hash cmp k hm1 kd vd s pk) by assumption.
    rewrite (bucket_index_ix K V hash cmp k hm1 kd vd s) by assumption.
    rewrite (bucket_at hash k _ _ Ekb). vred.
    pose proof (find_scan_found hm1 kd vd s n (Z.to_nat (Vector.Size kb)) 0 j w St1) as Hscan.
    change (Z.of_nat 0) with 0 in Hscan.
    rewrite Hscan by (first [assumption | simpl; lia | nia]).
    rewrite S2.
    rewrite (wrap_small (Z.of_nat j * K))
      by (unfold HEADER, sizeof_size_t, SIZE_MAX in *; lia).
    unfold Vector.SUTLVectorEraseN.
    rewrite EraseN_spec by (first [assumption | lia]).
    cbn [Hashmap.set_Keys Hashmap.Values Hashmap.ValueSize].
    rewrite (bucket_at hash k _ _ Evb). rewrite S3.
    rewrite (wrap_small (Z.of_nat j * V))
      by (unfold HEADER, sizeof_size_t, SIZE_MAX in *; lia).
    rewrite EraseN_spec by (first [assumption | lia]).
    reflexivity.
  - assert (Lk' : length (Vector.Data kb') = length (Vector.Data kb)).
    { unfold kb'. cbn [Vector.Data]. apply length_erase_data; rewrite ?Ek1; lia. }
    assert (Lv' : length (Vector.Data vb') = length (Vector.Data vb)).
    { unfold vb'. cbn [Vector.Data]. apply length_erase_data; rewrite ?Ev1; lia. }
    assert (Ck' : Vector.contents kb' = without_entry K kd j).
    { unfold Vector.contents, kb'. cbn [Vector.Data Vector.Size Vector.Elemsize].
      rewrite Ek1, Z.mul_1_r.
      pose proof (erase_data_contents (Vector.Data kb) 1 (Vector.Size kb) (Z.of_nat j * K) K)
        as HE.
      rewrite !Z.mul_1_r, !Z.mul_1_l in HE. rewrite HE by lia.
      unfold without_entry. rewrite <- Ck. unfold Vector.contents. rewrite Ek1, Z.mul_1_r.
      destruct (to_nat_entry j K) as [T1 T2]; [lia |].
      rewrite T1, T2. f_equal.
      - rewrite take_take. f_equal. lia.
      - symmetry. apply skipn_firstn_comm. }
    assert (Cv' : Vector.contents vb' = without_entry V vd j).
    { unfold Vector.contents, vb'. cbn [Vector.Data Vector.Size Vector.Elemsize].
      rewrite Ev1, Z.mul_1_r.
      pose proof (erase_data_contents (Vector.Data vb) 1 (Vector.Size vb) (Z.of_nat j * V) V)
        as HE.
      rewrite !Z.mul_1_r, !Z.mul_1_l in HE. rewrite HE by lia.
      unfold without_entry. rewrite <- Cv. unfold Vector.contents. rewrite Ev1, Z.mul_1_r.
      destruct (to_nat_entry j V) as [T1 T2]; [lia |].
      rewrite T1, T2. f_equal.
      - rewrite take_take. f_equal. lia.
      - symmetry. apply skipn_firstn_comm. }
    split; cbn [Hashmap.Size Hashmap.KeySize Hashmap.ValueSize Hashmap.Hash Hashmap.KeyComp
                Hashmap.ParamK Hashmap.ParamV Hashmap.Keys Hashmap.Values
                Hashmap.set_Values Hashmap.set_Keys Hashmap.set_Size]; try assumption.
    + rewrite S1. reflexivity.
    + rewrite length_insert. assumption.
    + rewrite length_insert. assumption.
    + exists kb', vb'. rewrite Nat2Z.id.
      rewrite !list_lookup_insert_eq by lia.
      rewrite Ck', Cv'.
      assert (Lwk : blen (without_entry K kd j) = Vector.Size kb - K).
      { rewrite <- Ck'. unfold Vector.contents, blen. rewrite length_take, Lk'.
        unfold kb'. cbn [Vector.Size Vector.Elemsize]. rewrite Ek1.
        unfold blen in *. lia. }
      assert (Lwv : blen (without_entry V vd j) = Vector.Size vb - V).
      { rewrite <- Cv'. unfold Vector.contents, blen. rewrite length_take, Lv'.
        unfold vb'. cbn [Vector.Size Vector.Elemsize]. rewrite Ev1.
        unfold blen in *. lia. }
      repeat apply conj; try reflexivity; try assumption.
      * split; unfold kb' in *; cbn [Vector.Size Vector.Capacity Vector.Elemsize Vector.Data] in *;
          unfold blen in *; rewrite ?Lk'; lia.
      * split; unfold vb' in *; cbn [Vector.Size Vector.Capacity Vector.Elemsize Vector.Data] in *;
          unfold blen in *; rewrite ?Lv'; lia.
      * rewrite Lwk. reflexivity.
      * rewrite Lwv. reflexivity.
Qed.

End MapBuckets.

Lemma two_entry_table_built :
  (hm <- Hashmap.SUTLHashmapNew (plain 170) 4 4 sample_hash sample_cmp ;;
   r <- Hashmap.SUTLHashmapInsert (plain 170) hm (le4 25) (le4 625) ;;
   r <- Hashmap.SUTLHashmapInsert (plain 170) (snd r) (le4 57) (le4 3249) ;;
   ret (snd r)) initial_world
  = Ok two_entry_table {| allocs := 72; errors := [] |}.
Proof. reflexivity. Qed.

Lemma two_entry_table_state (k : list Z) :
  ix sample_hash k = 25%nat →
  in_state 4 4 sample_hash sample_cmp k two_entry_table
           (le4 25 ++ le4 57) (le4 625 ++ le4 3249) 2.
Proof.
  intros Hix. split; try reflexivity.
  - eexists _, _. split; [reflexivity |]. split; [reflexivity |].
    split; vm_compute; discriminate.
  - rewrite Hix. eexists _, _. split; [reflexivity |]. split; [reflexivity |].
    repeat apply conj; try reflexivity;
      split; simpl; unfold blen, HEADER, sizeof_size_t, SIZE_MAX; simpl; lia.
Qed.

Lemma in_state_same_bucket K V hash cmp k k2 hm kd vd s :
  ix hash k2 = ix hash k →
  in_state K V hash cmp k hm kd vd s → in_state K V hash cmp k2 hm kd vd s.
Proof.
  intros Hix [S1 S2 S3 S4 S5 S6 S7 S8 S9].
  split; try assumption. rewrite Hix. exact S9.
Qed.

(** X15. [Get(hm, k)] returns the value slot of the first entry of the
    bucket of [k] whose key the comparison function reports equal to [k],
    and [NULL] where the bucket has none; it leaves the entries and the
    size as they are. *)
Theorem Get_returns_first_match (K V : Z) hash cmp (k : list Z)
        (hm : Hashmap.SUTLHashmap) (kd vd : list Z) (s : Z) (n : nat) (w : world) :
  0 < K → 0 < V → blen k = K →
  in_state K V hash cmp k hm kd vd s →
  blen kd = Z.of_nat n * K → blen vd = Z.of_nat n * V →
  ∃ hm',
    Hashmap.SUTLHashmapGet hm k w
    = Ok (option_map (λ j, Z.of_nat j * V) (first_match cmp k K kd n 0), hm') w ∧
    in_state K V hash cmp k hm' kd vd s ∧
    ∀ j, first_match cmp k K kd n 0 = Some j →
         Hashmap.value_at hm' k (Z.of_nat j * V) w = Ok (nth_entry V vd j) w.
Proof.
  intros HK HV Hk St Hkd Hvd. apply get_general; assumption.
Qed.

Lemma Get_returns_first_match_witness :
  ∃ hm',
    Hashmap.SUTLHashmapGet two_entry_table (le4 57) initial_world
    = Ok (option_map (λ j, Z.of_nat j * 4)
                     (first_match sample_cmp (le4 57) 4 (le4 25 ++ le4 57) 2 0), hm')
         initial_world ∧
    in_state 4 4 sample_hash sample_cmp (le4 57) hm'
             (le4 25 ++ le4 57) (le4 625 ++ le4 3249) 2 ∧
    ∀ j, first_match sample_cmp (le4 57) 4 (le4 25 ++ le4 57) 2 0 = Some j →
         Hashmap.value_at hm' (le4 57) (Z.of_nat j * 4) initial_world
         = Ok (nth_entry 4 (le4 625 ++ le4 3249) j) initial_world.
Proof.
  apply (Get_returns_first_match 4 4 sample_hash sample_cmp (le4 57) two_entry_table
           (le4 25 ++ le4 57) (le4 625 ++ le4 3249) 2 2 initial_world).
  - lia.
  - lia.
  - reflexivity.
  - apply two_entry_table_state. reflexivity.
  - reflexivity.
  - reflexivity.
Defined.

Lemma first_match_appended cmp k K (kd : list Z) (n : nat) :
  0 ≤ K → blen kd = Z.of_nat n * K → blen k = K →
  first_match cmp k K kd n 0 = None → cmp k k = true →
  first_match cmp k K (kd ++ k) (S n) 0 = Some n.
Proof.
  intros HK Hkd Hk Hnone Hrefl.
  rewrite (first_match_snoc cmp k K kd (kd ++ k) n 0).
  - rewrite Hnone. simpl. rewrite nth_entry_app_r by assumption. rewrite Hrefl. reflexivity.
  - intros j Hj. apply nth_entry_app_l; [assumption | nia].
Qed.

Lemma first_match_kept cmp k2 K (kd e : list Z) (n j : nat) :
  0 ≤ K → blen kd = Z.of_nat n * K →
  first_match cmp k2 K kd n 0 = Some j →
  first_match cmp k2 K (kd ++ e) (S n) 0 = Some j.
Proof.
  intros HK Hkd Hsome.
  rewrite (first_match_snoc cmp k2 K kd (kd ++ e) n 0).
  - rewrite Hsome. reflexivity.
  - intros i Hi. apply nth_entry_app_l; [assumption | nia].
Qed.

(** X16. Inserting a key that no entry of its bucket compares equal to
    appends the key and the value to the bucket, also where the bucket
    holds other keys, and reports nothing; a [Get] of the key then returns
    the slot of the appended value. *)
Theorem Insert_absent_key_appends (P : platform) (K V : Z) hash cmp (k v : list Z)
        (hm : Hashmap.SUTLHashmap) (kd vd : list Z) (s : Z) (n : nat) (w : world) :
  always_ok P → 0 < K → 0 < V → blen k = K → blen v = V →
  cmp k k = true →
  in_state K V hash cmp k hm kd vd s →
  blen kd = Z.of_nat n * K → blen vd = Z.of_nat n * V →
  blen kd + K + 2 + HEADER ≤ SIZE_MAX → blen vd + V + 2 + HEADER ≤ SIZE_MAX →
  first_match cmp k K kd n 0 = None →
  ∃ hm1 w1 hm2,
    Hashmap.SUTLHashmapInsert P hm k v w = Ok (Some (blen vd), hm1) w1 ∧
    errors w1 = errors w ∧
    in_state K V hash cmp k hm1 (kd ++ k) (vd ++ v) (wrap (s + 1)) ∧
    Hashmap.SUTLHashmapGet hm1 k w1 = Ok (Some (blen vd), hm2) w1 ∧
    Hashmap.value_at hm2 k (blen vd) w1 = Ok v w1.
Proof.
  intros Hall HK HV Hk Hv Hrefl St Hkd Hvd Fk Fv Hnone.
  destruct (insert_absent P K V hash cmp k HK HV Hk Hall hm kd vd s n v w)
    as (hm1 & w1 & HI & Herr & St1); try assumption.
  assert (Hm : first_match cmp k K (kd ++ k) (S n) 0 = Some n)
    by (apply first_match_appended; first [assumption | lia]).
  destruct (get_general K V hash cmp k HK HV Hk hm1 (kd ++ k) (vd ++ v) (wrap (s + 1)) (S n) w1)
    as (hm2 & HG & St2 & Hval); try assumption.
  { unfold blen in *. rewrite length_app. lia. }
  { unfold blen in *. rewrite length_app. lia. }
  rewrite Hm in HG. simpl option_map in HG. rewrite <- Hvd in HG.
  specialize (Hval n Hm). rewrite <- Hvd in Hval.
  rewrite nth_entry_app_r in Hval by (first [assumption | lia]).
  exists hm1, w1, hm2. repeat apply conj; assumption.
Qed.

Lemma Insert_absent_key_appends_witness :
  ∃ hm1 w1 hm2,
    Hashmap.SUTLHashmapInsert (plain 170) two_entry_table (le4 89) (le4 7921) initial_world
    = Ok (Some (blen (le4 625 ++ le4 3249)), hm1) w1 ∧
    errors w1 = errors initial_world ∧
    in_state 4 4 sample_hash sample_cmp (le4 89) hm1
             ((le4 25 ++ le4 57) ++ le4 89) ((le4 625 ++ le4 3249) ++ le4 7921)
             (wrap (2 + 1)) ∧
    Hashmap.SUTLHashmapGet hm1 (le4 89) w1
    = Ok (Some (blen (le4 625 ++ le4 3249)), hm2) w1 ∧
    Hashmap.value_at hm2 (le4 89) (blen (le4 625 ++ le4 3249)) w1 = Ok (le4 7921) w1.
Proof.
  apply (Insert_absent_key_appends (plain 170) 4 4 sample_hash sample_cmp (le4 89) (le4 7921)
           two_entry_table (le4 25 ++ le4 57) (le4 625 ++ le4 3249) 2 2 initial_world).
  - apply always_ok_plain.
  - lia.
  - lia.
  - reflexivity.
  - reflexivity.
  - reflexivity.
  - apply two_entry_table_state. reflexivity.
  - reflexivity.
  - reflexivity.
  - vm_compute. discriminate.
  - vm_compute. discriminate.
  - reflexivity.
Defined.

(** X17. Inserting a new key into a bucket does not disturb the keys
    already there: a key [k2] of the same bucket that [Get] found before
    the insertion is found after it at the same slot with the same
    value. *)
Theorem Insert_keeps_other_entries (P : platform) (K V : Z) hash cmp (k k2 v : list Z)
        (hm : Hashmap.SUTLHashmap) (kd vd : list Z) (s : Z) (n j : nat) (w : world) :
  always_ok P → 0 < K → 0 < V → blen k = K → blen k2 = K → blen v = V →
  in_state K V hash cmp k hm kd vd s →
  blen kd = Z.of_nat n * K → blen vd = Z.of_nat n * V →
  blen kd + K + 2 + HEADER ≤ SIZE_MAX → blen vd + V + 2 + HEADER ≤ SIZE_MAX →
  ix hash k2 = ix hash k →
  first_match cmp k K kd n 0 = None →
  first_match cmp k2 K kd n 0 = Some j →
  ∃ hm0 hm1 w1 hm2,
    Hashmap.SUTLHashmapGet hm k2 w = Ok (Some (Z.of_nat j * V), hm0) w ∧
    Hashmap.value_at hm0 k2 (Z.of_nat j * V) w = Ok (nth_entry V vd j) w ∧
    Hashmap.SUTLHashmapInsert P hm k v w = Ok (Some (blen vd), hm1) w1 ∧
    Hashmap.SUTLHashmapGet hm1 k2 w1 = Ok (Some (Z.of_nat j * V), hm2) w1 ∧
    Hashmap.value_at hm2 k2 (Z.of_nat j * V) w1 = Ok (nth_entry V vd j) w1.
Proof.
  intros Hall HK HV Hk Hk2 Hv St Hkd Hvd Fk Fv Hix Hnone Hsome.
  pose proof (first_match_range _ _ _ _ _ _ _ Hsome) as Hj.
  destruct (get_general K V hash cmp k2 HK HV Hk2 hm kd vd s n w)
    as (hm0 & HG0 & _ & Hval0); try assumption.
  { apply (in_state_same_bucket K V hash cmp k k2); assumption. }
  rewrite Hsome in HG0. simpl option_map in HG0. specialize (Hval0 j Hsome).
  destruct (insert_absent P K V hash cmp k HK HV Hk Hall hm kd vd s n v w)
    as (hm1 & w1 & HI & Herr & St1); try assumption.
  assert (Hm : first_match cmp k2 K (kd ++ k) (S n) 0 = Some j)
    by (apply first_match_kept; first [assumption | lia]).
  destruct (get_general K V hash cmp k2 HK HV Hk2 hm1 (kd ++ k) (vd ++ v) (wrap (s + 1))
                        (S n) w1)
    as (hm2 & HG & _ & Hval).
  { apply (in_state_same_bucket K V hash cmp k k2); assumption. }
  { unfold blen in *. rewrite length_app. lia. }
  { unfold blen in *. rewrite length_app. lia. }
  rewrite Hm in HG. simpl option_map in HG.
  specialize (Hval j Hm).
  rewrite nth_entry_app_l in Hval by (first [lia | nia]).
  exists hm0, hm1, w1, hm2. repeat apply conj; assumption.
Qed.

Lemma Insert_keeps_other_entries_witness :
  ∃ hm0 hm1 w1 hm2,
    Hashmap.SUTLHashmapGet two_entry_table (le4 57) initial_world
    = Ok (Some (Z.of_nat 1 * 4), hm0) initial_world ∧
    Hashmap.value_at hm0 (le4 57) (Z.of_nat 1 * 4) initial_world
    = Ok (nth_entry 4 (le4 625 ++ le4 3249) 1) initial_world ∧
    Hashmap.SUTLHashmapInsert (plain 170) two_entry_table (le4 89) (le4 7921) initial_world
    = Ok (Some (blen (le4 625 ++ le4 3249)), hm1) w1 ∧
    Hashmap.SUTLHashmapGet hm1 (le4 57) w1 = Ok (Some (Z.of_nat 1 * 4), hm2) w1 ∧
    Hashmap.value_at hm2 (le4 57) (Z.of_nat 1 * 4) w1
    = Ok (nth_entry 4 (le4 625 ++ le4 3249) 1) w1.
Proof.
  apply (Insert_keeps_other_entries (plain 170) 4 4 sample_hash sample_cmp
           (le4 89) (le4 57) (le4 7921)
           two_entry_table (le4 25 ++ le4 57) (le4 625 ++ le4 3249) 2 2 1 initial_world).
  - apply always_ok_plain.
  - lia.
  - lia.
  - reflexivity.
  - reflexivity.
  - reflexivity.
  - apply two_entry_table_state. reflexivity.
  - reflexivity.
  - reflexivity.
  - vm_compute. discriminate.
  - vm_compute. discriminate.
  - reflexivity.
  - reflexivity.
  - reflexivity.
Defined.

(** X18. [Insert] of a key that is already stored does not replace the
    stored value: nothing is written to the bucket, nothing is allocated or
    reported, only the size field grows, and [Get] still returns the slot
    of the old value. *)
Theorem Insert_existing_key_keeps_value (P : platform) (K V : Z) hash cmp (k v' : list Z)
        (hm : Hashmap.SUTLHashmap) (kd vd : list Z) (s : Z) (n j : nat) (w : world) :
  0 < K → 0 < V → blen k = K → blen v' = V →
  in_state K V hash cmp k hm kd vd s →
  blen kd = Z.of_nat n * K → blen vd = Z.of_nat n * V →
  first_match cmp k K kd n 0 = Some j →
  ∃ p hm1 hm2,
    Hashmap.SUTLHashmapInsert P hm k v' w = Ok (Some p, hm1) w ∧
    in_state K V hash cmp k hm1 kd vd (wrap (s + 1)) ∧
    Hashmap.SUTLHashmapGet hm1 k w = Ok (Some (Z.of_nat j * V), hm2) w ∧
    Hashmap.value_at hm2 k (Z.of_nat j * V) w = Ok (nth_entry V vd j) w.
Proof.
  intros HK HV Hk Hv St Hkd Hvd Hsome.
  destruct (insert_present P K V hash cmp k HK HV Hk hm kd vd s n j v' w)
    as (p & hm1 & HI & St1); try assumption.
  destruct (get_general K V hash cmp k HK HV Hk hm1 kd vd (wrap (s + 1)) n w)
    as (hm2 & HG & _ & Hval); try assumption.
  rewrite Hsome in HG. simpl option_map in HG.
  exists p, hm1, hm2. repeat apply conj; try assumption. apply Hval. assumption.
Qed.

Lemma Insert_existing_key_keeps_value_witness :
  ∃ p hm1 hm2,
    Hashmap.SUTLHashmapInsert (plain 170) two_entry_table (le4 57) (le4 1) initial_world
    = Ok (Some p, hm1) initial_world ∧
    in_state 4 4 sample_hash sample_cmp (le4 57) hm1
             (le4 25 ++ le4 57) (le4 625 ++ le4 3249) (wrap (2 + 1)) ∧
    Hashmap.SUTLHashmapGet hm1 (le4 57) initial_world
    = Ok (Some (Z.of_nat 1 * 4), hm2) initial_world ∧
    Hashmap.value_at hm2 (le4 57) (Z.of_nat 1 * 4) initial_world
    = Ok (nth_entry 4 (le4 625 ++ le4 3249) 1) initial_world.
Proof.
  apply (Insert_existing_key_keeps_value (plain 170) 4 4 sample_hash sample_cmp
           (le4 57) (le4 1)
           two_entry_table (le4 25 ++ le4 57) (le4 625 ++ le4 3249) 2 2 1 initial_world).
  - lia.
  - lia.
  - reflexivity.
  - reflexivity.
  - apply two_entry_table_state. reflexivity.
  - reflexivity.
  - reflexivity.
  - reflexivity.
Defined.

(** X19. [Erase] of a stored key removes from the bucket the first entry
    whose key compares equal, key and value, closes the gap, and lowers the
    size field by one; the other entries keep their order. *)
Theorem Erase_removes_first_match (K V : Z) hash cmp (k : list Z)
        (hm : Hashmap.SUTLHashmap) (kd vd : list Z) (s : Z) (n j : nat) (w : world) :
  0 < K → 0 < V → blen k = K →
  in_state K V hash cmp k hm kd vd s →
  blen kd = Z.of_nat n * K → blen vd = Z.of_nat n * V →
  first_match cmp k K kd n 0 = Some j →
  ∃ hm',
    Hashmap.SUTLHashmapErase hm k w = Ok hm' w ∧
    in_state K V hash cmp k hm' (without_entry K kd j) (without_entry V vd j) (wrap (s - 1)).
Proof.
  intros HK HV Hk St Hkd Hvd Hsome.
  apply (erase_present K V hash cmp k HK HV Hk hm kd vd s n j w); assumption.
Qed.

Lemma Erase_removes_first_match_witness :
  ∃ hm',
    Hashmap.SUTLHashmapErase two_entry_table (le4 25) initial_world = Ok hm' initial_world ∧
    in_state 4 4 sample_hash sample_cmp (le4 25) hm'
             (without_entry 4 (le4 25 ++ le4 57) 0)
             (without_entry 4 (le4 625 ++ le4 3249) 0) (wrap (2 - 1)).
Proof.
  apply (Erase_removes_first_match 4 4 sample_hash sample_cmp (le4 25)
           two_entry_table (le4 25 ++ le4 57) (le4 625 ++ le4 3249) 2 2 0 initial_world).
  - lia.
  - lia.
  - reflexivity.
  - apply two_entry_table_state. reflexivity.
  - reflexivity.
  - reflexivity.
  - reflexivity.
Defined.

(** ** Hash maps: what a call leaves alone *)

Lemma stage_key_Ok hm k w hm1 w1 :
  Hashmap.stage_key hm k w = Ok hm1 w1 →
  w1 = w ∧ ∃ pk rest, hm1 = Hashmap.set_ParamK hm (Some pk) ∧ Vector.Data pk = k ++ rest.
Proof.
  unfold Hashmap.stage_key. intros H.
  apply bind_Ok in H as (pk & w2 & Hd & H). apply deref_Ok in Hd as [_ ->].
  apply bind_Ok in H as (d & w3 & Hs & H).
  apply ret_Ok in H as [-> ->].
  unfold store in Hs. destruct (0 + blen k <=? blen (Vector.Data pk)); [| discriminate Hs].
  apply ret_Ok in Hs as [-> ->].
  split; [reflexivity |]. eexists _, _. split; reflexivity.
Qed.

Lemma stage_value_Ok hm v w hm1 w1 :
  Hashmap.stage_value hm v w = Ok hm1 w1 →
  w1 = w ∧ ∃ pv, hm1 = Hashmap.set_ParamV hm (Some pv).
Proof.
  unfold Hashmap.stage_value. intros H.
  apply bind_Ok in H as (pv & w2 & Hd & H). apply deref_Ok in Hd as [_ ->].
  apply bind_Ok in H as (d & w3 & Hs & H).
  apply ret_Ok in H as [-> ->].
  unfold store in Hs. destruct (0 + blen v <=? blen (Vector.Data pv)); [| discriminate Hs].
  apply ret_Ok in Hs as [_ ->].
  split; [reflexivity |]. eexists. reflexivity.
Qed.

Lemma staged_key_Ok hm pk k rest w k' w' :
  Hashmap.ParamK hm = Some pk → Vector.Data pk = k ++ rest → blen k = Hashmap.KeySize hm →
  Hashmap.staged_key hm w = Ok k' w' → k' = k ∧ w' = w.
Proof.
  intros Epk Ed Hk. unfold Hashmap.staged_key. rewrite Epk. intros H.
  apply bind_Ok in H as (b & w1 & Hd & H). apply deref_Ok in Hd as [Hb ->].
  injection Hb as <-.
  apply load_Ok in H as (-> & _ & ->). split; [| reflexivity].
  rewrite Ed, drop_0, <- Hk. unfold blen. rewrite Nat2Z.id. apply take_app_length.
Qed.

Lemma other_buckets_kept_update hm hm' (index : Z) :
  Hashmap.KeySize hm' = Hashmap.KeySize hm →
  Hashmap.ValueSize hm' = Hashmap.ValueSize hm →
  Hashmap.Hash hm' = Hashmap.Hash hm →
  Hashmap.KeyComp hm' = Hashmap.KeyComp hm →
  (Hashmap.Keys hm' = Hashmap.Keys hm ∨
   ∃ kh, Hashmap.Keys hm' = <[Z.to_nat index := kh]> (Hashmap.Keys hm)) →
  (Hashmap.Values hm' = Hashmap.Values hm ∨
   ∃ vh, Hashmap.Values hm' = <[Z.to_nat index := vh]> (Hashmap.Values hm)) →
  other_buckets_kept hm hm' index.
Proof.
  intros E1 E2 E3 E4 EK EV. repeat apply conj; try assumption.
  intros b Hb. split.
  - destruct EK as [-> | [kh ->]]; [reflexivity |].
    apply list_lookup_insert_ne. congruence.
  - destruct EV as [-> | [vh ->]]; [reflexivity |].
    apply list_lookup_insert_ne. congruence.
Qed.

Lemma Insert_frame P hm k v w r hm' w' :
  blen k = Hashmap.KeySize hm →
  Hashmap.SUTLHashmapInsert P hm k v w = Ok (r, hm') w' →
  other_buckets_kept hm hm' (Hashmap.bucket_index hm k).
Proof.
  unfold Hashmap.SUTLHashmapInsert. intros Hk H.
  apply bind_Ok in H as (hm1 & w1 & H1 & H).
  apply stage_key_Ok in H1 as (-> & pk & rest & -> & Ed).
  apply bind_Ok in H as (hm2 & w2 & H2 & H).
  apply stage_value_Ok in H2 as (-> & pv & ->).
  unfold Hashmap.SUTL_InternalHashmapInsert in H.
  apply bind_Ok in H as (k' & w3 & Hst & H).
  apply (staged_key_Ok _ pk k rest) in Hst as [-> ->]; [| reflexivity | assumption | assumption].
  change (Hashmap.bucket_index (Hashmap.set_ParamV (Hashmap.set_ParamK hm (Some pk)) (Some pv)) k)
    with (Hashmap.bucket_index hm k) in H.
  set (index := Hashmap.bucket_index hm k) in *.
  apply bind_Ok in H as (ksize & w4 & _ & H).
  cbn [Hashmap.set_Size Hashmap.set_ParamV Hashmap.set_ParamK Hashmap.KeySize] in H.
  destruct (Hashmap.KeySize hm =? 0); [discriminate H |].
  apply bind_Ok in H as (value & w5 & _ & H).
  destruct value as [p |].
  - apply ret_Ok in H as [H _]. injection H as _ ->.
    apply other_buckets_kept_update; try reflexivity; left; reflexivity.
  - apply bind_Ok in H as (pk' & w6 & _ & H).
    apply bind_Ok in H as ([p1 kh] & w7 & _ & H).
    apply bind_Ok in H as (pv' & w8 & _ & H).
    apply bind_Ok in H as ([p2 vh] & w9 & _ & H).
    apply ret_Ok in H as [H _]. injection H as _ ->.
    apply other_buckets_kept_update; try reflexivity; right; eexists; reflexivity.
Qed.

Lemma Erase_frame hm k w hm' w' :
  blen k = Hashmap.KeySize hm →
  Hashmap.SUTLHashmapErase hm k w = Ok hm' w' →
  other_buckets_kept hm hm' (Hashmap.bucket_index hm k).
Proof.
  unfold Hashmap.SUTLHashmapErase. intros Hk H.
  apply bind_Ok in H as (hm1 & w1 & H1 & H).
  apply stage_key_Ok in H1 as (-> & pk & rest & -> & Ed).
  unfold Hashmap.SUTL_InternalHashmapErase in H.
  apply bind_Ok in H as (k' & w3 & Hst & H).
  apply (staged_key_Ok _ pk k rest) in Hst as [-> ->]; [| reflexivity | assumption | assumption].
  change (Hashmap.bucket_index (Hashmap.set_ParamK hm (Some pk)) k)
    with (Hashmap.bucket_index hm k) in H.
  set (index := Hashmap.bucket_index hm k) in *.
  apply bind_Ok in H as (ksize & w4 & _ & H).
  apply bind_Ok in H as (found & w5 & _ & H).
  destruct found as [i |].
  - apply bind_Ok in H as (kv & w6 & _ & H).
    apply bind_Ok in H as (vv & w7 & _ & H).
    apply ret_Ok in H as [-> _].
    apply other_buckets_kept_update; try reflexivity; right; eexists; reflexivity.
  - apply ret_Ok in H as [-> _].
    apply other_buckets_kept_update; try reflexivity; left; reflexivity.
Qed.

Lemma Get_frame hm k w p hm' w' :
  Hashmap.SUTLHashmapGet hm k w = Ok (p, hm') w' →
  w' = w ∧ Hashmap.Size hm' = Hashmap.Size hm ∧
  Hashmap.Keys hm' = Hashmap.Keys hm ∧ Hashmap.Values hm' = Hashmap.Values hm ∧
  Hashmap.KeySize hm' = Hashmap.KeySize hm ∧ Hashmap.ValueSize hm' = Hashmap.ValueSize hm ∧
  Hashmap.Hash hm' = Hashmap.Hash hm ∧ Hashmap.KeyComp hm' = Hashmap.KeyComp hm.
Proof.
  unfold Hashmap.SUTLHashmapGet. intros H.
  apply bind_Ok in H as (hm1 & w1 & H1 & H).
  apply stage_key_Ok in H1 as (-> & pk & rest & -> & Ed).
  apply bind_Ok in H as (q & w2 & HG & H).
  apply ret_Ok in H as [H ->]. injection H as _ ->.
  assert (w2 = w); [| subst w2; repeat apply conj; reflexivity].
  unfold Hashmap.SUTL_InternalHashmapGet in HG.
  apply bind_Ok in HG as (k' & w3 & Hst & HG).
  unfold Hashmap.staged_key in Hst.
  apply bind_Ok in Hst as (b & w4 & Hd & Hst). apply deref_Ok in Hd as [_ ->].
  apply load_Ok in Hst as (-> & _).
  apply bind_Ok in HG as (ksize & w5 & Hks & HG).
  apply VectorSize_Ok in Hks as (kb & _ & _ & ->).
  destruct (Hashmap.KeySize _ =? 0); [discriminate HG |].
  apply bind_Ok in HG as (found & w6 & Hscan & HG).
  assert (w6 = w).
  { clear HG. revert Hscan. generalize 0.
    generalize (Z.to_nat (ksize / Hashmap.KeySize (Hashmap.set_ParamK hm (Some pk)))).
    intros n. induction n as [| n IH]; intros i Hscan; simpl in Hscan.
    - apply ret_Ok in Hscan as [_ ->]. reflexivity.
    - apply bind_Ok in Hscan as (c & w7 & Hc & Hscan).
      unfold Hashmap.key_matches in Hc.
      apply bind_Ok in Hc as (kb1 & w8 & Hd & Hc). apply deref_Ok in Hd as [_ ->].
      apply bind_Ok in Hc as (stored & w9 & Hl & Hc). apply load_Ok in Hl as (-> & _).
      apply ret_Ok in Hc as [-> ->].
      destruct (Hashmap.KeyComp _ _ _).
      + apply ret_Ok in Hscan as [_ ->]. reflexivity.
      + apply IH in Hscan. exact Hscan. }
  subst w6. destruct found; apply ret_Ok in HG as [_ ->]; reflexivity.
Qed.

(** X20. A call of [Insert], [Erase] or [Get] that returns has touched at
    most the bucket of its key: the two arrays of every other bucket, the
    key and value sizes and the injected functions are as before. *)
Theorem call_touches_one_bucket (P : platform) (hm : Hashmap.SUTLHashmap) (o : map_op)
        (w : world) (hm' : Hashmap.SUTLHashmap) (w' : world) :
  blen (op_key o) = Hashmap.KeySize hm →
  run_op P hm o w = Ok hm' w' →
  other_buckets_kept hm hm' (Hashmap.bucket_index hm (op_key o)).
Proof.
  intros Hk H. destruct o as [k v | k | k]; simpl in *.
  - apply bind_Ok in H as ([r hm1] & w1 & HI & H). apply ret_Ok in H as [-> _].
    apply (Insert_frame P hm k v w r hm1 w1); assumption.
  - apply (Erase_frame hm k w hm' w'); assumption.
  - apply bind_Ok in H as ([p hm1] & w1 & HG & H). apply ret_Ok in H as [-> _].
    apply Get_frame in HG as (_ & _ & EK & EV & E1 & E2 & E3 & E4).
    apply other_buckets_kept_update; try assumption; left; assumption.
Qed.

Lemma call_touches_one_bucket_witness :
  ∃ hm' w',
    run_op (plain 170) two_entry_table (OpErase (le4 25)) initial_world = Ok hm' w' ∧
    other_buckets_kept two_entry_table hm'
      (Hashmap.bucket_index two_entry_table (op_key (OpErase (le4 25)))).
Proof.
  eexists. eexists. split.
  - vm_compute. reflexivity.
  - eapply (call_touches_one_bucket (plain 170) two_entry_table (OpErase (le4 25))
                                    initial_world).
    + reflexivity.
    + vm_compute. reflexivity.
Defined.

(** X21. [Get] is a read: when it returns, the size field, every bucket
    array, the sizes and the functions of the table are as before, nothing
    was allocated and nothing was reported; only the scratch cell that
    holds the key was written. *)
Theorem Get_changes_nothing (hm : Hashmap.SUTLHashmap) (k : list Z) (w : world)
        (p : option Z) (hm' : Hashmap.SUTLHashmap) (w' : world) :
  Hashmap.SUTLHashmapGet hm k w = Ok (p, hm') w' →
  w' = w ∧ Hashmap.Size hm' = Hashmap.Size hm ∧
  Hashmap.Keys hm' = Hashmap.Keys hm ∧ Hashmap.Values hm' = Hashmap.Values hm ∧
  Hashmap.KeySize hm' = Hashmap.KeySize hm ∧ Hashmap.ValueSize hm' = Hashmap.ValueSize hm ∧
  Hashmap.Hash hm' = Hashmap.Hash hm ∧ Hashmap.KeyComp hm' = Hashmap.KeyComp hm ∧
  Hashmap.ParamV hm' = Hashmap.ParamV hm.
Proof.
  intros H. pose proof (Get_frame hm k w p hm' w' H) as (E0 & E1 & E2 & E3 & E4 & E5 & E6 & E7).
  repeat apply conj; try assumption.
  unfold Hashmap.SUTLHashmapGet in H.
  apply bind_Ok in H as (hm1 & w1 & H1 & H).
  apply stage_key_Ok in H1 as (-> & pk & rest & -> & Ed).
  apply bind_Ok in H as (q & w2 & HG & H).
  apply ret_Ok in H as [H _]. injection H as _ ->. reflexivity.
Qed.

Lemma Get_changes_nothing_witness :
  ∃ p hm' w',
    Hashmap.SUTLHashmapGet two_entry_table (le4 57) initial_world = Ok (p, hm') w' ∧
    (w' = initial_world ∧ Hashmap.Size hm' = Hashmap.Size two_entry_table ∧
     Hashmap.Keys hm' = Hashmap.Keys two_entry_table ∧
     Hashmap.Values hm' = Hashmap.Values two_entry_table ∧
     Hashmap.KeySize hm' = Hashmap.KeySize two_entry_table ∧
     Hashmap.ValueSize hm' = Hashmap.ValueSize two_entry_table ∧
     Hashmap.Hash hm' = Hashmap.Hash two_entry_table ∧
     Hashmap.KeyComp hm' = Hashmap.KeyComp two_entry_table ∧
     Hashmap.ParamV hm' = Hashmap.ParamV two_entry_table).
Proof.
  eexists. eexists. eexists. split.
  - vm_compute. reflexivity.
  - eapply (Get_changes_nothing two_entry_table (le4 57) initial_world).
    vm_compute. reflexivity.
Defined.

(** ** Hash sets: one key through insert, get and erase *)

Section SetRoundTrip.
Variable P : platform.
Variables (K : Z) (hash : list Z → Z) (cmp : list Z → list Z → bool).
Variable k : list Z.
Hypothesis HK : 0 < K.
Hypothesis Hk : blen k = K.
Hypothesis Hrefl : cmp k k = true.
Local Abbreviation set_ix := (set_ix hash k).
Local Abbreviation set_in_state := (set_in_state K hash cmp k).

Lemma set_get_hit hs s w :
  set_in_state hs k s →
  ∃ hs', Hashset.SUTLHashsetGet hs k w = Ok (Some 0, hs') w ∧
         set_key_at hs' k 0 w = Ok k w ∧ set_in_state hs' k s.
Proof.
  intros St0.
  destruct (set_stage_key K hash cmp k Hk hs k s w St0) as (hs1 & pk & E1 & St1 & Epk & Hpk & Lk).
  pose proof St1 as [S1 S2 S4 S5 _ S7 (kb & Ekb & Wk & Ek1 & Sk & Ck)].
  exists hs1. split; [| split; [| assumption]].
  - unfold Hashset.SUTLHashsetGet, bind. rewrite E1.
    unfold Hashset.SUTL_InternalHashsetGet, bind.
    rewrite (set_staged_key_of K hash cmp k hs1 k s pk) by assumption.
    rewrite (set_bucket_index K hash cmp k hs1 k s) by assumption.
    rewrite (set_bucket_at hash k _ _ Ekb). vred. rewrite Sk, S2, Hk.
    destruct (Z.eqb_spec K 0) as [? | _]; [lia |].
    rewrite div_same_pos by lia. simpl Hashset.find_scan. unfold bind.
    rewrite (set_key_matches_first K hash cmp k Hk Hrefl hs1 s) by assumption.
    unfold ret. rewrite Z.mul_0_l, (wrap_small 0) by words. reflexivity.
  - unfold set_key_at. rewrite (set_bucket_index K hash cmp k hs1 k s) by assumption.
    rewrite (set_bucket_at hash k _ _ Ekb). vred. rewrite S2.
    destruct Wk as [Hs _ Hd _]. rewrite Ek1, Z.mul_1_r in Hd.
    rewrite load_ok by lia. rewrite drop_0.
    unfold Vector.contents in Ck. rewrite Sk, Ek1, Z.mul_1_r, Hk in Ck.
    unfold ret. rewrite Ck. reflexivity.
Qed.

Lemma set_erase_hit hs s w :
  set_in_state hs k s →
  ∃ hs', Hashset.SUTLHashsetErase hs k w = Ok hs' w ∧ set_in_state hs' [] (wrap (s - 1)).
Proof.
  intros St0.
  destruct (set_stage_key K hash cmp k Hk hs k s w St0) as (hs1 & pk & E1 & St1 & Epk & Hpk & Lk).
  pose proof St1 as [S1 S2 S4 S5 S6 S7 (kb & Ekb & Wk & Ek1 & Sk & Ck)].
  pose proof (set_ix_lt hash k) as Hix.
  set (kb' := {| Vector.Size := Vector.Size kb - K; Vector.Capacity := Vector.Capacity kb;
                 Vector.Elemsize := Vector.Elemsize kb;
                 Vector.Data := erase_data (Vector.Data kb) (Vector.Elemsize kb)
                                           (Vector.Size kb) 0 K |}).
  exists (Hashset.set_Size (Hashset.set_Keys hs1 (Z.of_nat set_ix) (Some kb'))
                           (wrap (Hashset.Size hs1 - 1))).
  split.
  - unfold Hashset.SUTLHashsetErase, bind. rewrite E1.
    unfold Hashset.SUTL_InternalHashsetErase, bind.
    rewrite (set_staged_key_of K hash cmp k hs1 k s pk) by assumption.
    rewrite (set_bucket_index K hash cmp k hs1 k s) by assumption.
    rewrite (set_bucket_at hash k _ _ Ekb). vred. rewrite Sk, Hk.
    destruct (Z.to_nat K) as [| n] eqn:En; [lia |].
    simpl Hashset.find_scan. unfold bind.
    rewrite (set_key_matches_first K hash cmp k Hk Hrefl hs1 s) by assumption.
    unfold ret. rewrite S2, Z.mul_0_l, (wrap_small 0) by words.
    unfold Vector.SUTLVectorEraseN.
    rewrite EraseN_spec by (first [assumption | lia]).
    reflexivity.
  - assert (Dk : erase_data (Vector.Data kb) (Vector.Elemsize kb) (Vector.Size kb) 0 K
                 = Vector.Data kb).
    { unfold erase_data. rewrite Sk, Hk, Z.add_0_l, Z.eqb_refl. reflexivity. }
    destruct Wk as [Hsk Hek Hdk Hfk].
    split; cbn [Hashset.Size Hashset.KeySize Hashset.Hash Hashset.KeyComp
                Hashset.ParamK Hashset.Keys Hashset.set_Keys Hashset.set_Size];
      try assumption.
    + rewrite S1. reflexivity.
    + rewrite length_insert. assumption.
    + exists kb'. rewrite Nat2Z.id.
      rewrite !list_lookup_insert_eq by lia.
      assert (Zk : Vector.Size kb' = 0) by (unfold kb'; simpl; lia).
      rewrite !contents_nil by assumption.
      repeat apply conj; try reflexivity; try assumption.
      split; unfold kb'; cbn [Vector.Size Vector.Capacity Vector.Elemsize Vector.Data];
        rewrite ?Dk; first [assumption | lia].
Qed.

Lemma set_get_miss hs s w :
  set_in_state hs [] s →
  ∃ hs', Hashset.SUTLHashsetGet hs k w = Ok (None, hs') w ∧ set_in_state hs' [] s.
Proof.
  intros St0.
  destruct (set_stage_key K hash cmp k Hk hs [] s w St0) as (hs1 & pk & E1 & St1 & Epk & Hpk & Lk).
  pose proof St1 as [S1 S2 S4 S5 _ S7 (kb & Ekb & Wk & Ek1 & Sk & Ck)].
  exists hs1. split; [| assumption].
  unfold Hashset.SUTLHashsetGet, bind. rewrite E1.
  unfold Hashset.SUTL_InternalHashsetGet, bind.
  rewrite (set_staged_key_of K hash cmp k hs1 [] s pk) by assumption.
  rewrite (set_bucket_index K hash cmp k hs1 [] s) by assumption.
  rewrite (set_bucket_at hash k _ _ Ekb). vred. rewrite Sk, S2.
  destruct (Z.eqb_spec K 0) as [? | _]; [lia |].
  change (blen []) with 0. rewrite Z.div_0_l by lia. reflexivity.
Qed.

Lemma set_erase_miss hs s w :
  set_in_state hs [] s →
  ∃ hs', Hashset.SUTLHashsetErase hs k w = Ok hs' w ∧ set_in_state hs' [] s.
Proof.
  intros St0.
  destruct (set_stage_key K hash cmp k Hk hs [] s w St0) as (hs1 & pk & E1 & St1 & Epk & Hpk & Lk).
  pose proof St1 as [S1 S2 S4 S5 _ S7 (kb & Ekb & Wk & Ek1 & Sk & Ck)].
  exists hs1. split; [| assumption].
  unfold Hashset.SUTLHashsetErase, bind. rewrite E1.
  unfold Hashset.SUTL_InternalHashsetErase, bind.
  rewrite (set_staged_key_of K hash cmp k hs1 [] s pk) by assumption.
  rewrite (set_bucket_index K hash cmp k hs1 [] s) by assumption.
  rewrite (set_bucket_at hash k _ _ Ekb). vred. rewrite Sk. reflexivity.
Qed.

End SetRoundTrip.

(** X22. On a new hashset, for a key [k]: after [Insert(hs, k)], [Get(hs, k)]
    points to a stored key equal to [k] and the size is 1; after
    [Erase(hs, k)], [Get(hs, k)] is [NULL] and the size is 0; a second
    [Erase(hs, k)] leaves the size at 0; no call reports an error. *)
Theorem hashset_round_trip (P : platform) (K : Z) hash cmp (k : list Z) (w : world) :
  always_ok P →
  0 < K → K + 2 + HEADER ≤ SIZE_MAX →
  blen k = K →
  cmp k k = true →
  ∃ w', set_round_trip_run P K hash cmp k w = Ok (Some k, 1, None, 0, 0) w' ∧
        errors w' = errors w.
Proof.
  intros Hall HK HKf Hk Hrefl.
  assert (St0 : set_in_state K hash cmp k (new_hashset P (allocs w) K hash cmp) [] 0)
    by (apply new_set_in_state; assumption).
  edestruct (set_insert_new P K hash cmp k) with (w := more_allocs 34 w)
    as (hs1 & w1 & E1 & Er1 & St1); try eassumption.
  edestruct (set_get_hit K hash cmp k) with (w := w1)
    as (hs2 & E2 & Ev2 & St2); try eassumption.
  edestruct (set_erase_hit K hash cmp k) with (w := w1)
    as (hs3 & E3 & St3); try eassumption.
  edestruct (set_get_miss K hash cmp k) with (w := w1)
    as (hs4 & E4 & St4); try eassumption.
  edestruct (set_erase_miss K hash cmp k) with (w := w1)
    as (hs5 & E5 & St5); try eassumption.
  exists w1. split; [| exact Er1].
  unfold set_round_trip_run, bind, Hashset.SUTLHashsetNew.
  rewrite HashsetNew_ok by assumption.
  rewrite E1. cbn [fst snd]. rewrite E2. cbn [fst snd]. rewrite Ev2.
  unfold ret at 1. rewrite E3, E4. cbn [fst snd]. rewrite E5.
  rewrite (sst_Size _ _ _ _ _ _ _ St2), (sst_Size _ _ _ _ _ _ _ St4),
    (sst_Size _ _ _ _ _ _ _ St5).
  reflexivity.
Qed.

Lemma hashset_round_trip_witness :
  ∃ w', set_round_trip_run (plain 170) 4 HashUtils.SUTLHash_int HashUtils.SUTLCmp_int
                           (le4 25) initial_world
        = Ok (Some (le4 25), 1, None, 0, 0) w' ∧
        errors w' = errors initial_world.
Proof.
  apply (hashset_round_trip (plain 170) 4 HashUtils.SUTLHash_int HashUtils.SUTLCmp_int
                            (le4 25) initial_world).
  - apply always_ok_plain.
  - lia.
  - vm_compute. discriminate.
  - reflexivity.
  - reflexivity.
Defined.

(** ** Hash maps: the other entries of a bucket after an erasure *)

Lemma first_match_Some_iff cmp k K kd (n i j : nat) :
  first_match cmp k K kd n i = Some j ↔
  (i ≤ j < i + n)%nat ∧ cmp k (nth_entry K kd j) = true ∧
  ∀ j0, (i ≤ j0 < j)%nat → cmp k (nth_entry K kd j0) = false.
Proof.
  revert i. induction n as [| n IH]; intros i; cbn [first_match].
  - split; [discriminate | intros [? _]; lia].
  - destruct (cmp k (nth_entry K kd i)) eqn:E.
    + split.
      * intros [= <-]. repeat split; [lia | lia | exact E | intros j0 Hj0; lia].
      * intros (Hr & Hm & Hb). f_equal.
        destruct (decide (i = j)) as [-> | Hne]; [reflexivity |].
        rewrite Hb in E by lia. discriminate.
    + rewrite IH. split.
      * intros (Hr & Hm & Hb). repeat split; [lia | lia | exact Hm |].
        intros j0 Hj0. destruct (decide (j0 = i)) as [-> | Hne]; [exact E |].
        apply Hb. lia.
      * intros (Hr & Hm & Hb). assert (i ≠ j) by (intros ->; congruence).
        repeat split; [lia | lia | exact Hm |]. intros j0 Hj0. apply Hb. lia.
Qed.

Lemma first_match_None_iff cmp k K kd (n i : nat) :
  first_match cmp k K kd n i = None ↔
  ∀ j, (i ≤ j < i + n)%nat → cmp k (nth_entry K kd j) = false.
Proof.
  revert i. induction n as [| n IH]; intros i; cbn [first_match].
  - split; [intros _ j Hj; lia | reflexivity].
  - destruct (cmp k (nth_entry K kd i)) eqn:E.
    + split; [discriminate |]. intros H. rewrite H in E by lia. discriminate.
    + rewrite IH. split.
      * intros H j Hj. destruct (decide (j = i)) as [-> | Hne]; [exact E |]. apply H. lia.
      * intros H j Hj. apply H. lia.
Qed.

(** The entries of a bucket array after the entry [j] was cut out. *)
Lemma nth_entry_without size (d : list Z) (n j i : nat) :
  0 < size → blen d = Z.of_nat n * size → (j < n)%nat → (i < n - 1)%nat →
  nth_entry size (without_entry size d j) i
  = nth_entry size d (if (i <? j)%nat then i else S i).
Proof.
  intros Hs Hd Hj Hi. unfold nth_entry, without_entry, blen in *.
  set (E := Z.to_nat size). assert (HE : (0 < E)%nat) by (unfold E; lia).
  assert (Ld : length d = (n * E)%nat) by (unfold E; nia).
  clearbody E. clear Hd Hs size.
  apply list_eq. intros x.
  destruct (decide (x < E)%nat) as [Hx | Hx].
  2: { rewrite !lookup_take_ge by lia. reflexivity. }
  rewrite !lookup_take_lt, !lookup_drop by lia.
  assert (Lt : length (take (j * E) d) = (j * E)%nat) by (rewrite length_take; nia).
  destruct (Nat.ltb_spec i j) as [Hlt | Hge].
  - rewrite lookup_app_l by (rewrite Lt; nia).
    apply lookup_take_lt. nia.
  - rewrite lookup_app_r by (rewrite Lt; nia).
    rewrite Lt, lookup_drop. f_equal. nia.
Qed.

Lemma blen_without_entry size (d : list Z) (n j : nat) :
  0 < size → blen d = Z.of_nat n * size → (j < n)%nat →
  blen (without_entry size d j) = Z.of_nat (n - 1) * size.
Proof.
  intros Hs Hd Hj. unfold without_entry, blen in *.
  set (E := Z.to_nat size). assert (HE : Z.of_nat E = size) by (unfold E; lia).
  assert (Ld : length d = (n * E)%nat) by nia.
  rewrite length_app, length_take, length_drop, Ld. nia.
Qed.

(** X23. Erasing a key keeps the other entries of its bucket and keeps
    their keys and values paired: a key [k2] of the same bucket, stored at
    another entry than the erased one, is still found by [Get], one slot
    lower where it came after the erased entry, with the value it had. *)
Theorem Erase_keeps_other_entries (K V : Z) hash cmp (k k2 : list Z)
        (hm : Hashmap.SUTLHashmap) (kd vd : list Z) (s : Z) (n j i : nat) (w : world) :
  0 < K → 0 < V → blen k = K → blen k2 = K →
  in_state K V hash cmp k hm kd vd s →
  blen kd = Z.of_nat n * K → blen vd = Z.of_nat n * V →
  ix hash k2 = ix hash k →
  first_match cmp k K kd n 0 = Some j →
  first_match cmp k2 K kd n 0 = Some i →
  i ≠ j →
  ∃ hm1 hm2,
    Hashmap.SUTLHashmapErase hm k w = Ok hm1 w ∧
    Hashmap.SUTLHashmapGet hm1 k2 w
    = Ok (Some (Z.of_nat (if (i <? j)%nat then i else (i - 1)%nat) * V), hm2) w ∧
    Hashmap.value_at hm2 k2 (Z.of_nat (if (i <? j)%nat then i else (i - 1)%nat) * V) w
    = Ok (nth_entry V vd i) w.
Proof.
  intros HK HV Hk Hk2 St Hkd Hvd Hix Hj Hi Hne.
  destruct (erase_present K V hash cmp k HK HV Hk hm kd vd s n j w)
    as (hm1 & HE & St1); try assumption.
  apply first_match_Some_iff in Hi as (Hir & Him & Hib).
  pose proof (first_match_range _ _ _ _ _ _ _ Hj) as Hjr.
  set (i' := if (i <? j)%nat then i else (i - 1)%nat).
  assert (Hi' : (i' < n - 1)%nat) by (unfold i'; destruct (Nat.ltb_spec i j); lia).
  assert (Hg : (if (i' <? j)%nat then i' else S i') = i).
  { unfold i'. destruct (Nat.ltb_spec i j) as [H1 | H1].
    - destruct (Nat.ltb_spec i j); lia.
    - destruct (Nat.ltb_spec (i - 1) j); lia. }
  assert (Hm : first_match cmp k2 K (without_entry K kd j) (n - 1) 0 = Some i').
  { apply first_match_Some_iff. split; [lia |]. split.
    - rewrite (nth_entry_without K kd n j i') by (first [assumption | lia]).
      rewrite Hg. exact Him.
    - intros j0 Hj0.
      rewrite (nth_entry_without K kd n j j0) by (first [assumption | lia]).
      apply Hib. unfold i' in Hj0.
      destruct (Nat.ltb_spec i j), (Nat.ltb_spec j0 j); lia. }
  destruct (get_general K V hash cmp k2 HK HV Hk2 hm1
                        (without_entry K kd j) (without_entry V vd j) (wrap (s - 1))
                        (n - 1) w)
    as (hm2 & HG & _ & Hval).
  { apply (in_state_same_bucket K V hash cmp k k2); assumption. }
  { apply (blen_without_entry K kd n j); first [assumption | lia]. }
  { apply (blen_without_entry V vd n j); first [assumption | lia]. }
  rewrite Hm in HG. simpl option_map in HG.
  specialize (Hval i' Hm).
  rewrite (nth_entry_without V vd n j i') in Hval by (first [assumption | lia]).
  rewrite Hg in Hval.
  exists hm1, hm2. repeat apply conj; assumption.
Qed.

Lemma Erase_keeps_other_entries_witness :
  ∃ hm1 hm2,
    Hashmap.SUTLHashmapErase two_entry_table (le4 25) initial_world = Ok hm1 initial_world ∧
    Hashmap.SUTLHashmapGet hm1 (le4 57) initial_world
    = Ok (Some (Z.of_nat (if (1 <? 0)%nat then 1%nat else (1 - 1)%nat) * 4), hm2)
         initial_world ∧
    Hashmap.value_at hm2 (le4 57)
                     (Z.of_nat (if (1 <? 0)%nat then 1%nat else (1 - 1)%nat) * 4) initial_world
    = Ok (nth_entry 4 (le4 625 ++ le4 3249) 1) initial_world.
Proof.
  apply (Erase_keeps_other_entries 4 4 sample_hash sample_cmp (le4 25) (le4 57)
           two_entry_table (le4 25 ++ le4 57) (le4 625 ++ le4 3249) 2 2 0 1 initial_world).
  - lia.
  - lia.
  - reflexivity.
  - reflexivity.
  - apply two_entry_table_state. reflexivity.
  - reflexivity.
  - reflexivity.
  - reflexivity.
  - reflexivity.
  - reflexivity.
  - lia.
Defined.

(** X24. After [Erase] of a key that one entry of its bucket compares
    equal to, [Get] of that key returns [NULL], also where the bucket
    holds other keys, and the size field is one lower. *)
Theorem Erase_then_Get_is_NULL (K V : Z) hash cmp (k : list Z)
        (hm : Hashmap.SUTLHashmap) (kd vd : list Z) (s : Z) (n j : nat) (w : world) :
  0 < K → 0 < V → blen k = K →
  in_state K V hash cmp k hm kd vd s →
  blen kd = Z.of_nat n * K → blen vd = Z.of_nat n * V →
  first_match cmp k K kd n 0 = Some j →
  (∀ i, (i < n)%nat → i ≠ j → cmp k (nth_entry K kd i) = false) →
  ∃ hm1 hm2,
    Hashmap.SUTLHashmapErase hm k w = Ok hm1 w ∧
    Hashmap.SUTLHashmapGet hm1 k w = Ok (None, hm2) w ∧
    Hashmap.Size hm2 = wrap (s - 1).
Proof.
  intros HK HV Hk St Hkd Hvd Hj Hothers.
  destruct (erase_present K V hash cmp k HK HV Hk hm kd vd s n j w)
    as (hm1 & HE & St1); try assumption.
  pose proof (first_match_range _ _ _ _ _ _ _ Hj) as Hjr.
  assert (Hm : first_match cmp k K (without_entry K kd j) (n - 1) 0 = None).
  { apply first_match_None_iff. intros i Hi.
    rewrite (nth_entry_without K kd n j i) by (first [assumption | lia]).
    apply Hothers; destruct (Nat.ltb_spec i j); lia. }
  destruct (get_general K V hash cmp k HK HV Hk hm1
                        (without_entry K kd j) (without_entry V vd j) (wrap (s - 1))
                        (n - 1) w)
    as (hm2 & HG & St2 & _).
  { assumption. }
  { apply (blen_without_entry K kd n j); first [assumption | lia]. }
  { apply (blen_without_entry V vd n j); first [assumption | lia]. }
  rewrite Hm in HG. simpl option_map in HG.
  exists hm1, hm2. repeat apply conj; try assumption.
  exact (st_Size _ _ _ _ _ _ _ _ _ St2).
Qed.

Lemma Erase_then_Get_is_NULL_witness :
  ∃ hm1 hm2,
    Hashmap.SUTLHashmapErase two_entry_table (le4 57) initial_world = Ok hm1 initial_world ∧
    Hashmap.SUTLHashmapGet hm1 (le4 57) initial_world = Ok (None, hm2) initial_world ∧
    Hashmap.Size hm2 = wrap (2 - 1).
Proof.
  apply (Erase_then_Get_is_NULL 4 4 sample_hash sample_cmp (le4 57)
           two_entry_table (le4 25 ++ le4 57) (le4 625 ++ le4 3249) 2 2 1 initial_world).
  - lia.
  - lia.
  - reflexivity.
  - apply two_entry_table_state. reflexivity.
  - reflexivity.
  - reflexivity.
  - reflexivity.
  - intros i Hi Hne. assert (i = 0%nat) as -> by lia. reflexivity.
Defined.

(** ** The string hash, and tables made when memory is short *)

(** X25. [SUTLHash_string] returns a hash exactly for the strings whose
    length is a multiple of [sizeof(size_t)], namely [SIZE_MAX] XORed with
    every word of the string; for every other length it dereferences the
    accumulator as an address. *)
Theorem SUTLHash_string_whole_words_only (b : Vector.SUTLVector) (w : world) :
  0 ≤ Vector.Size b ≤ blen (Vector.Data b) → blen (Vector.Data b) ≤ SIZE_MAX →
  Vector.Elemsize b = 1 →
  (Vector.Size b mod sizeof_size_t = 0 →
   HashUtils.SUTLHash_string (Some b) w
   = Ok (fold_words (Vector.contents b) (Z.to_nat (Vector.Size b / sizeof_size_t)) SIZE_MAX)
        w) ∧
  (Vector.Size b mod sizeof_size_t ≠ 0 →
   ∃ addr, HashUtils.SUTLHash_string (Some b) w = Fault (WildPointer addr)).
Proof.
  intros Hs Hd He. split.
  - intros Hrem. unfold sizeof_size_t in *.
    pose proof (Z.div_mod (Vector.Size b) 8 ltac:(lia)) as Hdm.
    assert (Hq : 0 ≤ Vector.Size b / 8) by (apply Z.div_pos; lia).
    unfold HashUtils.SUTLHash_string, SUTLStr.SUTLStringSize. vred.
    change sizeof_size_t with 8. rewrite Hrem.
    rewrite xor_words_ok by (unfold sizeof_size_t; lia).
    simpl. unfold ret.
    change (Z.to_nat (8 * 0)) with 0%nat. rewrite drop_0.
    unfold Vector.contents. rewrite He, Z.mul_1_r.
    rewrite fold_words_take by lia. reflexivity.
  - intros Hrem. apply SUTLHash_string_tail_is_wild; assumption.
Qed.

Lemma SUTLHash_string_whole_words_only_witness :
  HashUtils.SUTLHash_string
    (Some {| Vector.Size := 8; Vector.Capacity := 10; Vector.Elemsize := 1;
             Vector.Data := [48; 49; 50; 51; 52; 53; 54; 55; 0; 0] |}) initial_world
  = Ok (fold_words [48; 49; 50; 51; 52; 53; 54; 55] 1 SIZE_MAX) initial_world ∧
  ∃ addr, HashUtils.SUTLHash_string (Some (digits 0)) initial_world
          = Fault (WildPointer addr).
Proof.
  split.
  - apply (proj1 (SUTLHash_string_whole_words_only
                    {| Vector.Size := 8; Vector.Capacity := 10; Vector.Elemsize := 1;
                       Vector.Data := [48; 49; 50; 51; 52; 53; 54; 55; 0; 0] |}
                    initial_world
                    ltac:(vm_compute; split; discriminate)
                    ltac:(vm_compute; discriminate)
                    ltac:(reflexivity))).
    reflexivity.
  - apply (proj2 (SUTLHash_string_whole_words_only (digits 0) initial_world
                    ltac:(vm_compute; split; discriminate)
                    ltac:(vm_compute; discriminate)
                    ltac:(reflexivity))).
    vm_compute. discriminate.
Defined.

(** X26. [SUTL_InternalHashmapNew] and [SUTL_InternalHashsetNew] do not
    check the scratch vector they allocate first: where that allocation is
    refused, the [Resize] that follows reads the size through [NULL]. *)
Theorem New_refused_allocation (P : platform) (K V : Z) hash cmp (w : world) :
  alloc_ok P (allocs w) HEADER = false →
  Hashmap.SUTLHashmapNew P K V hash cmp w = Fault NullHandle ∧
  Hashset.SUTLHashsetNew P K hash cmp w = Fault NullHandle.
Proof.
  intros Hfail. split.
  - unfold Hashmap.SUTLHashmapNew, Hashmap.SUTL_InternalHashmapNew.
    unfold Vector.SUTLVectorNew, Vector.SUTL_InternalVectorNew, SHRN_MALLOC, SHRN_REALLOC.
    unfold bind at 1 2. change (sizeof_size_t * 3) with HEADER. rewrite Hfail.
    unfold SUTLErrorHandler, bind at 1. unfold ret at 1. unfold bind at 1 2.
    cbn [allocs errors].
    destruct (alloc_ok P (S (allocs w)) HEADER); reflexivity.
  - unfold Hashset.SUTLHashsetNew, Hashset.SUTL_InternalHashsetNew.
    unfold Vector.SUTLVectorNew, Vector.SUTL_InternalVectorNew, SHRN_MALLOC, SHRN_REALLOC.
    unfold bind at 1 2. change (sizeof_size_t * 3) with HEADER. rewrite Hfail.
    reflexivity.
Qed.

Lemma New_refused_allocation_witness :
  Hashmap.SUTLHashmapNew {| alloc_ok := fun _ _ => false; fresh_byte := fun _ _ => 0 |}
                         4 4 sample_hash sample_cmp initial_world = Fault NullHandle ∧
  Hashset.SUTLHashsetNew {| alloc_ok := fun _ _ => false; fresh_byte := fun _ _ => 0 |}
                         4 sample_hash sample_cmp initial_world = Fault NullHandle.
Proof.
  apply (New_refused_allocation {| alloc_ok := fun _ _ => false; fresh_byte := fun _ _ => 0 |}
                                4 4 sample_hash sample_cmp initial_world).
  reflexivity.
Defined.

(** ** Hash sets: buckets that hold several keys *)

Lemma two_entry_set_built :
  (hs <- Hashset.SUTLHashsetNew (plain 170) 4 sample_hash sample_cmp ;;
   r <- Hashset.SUTLHashsetInsert (plain 170) hs (le4 25) ;;
   r <- Hashset.SUTLHashsetInsert (plain 170) (snd r) (le4 57) ;;
   ret (snd r)) initial_world
  = Ok two_entry_set {| allocs := 36; errors := [] |}.
Proof. reflexivity. Qed.

Lemma two_entry_set_state (k : list Z) :
  set_ix sample_hash k = 25%nat →
  set_in_state 4 sample_hash sample_cmp k two_entry_set (le4 25 ++ le4 57) 2.
Proof.
  intros Hix. split; try reflexivity.
  - eexists. split; [reflexivity |]. vm_compute. discriminate.
  - rewrite Hix. eexists. split; [reflexivity |].
    repeat apply conj; try reflexivity;
      split; simpl; unfold blen, HEADER, sizeof_size_t, SIZE_MAX; simpl; lia.
Qed.

Lemma last_match_unique cmp k K kd (n i j : nat) found :
  (i ≤ j < i + n)%nat → cmp k (nth_entry K kd j) = true →
  (∀ j0, (i ≤ j0 < i + n)%nat → j0 ≠ j → cmp k (nth_entry K kd j0) = false) →
  last_match cmp k K kd n i found = Some j.
Proof.
  revert i found. induction n as [| n IH]; intros i found Hr Hm Ho; [lia |].
  cbn [last_match]. destruct (decide (i = j)) as [-> | Hne].
  - rewrite Hm. clear IH Hr.
    assert (G : ∀ m i0, (j < i0)%nat → (i0 + m ≤ S j + n)%nat →
                        last_match cmp k K kd m i0 (Some j) = Some j).
    { intros m. induction m as [| m IHm]; intros i0 H1 H2; [reflexivity |].
      cbn [last_match]. rewrite Ho by lia. apply IHm; lia. }
    apply G; lia.
  - rewrite Ho by lia. apply IH; [lia | assumption |].
    intros j0 Hj0 Hj0'. apply Ho; lia.
Qed.

Lemma last_match_none cmp k K kd (n i : nat) found :
  (∀ j0, (i ≤ j0 < i + n)%nat → cmp k (nth_entry K kd j0) = false) →
  last_match cmp k K kd n i found = found.
Proof.
  revert i found. induction n as [| n IH]; intros i found Ho; [reflexivity |].
  cbn [last_match]. rewrite Ho by lia. apply IH. intros j0 Hj0. apply Ho. lia.
Qed.

Section SetBuckets.
Variable P : platform.
Variables (K : Z) (hash : list Z → Z) (cmp : list Z → list Z → bool).
Variable k : list Z.
Hypothesis HK : 0 < K.
Hypothesis Hk : blen k = K.
Local Abbreviation set_ix := (set_ix hash k).
Local Abbreviation set_in_state := (set_in_state K hash cmp k).

Lemma set_key_matches_at hs kd s (i : nat) w :
  set_in_state hs kd s → (Z.of_nat i + 1) * K ≤ blen kd →
  Hashset.key_matches hs (Z.of_nat set_ix) k (Z.of_nat i) w
  = Ok (cmp k (nth_entry K kd i)) w.
Proof.
  intros [S1 S2 S4 S5 _ S7 (kb & Ekb & Wk & Ek1 & Sk & Ck)] Hin.
  destruct Wk as [Hs _ Hd Hf]. rewrite Ek1, Z.mul_1_r in Hd, Hf.
  assert (0 ≤ Z.of_nat i * K) by nia.
  unfold Hashset.key_matches. rewrite (set_bucket_at hash k _ _ Ekb). vred.
  rewrite S2, S5.
  rewrite (wrap_small (Z.of_nat i * K)) by (unfold HEADER, sizeof_size_t, SIZE_MAX in *; lia).
  rewrite load_ok by lia.
  unfold ret. do 2 f_equal.
  unfold nth_entry. rewrite <- Ck. unfold Vector.contents. rewrite Ek1, Z.mul_1_r.
  replace (Z.to_nat (Z.of_nat i * K)) with (i * Z.to_nat K)%nat by nia.
  apply (take_drop_prefix _ _ (Z.to_nat (Vector.Size kb))).
  - rewrite take_take, Nat.min_id. reflexivity.
  - nia.
Qed.

Lemma set_find_scan_first hs kd s (m i : nat) w :
  set_in_state hs kd s → Z.of_nat (i + m) * K ≤ blen kd →
  Hashset.find_scan hs (Z.of_nat set_ix) k m (Z.of_nat i) w
  = Ok (option_map Z.of_nat (first_match cmp k K kd m i)) w.
Proof.
  intros St. revert i. induction m as [| m IH]; intros i Hin; [reflexivity |].
  cbn [Hashset.find_scan first_match]. unfold bind.
  rewrite (set_key_matches_at hs kd s) by (first [assumption | nia]).
  destruct (cmp k (nth_entry K kd i)); [reflexivity |].
  replace (Z.of_nat i + 1) with (Z.of_nat (S i)) by lia.
  apply IH. replace (S i + m)%nat with (i + S m)%nat by lia. exact Hin.
Qed.

(** The scan of [Insert] ends with the last match. *)
Lemma set_insert_scan_last hs kd s (n i : nat) (found : option nat) w :
  set_in_state hs kd s → Z.of_nat (i + n) * K ≤ blen kd →
  (∀ j, found = Some j → (j < i)%nat) →
  Hashset.insert_scan hs (Z.of_nat set_ix) k n (Z.of_nat i)
                      (option_map (λ j, Z.of_nat j * K) found) w
  = Ok (option_map (λ j, Z.of_nat j * K) (last_match cmp k K kd n i found)) w.
Proof.
  intros St. revert i found. induction n as [| n IH]; intros i found Hin Hf; [reflexivity |].
  cbn [Hashset.insert_scan last_match]. unfold bind.
  rewrite (set_key_matches_at hs kd s) by (first [assumption | nia]).
  replace (Z.of_nat i + 1) with (Z.of_nat (S i)) by lia.
  assert (Hin' : Z.of_nat (S i + n) * K ≤ blen kd)
    by (replace (S i + n)%nat with (i + S n)%nat by lia; exact Hin).
  pose proof St as [_ S2 _ _ _ _ (kb & _ & [Hs _ Hd Hf'] & Ek1 & Sk & _)].
  rewrite Ek1, Z.mul_1_r in Hd, Hf'.
  rewrite S2.
  rewrite (wrap_small (Z.of_nat i * K))
    by (unfold HEADER, sizeof_size_t, SIZE_MAX in *; nia).
  destruct (cmp k (nth_entry K kd i)).
  - apply (IH (S i) (Some i)); [assumption |]. intros j [= <-]. lia.
  - apply (IH (S i) found); [assumption |]. intros j Hj. apply Hf in Hj. lia.
Qed.

Lemma set_get_general hs kd s (n : nat) w :
  set_in_state hs kd s → blen kd = Z.of_nat n * K →
  ∃ hs',
    Hashset.SUTLHashsetGet hs k w
    = Ok (option_map (λ j, Z.of_nat j * K) (first_match cmp k K kd n 0), hs') w ∧
    set_in_state hs' kd s ∧
    ∀ j, first_match cmp k K kd n 0 = Some j →
         set_key_at hs' k (Z.of_nat j * K) w = Ok (nth_entry K kd j) w.
Proof.
  intros St0 Hkd.
  destruct (set_stage_key K hash cmp k Hk hs kd s w St0)
    as (hs1 & pk & E1 & St1 & Epk & Hpk & Lk).
  pose proof St1 as [S1 S2 S4 S5 _ S7 (kb & Ekb & Wk & Ek1 & Sk & Ck)].
  pose proof Wk as [Hsk _ Hdk Hfk]. rewrite Ek1, Z.mul_1_r in Hdk, Hfk.
  exists hs1. split; [| split; [assumption |]].
  - unfold Hashset.SUTLHashsetGet, bind. rewrite E1.
    unfold Hashset.SUTL_InternalHashsetGet, bind.
    rewrite (set_staged_key_of K hash cmp k hs1 kd s pk) by assumption.
    rewrite (set_bucket_index K hash cmp k hs1 kd s) by assumption.
    rewrite (set_bucket_at hash k _ _ Ekb). vred. rewrite Sk, S2, Hkd.
    destruct (Z.eqb_spec K 0) as [? | _]; [lia |].
    rewrite Z.div_mul by lia. rewrite Nat2Z.id.
    pose proof (set_find_scan_first hs1 kd s n 0 w St1) as Hscan.
    change (Z.of_nat 0) with 0 in Hscan. rewrite Hscan by (simpl; lia).
    destruct (first_match cmp k K kd n 0) as [j |] eqn:Ef; [| reflexivity].
    apply first_match_range in Ef. simpl. unfold ret.
    rewrite (wrap_small (Z.of_nat j * K))
      by (unfold HEADER, sizeof_size_t, SIZE_MAX in *; nia).
    reflexivity.
  - intros j Ef. apply first_match_range in Ef.
    unfold set_key_at.
    rewrite (set_bucket_index K hash cmp k hs1 kd s) by assumption.
    rewrite (set_bucket_at hash k _ _ Ekb). vred. rewrite S2.
    rewrite load_ok by nia.
    unfold ret. do 2 f_equal.
    unfold nth_entry. rewrite <- Ck. unfold Vector.contents. rewrite Ek1, Z.mul_1_r.
    replace (Z.to_nat (Z.of_nat j * K)) with (j * Z.to_nat K)%nat by nia.
    apply (take_drop_prefix _ _ (Z.to_nat (Vector.Size kb))).
    + rewrite take_take, Nat.min_id. reflexivity.
    + nia.
Qed.

(** [Insert] in a bucket of [n] keys: the scan's last match decides. *)
Lemma set_insert_general hs kd s (n : nat) w :
  always_ok P →
  set_in_state hs kd s → blen kd = Z.of_nat n * K →
  blen kd + K + 2 + HEADER ≤ SIZE_MAX →
  ∃ hs' w',
    Hashset.SUTLHashsetInsert P hs k w
    = Ok (Some (match last_match cmp k K kd n 0 None with
                | Some j => Z.of_nat j * K
                | None => blen kd
                end), hs') w' ∧
    errors w' = errors w ∧
    set_in_state hs' (match last_match cmp k K kd n 0 None with
                      | Some _ => kd
                      | None => kd ++ k
                      end) (wrap (s + 1)) ∧
    (last_match cmp k K kd n 0 None ≠ None → w' = w).
Proof.
  intros Hall St0 Hkd Fk.
  destruct (set_stage_key K hash cmp k Hk hs kd s w St0)
    as (hs1 & pk & E1 & St1 & Epk & Hpk & Lk).
  pose proof St1 as [S1 S2 S4 S5 S6 S7 S9].
  pose proof S9 as (kb & Ekb & Wk & Ek1 & Sk & Ck).
  assert (St3 : set_in_state (Hashset.set_Size hs1 (wrap (Hashset.Size hs1 + 1))) kd
                             (wrap (Hashset.Size hs1 + 1))).
  { split; try assumption. reflexivity. }
  pose proof (set_insert_scan_last _ kd _ n 0 None w St3) as Hscan.
  change (Z.of_nat 0) with 0 in Hscan. simpl option_map in Hscan at 1.
  assert (Hcall : ∀ X,
    (match last_match cmp k K kd n 0 None with
     | Some j => ret (Some (Z.of_nat j * K),
                      Hashset.set_Size hs1 (wrap (Hashset.Size hs1 + 1)))
     | None =>
         pk0 <- Vector.deref (Hashset.ParamK hs1) ;;
         r <- Vector.SUTLVectorPushN P (Some kb) (Vector.Data pk0) K ;;
         ret (fst r, Hashset.set_Keys (Hashset.set_Size hs1 (wrap (Hashset.Size hs1 + 1)))
                                      (Z.of_nat set_ix) (snd r))
     end) w = X →
    Hashset.SUTLHashsetInsert P hs k w = X).
  { intros X <-.
    unfold Hashset.SUTLHashsetInsert, bind. rewrite E1.
    unfold Hashset.SUTL_InternalHashsetInsert, bind.
    rewrite (set_staged_key_of K hash cmp k hs1 kd s pk) by assumption.
    rewrite (set_bucket_index K hash cmp k hs1 kd s) by assumption.
    cbn [Hashset.Keys Hashset.set_Size Hashset.set_Keys Hashset.KeySize Hashset.ParamK].
    rewrite (set_bucket_at hash k _ _ Ekb). vred. rewrite Sk, S2, Hkd.
    destruct (Z.eqb_spec K 0) as [? | _]; [lia |].
    rewrite Z.div_mul by lia. rewrite Nat2Z.id.
    rewrite Hscan by (first [simpl; lia | discriminate]).
    destruct (last_match cmp k K kd n 0 None); reflexivity. }
  destruct (last_match cmp k K kd n 0 None) as [j |] eqn:EL.
  - exists (Hashset.set_Size hs1 (wrap (Hashset.Size hs1 + 1))), w.
    split; [apply Hcall; reflexivity |]. split; [reflexivity |]. split; [| reflexivity].
    rewrite <- S1. exact St3.
  - destruct (PushN_ok P kb (Vector.Data pk) K w Wk Ek1)
      as (kb' & w1 & Ep1 & Er1 & Wk' & Ek1' & Sk' & Ck');
      [lia | rewrite Sk; lia | lia | intros _; apply Hall |].
    exists (Hashset.set_Keys (Hashset.set_Size hs1 (wrap (Hashset.Size hs1 + 1)))
                             (Z.of_nat set_ix) (Some kb')), w1.
    split; [| split; [assumption | split; [| intros H; contradiction]]].
    + apply Hcall. unfold bind. rewrite Epk. simpl. rewrite Ep1. simpl.
      rewrite Sk. reflexivity.
    + pose proof (set_ix_lt hash k).
      split; cbn [Hashset.Size Hashset.KeySize Hashset.Hash Hashset.KeyComp
                  Hashset.ParamK Hashset.Keys Hashset.set_Keys Hashset.set_Size];
        try assumption.
      * rewrite S1. reflexivity.
      * rewrite length_insert. assumption.
      * exists kb'. rewrite Nat2Z.id.
        rewrite !list_lookup_insert_eq by lia.
        rewrite Ck', Ck, Hpk, Sk', Sk.
        unfold blen. rewrite !length_app. unfold blen in Hk.
        repeat apply conj; first [assumption | reflexivity | lia].
Qed.

Lemma set_find_scan_found hs kd s (n m i j : nat) w :
  set_in_state hs kd s → Z.of_nat (i + n) * K ≤ blen kd →
  first_match cmp k K kd n i = Some j → (n ≤ m)%nat →
  Hashset.find_scan hs (Z.of_nat set_ix) k m (Z.of_nat i) w = Ok (Some (Z.of_nat j)) w.
Proof.
  intros St. revert m i. induction n as [| n IH]; intros m i Hin Hf Hm; [discriminate |].
  destruct m as [| m]; [lia |].
  cbn [Hashset.find_scan first_match] in *. unfold bind.
  rewrite (set_key_matches_at hs kd s) by (first [assumption | nia]).
  destruct (cmp k (nth_entry K kd i)).
  - injection Hf as ->. reflexivity.
  - replace (Z.of_nat i + 1) with (Z.of_nat (S i)) by lia.
    apply IH; [| assumption | lia].
    replace (S i + n)%nat with (i + S n)%nat by lia. exact Hin.
Qed.

Lemma set_erase_present hs kd s (n j : nat) w :
  set_in_state hs kd s → blen kd = Z.of_nat n * K →
  first_match cmp k K kd n 0 = Some j →
  ∃ hs', Hashset.SUTLHashsetErase hs k w = Ok hs' w ∧
         set_in_state hs' (without_entry K kd j) (wrap (s - 1)).
Proof.
  intros St0 Hkd Hsome.
  destruct (set_stage_key K hash cmp k Hk hs kd s w St0)
    as (hs1 & pk & E1 & St1 & Epk & Hpk & Lk).
  pose proof St1 as [S1 S2 S4 S5 S6 S7 (kb & Ekb & Wk & Ek1 & Sk & Ck)].
  pose proof (set_ix_lt hash k) as Hix.
  pose proof (first_match_range _ _ _ _ _ _ _ Hsome) as Hj.
  pose proof Wk as [Hsk _ Hdk Hfk].
  rewrite Ek1, Z.mul_1_r in Hdk, Hfk.
  assert (JK : 0 ≤ Z.of_nat j * K ∧ Z.of_nat j * K + K ≤ Vector.Size kb) by nia.
  set (kb' := {| Vector.Size := Vector.Size kb - K; Vector.Capacity := Vector.Capacity kb;
                 Vector.Elemsize := Vector.Elemsize kb;
                 Vector.Data := erase_data (Vector.Data kb) (Vector.Elemsize kb)
                                           (Vector.Size kb) (Z.of_nat j * K) K |}).
  exists (Hashset.set_Size (Hashset.set_Keys hs1 (Z.of_nat set_ix) (Some kb'))
                           (wrap (Hashset.Size hs1 - 1))).
  split.
  - unfold Hashset.SUTLHashsetErase, bind. rewrite E1.
    unfold Hashset.SUTL_InternalHashsetErase, bind.
    rewrite (set_staged_key_of K hash cmp k hs1 kd s pk) by assumption.
    rewrite (set_bucket_index K hash cmp k hs1 kd s) by assumption.
    rewrite (set_bucket_at hash k _ _ Ekb). vred.
    pose proof (set_find_scan_found hs1 kd s n (Z.to_nat (Vector.Size kb)) 0 j w St1) as Hscan.
    change (Z.of_nat 0) with 0 in Hscan.
    rewrite Hscan by (first [assumption | simpl; lia | nia]).
    rewrite S2.
    rewrite (wrap_small (Z.of_nat j * K))
      by (unfold HEADER, sizeof_size_t, SIZE_MAX in *; lia).
    unfold Vector.SUTLVectorEraseN.
    rewrite EraseN_spec by (first [assumption | lia]).
    reflexivity.
  - assert (Lk' : length (Vector.Data kb') = length (Vector.Data kb)).
    { unfold kb'. cbn [Vector.Data]. apply length_erase_data; rewrite ?Ek1; lia. }
    assert (Ck' : Vector.contents kb' = without_entry K kd j).
    { unfold Vector.contents, kb'. cbn [Vector.Data Vector.Size Vector.Elemsize].
      rewrite Ek1, Z.mul_1_r.
      pose proof (erase_data_contents (Vector.Data kb) 1 (Vector.Size kb) (Z.of_nat j * K) K)
        as HE.
      rewrite !Z.mul_1_r, !Z.mul_1_l in HE. rewrite HE by lia.
      unfold without_entry. rewrite <- Ck. unfold Vector.contents. rewrite Ek1, Z.mul_1_r.
      destruct (to_nat_entry j K) as [T1 T2]; [lia |].
      rewrite T1, T2. f_equal.
      - rewrite take_take. f_equal. lia.
      - symmetry. apply skipn_firstn_comm. }
    split; cbn [Hashset.Size Hashset.KeySize Hashset.Hash Hashset.KeyComp
                Hashset.ParamK Hashset.Keys Hashset.set_Keys Hashset.set_Size];
      try assumption.
    + rewrite S1. reflexivity.
    + rewrite length_insert. assumption.
    + exists kb'. rewrite Nat2Z.id.
      rewrite !list_lookup_insert_eq by lia.
      rewrite Ck'.
      assert (Lwk : blen (without_entry K kd j) = Vector.Size kb - K).
      { rewrite <- Ck'. unfold Vector.contents, blen. rewrite length_take, Lk'.
        unfold kb'. cbn [Vector.Size Vector.Elemsize]. rewrite Ek1.
        unfold blen in *. lia. }
      repeat apply conj; try reflexivity; try assumption.
      * split; unfold kb' in *; cbn [Vector.Size Vector.Capacity Vector.Elemsize Vector.Data] in *;
          unfold blen in *; rewrite ?Lk'; lia.
      * rewrite Lwk. reflexivity.
Qed.

End SetBuckets.

Lemma set_in_state_same_bucket K hash cmp k k2 hs kd s :
  set_ix hash k2 = set_ix hash k →
  set_in_state K hash cmp k hs kd s → set_in_state K hash cmp k2 hs kd s.
Proof.
  intros Hix [S1 S2 S4 S5 S6 S7 S9]. split; try assumption.
  rewrite Hix. exact S9.
Qed.

(** X27. In a hash set, [Insert] of a key that one entry of its bucket
    compares equal to appends nothing and returns the pointer to that
    stored key, the pointer [Get] returns; only the size field grows. *)
Theorem Hashset_Insert_existing_returns_stored_key
        (P : platform) (K : Z) hash cmp (k : list Z)
        (hs : Hashset.SUTLHashset) (kd : list Z) (s : Z) (n j : nat) (w : world) :
  always_ok P → 0 < K → blen k = K →
  set_in_state K hash cmp k hs kd s →
  blen kd = Z.of_nat n * K →
  blen kd + K + 2 + HEADER ≤ SIZE_MAX →
  (j < n)%nat → cmp k (nth_entry K kd j) = true →
  (∀ j0, (j0 < n)%nat → j0 ≠ j → cmp k (nth_entry K kd j0) = false) →
  ∃ hs1 hs2,
    Hashset.SUTLHashsetInsert P hs k w = Ok (Some (Z.of_nat j * K), hs1) w ∧
    set_in_state K hash cmp k hs1 kd (wrap (s + 1)) ∧
    Hashset.SUTLHashsetGet hs1 k w = Ok (Some (Z.of_nat j * K), hs2) w ∧
    set_key_at hs2 k (Z.of_nat j * K) w = Ok (nth_entry K kd j) w.
Proof.
  intros Hall HK Hk St Hkd Fk Hj Hm Ho.
  assert (HL : last_match cmp k K kd n 0 None = Some j).
  { apply last_match_unique; [lia | assumption |]. intros j0 Hj0. apply Ho. lia. }
  assert (HF : first_match cmp k K kd n 0 = Some j).
  { apply first_match_Some_iff. repeat apply conj; [lia | lia | assumption |].
    intros j0 Hj0. apply Ho; lia. }
  destruct (set_insert_general P K hash cmp k HK Hk hs kd s n w Hall St Hkd Fk)
    as (hs1 & w1 & HI & _ & St1 & Hw).
  rewrite HL in HI, St1, Hw. rewrite (Hw ltac:(discriminate)) in HI.
  destruct (set_get_general K hash cmp k HK Hk hs1 kd (wrap (s + 1)) n w St1 Hkd)
    as (hs2 & HG & _ & Hkey).
  rewrite HF in HG. simpl option_map in HG.
  exists hs1, hs2. repeat apply conj; try assumption.
  apply Hkey. exact HF.
Qed.

Lemma Hashset_Insert_existing_returns_stored_key_witness :
  ∃ hs1 hs2,
    Hashset.SUTLHashsetInsert (plain 170) two_entry_set (le4 57) initial_world
    = Ok (Some (Z.of_nat 1 * 4), hs1) initial_world ∧
    set_in_state 4 sample_hash sample_cmp (le4 57) hs1 (le4 25 ++ le4 57) (wrap (2 + 1)) ∧
    Hashset.SUTLHashsetGet hs1 (le4 57) initial_world
    = Ok (Some (Z.of_nat 1 * 4), hs2) initial_world ∧
    set_key_at hs2 (le4 57) (Z.of_nat 1 * 4) initial_world
    = Ok (nth_entry 4 (le4 25 ++ le4 57) 1) initial_world.
Proof.
  apply (Hashset_Insert_existing_returns_stored_key (plain 170) 4 sample_hash sample_cmp
           (le4 57) two_entry_set (le4 25 ++ le4 57) 2 2 1 initial_world).
  - intros ? ?. reflexivity.
  - lia.
  - reflexivity.
  - apply two_entry_set_state. reflexivity.
  - reflexivity.
  - vm_compute. discriminate.
  - lia.
  - reflexivity.
  - intros j0 Hj0 Hne. assert (j0 = 0%nat) as -> by lia. reflexivity.
Defined.

(** X28. In a hash set, [Insert] of a key that no entry of its bucket
    compares equal to appends the key's bytes to the bucket and returns the
    pointer to the new entry; where the comparison function is reflexive on
    the key, [Get] then returns that pointer, and it points to the key. *)
Theorem Hashset_Insert_absent_appends
        (P : platform) (K : Z) hash cmp (k : list Z)
        (hs : Hashset.SUTLHashset) (kd : list Z) (s : Z) (n : nat) (w : world) :
  always_ok P → 0 < K → blen k = K →
  set_in_state K hash cmp k hs kd s →
  blen kd = Z.of_nat n * K →
  blen kd + K + 2 + HEADER ≤ SIZE_MAX →
  first_match cmp k K kd n 0 = None →
  cmp k k = true →
  ∃ hs1 w1 hs2,
    Hashset.SUTLHashsetInsert P hs k w = Ok (Some (blen kd), hs1) w1 ∧
    errors w1 = errors w ∧
    set_in_state K hash cmp k hs1 (kd ++ k) (wrap (s + 1)) ∧
    Hashset.SUTLHashsetGet hs1 k w1 = Ok (Some (blen kd), hs2) w1 ∧
    set_key_at hs2 k (blen kd) w1 = Ok k w1.
Proof.
  intros Hall HK Hk St Hkd Fk Hnone Hrefl.
  assert (HL : last_match cmp k K kd n 0 None = None).
  { apply last_match_none. apply first_match_None_iff. exact Hnone. }
  destruct (set_insert_general P K hash cmp k HK Hk hs kd s n w Hall St Hkd Fk)
    as (hs1 & w1 & HI & He & St1 & _).
  rewrite HL in HI, St1.
  assert (Hkd' : blen (kd ++ k) = Z.of_nat (S n) * K).
  { unfold blen in *. rewrite length_app. lia. }
  destruct (set_get_general K hash cmp k HK Hk hs1 (kd ++ k) (wrap (s + 1)) (S n) w1 St1 Hkd')
    as (hs2 & HG & _ & Hkey).
  assert (HF : first_match cmp k K (kd ++ k) (S n) 0 = Some n).
  { apply (first_match_appended cmp k K kd n); first [assumption | lia]. }
  rewrite HF in HG. simpl option_map in HG.
  specialize (Hkey n HF).
  rewrite (nth_entry_app_r K kd k n) in Hkey by (first [assumption | lia]).
  rewrite <- Hkd in HG, Hkey.
  exists hs1, w1, hs2. repeat apply conj; assumption.
Qed.

Lemma Hashset_Insert_absent_appends_witness :
  ∃ hs1 w1 hs2,
    Hashset.SUTLHashsetInsert (plain 170) two_entry_set (le4 89) initial_world
    = Ok (Some (blen (le4 25 ++ le4 57)), hs1) w1 ∧
    errors w1 = errors initial_world ∧
    set_in_state 4 sample_hash sample_cmp (le4 89) hs1
                 ((le4 25 ++ le4 57) ++ le4 89) (wrap (2 + 1)) ∧
    Hashset.SUTLHashsetGet hs1 (le4 89) w1 = Ok (Some (blen (le4 25 ++ le4 57)), hs2) w1 ∧
    set_key_at hs2 (le4 89) (blen (le4 25 ++ le4 57)) w1 = Ok (le4 89) w1.
Proof.
  apply (Hashset_Insert_absent_appends (plain 170) 4 sample_hash sample_cmp (le4 89)
           two_entry_set (le4 25 ++ le4 57) 2 2 initial_world).
  - apply always_ok_plain.
  - lia.
  - reflexivity.
  - apply two_entry_set_state. reflexivity.
  - reflexivity.
  - vm_compute. discriminate.
  - reflexivity.
  - reflexivity.
Defined.

(** X29. In a hash set, [Erase] of a stored key cuts the first entry that
    compares equal out of the bucket and lowers the size field by one; a
    key [k2] of the same bucket stored at another entry is still found by
    [Get], one slot lower where it came after the erased entry. *)
Theorem Hashset_Erase_removes_only_first_match (K : Z) hash cmp (k k2 : list Z)
        (hs : Hashset.SUTLHashset) (kd : list Z) (s : Z) (n j i : nat) (w : world) :
  0 < K → blen k = K → blen k2 = K →
  set_in_state K hash cmp k hs kd s →
  blen kd = Z.of_nat n * K →
  set_ix hash k2 = set_ix hash k →
  first_match cmp k K kd n 0 = Some j →
  first_match cmp k2 K kd n 0 = Some i →
  i ≠ j →
  ∃ hs1 hs2,
    Hashset.SUTLHashsetErase hs k w = Ok hs1 w ∧
    set_in_state K hash cmp k hs1 (without_entry K kd j) (wrap (s - 1)) ∧
    Hashset.SUTLHashsetGet hs1 k2 w
    = Ok (Some (Z.of_nat (if (i <? j)%nat then i else (i - 1)%nat) * K), hs2) w ∧
    set_key_at hs2 k2 (Z.of_nat (if (i <? j)%nat then i else (i - 1)%nat) * K) w
    = Ok (nth_entry K kd i) w.
Proof.
  intros HK Hk Hk2 St Hkd Hix Hj Hi Hne.
  destruct (set_erase_present K hash cmp k HK Hk hs kd s n j w)
    as (hs1 & HE & St1); try assumption.
  apply first_match_Some_iff in Hi as (Hir & Him & Hib).
  pose proof (first_match_range _ _ _ _ _ _ _ Hj) as Hjr.
  set (i' := if (i <? j)%nat then i else (i - 1)%nat).
  assert (Hi' : (i' < n - 1)%nat) by (unfold i'; destruct (Nat.ltb_spec i j); lia).
  assert (Hg : (if (i' <? j)%nat then i' else S i') = i).
  { unfold i'. destruct (Nat.ltb_spec i j) as [H1 | H1].
    - destruct (Nat.ltb_spec i j); lia.
    - destruct (Nat.ltb_spec (i - 1) j); lia. }
  assert (Hm : first_match cmp k2 K (without_entry K kd j) (n - 1) 0 = Some i').
  { apply first_match_Some_iff. split; [lia |]. split.
    - rewrite (nth_entry_without K kd n j i') by (first [assumption | lia]).
      rewrite Hg. exact Him.
    - intros j0 Hj0.
      rewrite (nth_entry_without K kd n j j0) by (first [assumption | lia]).
      apply Hib. unfold i' in Hj0.
      destruct (Nat.ltb_spec i j), (Nat.ltb_spec j0 j); lia. }
  destruct (set_get_general K hash cmp k2 HK Hk2 hs1
                            (without_entry K kd j) (wrap (s - 1)) (n - 1) w)
    as (hs2 & HG & _ & Hkey).
  { apply (set_in_state_same_bucket K hash cmp k k2); assumption. }
  { apply (blen_without_entry K kd n j); first [assumption | lia]. }
  rewrite Hm in HG. simpl option_map in HG.
  specialize (Hkey i' Hm).
  rewrite (nth_entry_without K kd n j i') in Hkey by (first [assumption | lia]).
  rewrite Hg in Hkey.
  exists hs1, hs2. repeat apply conj; assumption.
Qed.

Lemma Hashset_Erase_removes_only_first_match_witness :
  ∃ hs1 hs2,
    Hashset.SUTLHashsetErase two_entry_set (le4 25) initial_world = Ok hs1 initial_world ∧
    set_in_state 4 sample_hash sample_cmp (le4 25) hs1
                 (without_entry 4 (le4 25 ++ le4 57) 0) (wrap (2 - 1)) ∧
    Hashset.SUTLHashsetGet hs1 (le4 57) initial_world
    = Ok (Some (Z.of_nat (if (1 <? 0)%nat then 1%nat else (1 - 1)%nat) * 4), hs2)
         initial_world ∧
    set_key_at hs2 (le4 57)
               (Z.of_nat (if (1 <? 0)%nat then 1%nat else (1 - 1)%nat) * 4) initial_world
    = Ok (nth_entry 4 (le4 25 ++ le4 57) 1) initial_world.
Proof.
  apply (Hashset_Erase_removes_only_first_match 4 sample_hash sample_cmp (le4 25) (le4 57)
           two_entry_set (le4 25 ++ le4 57) 2 2 0 1 initial_world).
  - lia.
  - reflexivity.
  - reflexivity.
  - apply two_entry_set_state. reflexivity.
  - reflexivity.
  - reflexivity.
  - reflexivity.
  - reflexivity.
  - lia.
Defined.
